(** * Planar Langford search (planar_mt.cpp): model and verification

    The development embeds the search engine [dfs], the ledger finalisation
    [unique_count], the orchestrator [solve], the rendering [print] and the
    driver ([init_known_results], [run], [main]) of [planar_mt.cpp].

    - Fixed-width integers are integers of [Z] with the wrap-around of every
      narrowing written out ([int8], [int32], [int64], [uint32], [uint64]).
    - The local arrays [availability], [open], [pos] are lists of their
      declared length; every access is bounds-checked and a violation makes
      the step return [None].
    - The byte array [stack] with its index [top] is a list of four-byte
      frames, most recent first; [top] is four times its length and [push]
      checks it against the declared [24 * n] bytes.
    - The template parameter [n], the constant [kMaxThreads] and the thread
      id are arguments, so that the worker count can be varied. *)

From Stdlib Require Import ZArith List Lia Bool Permutation Sorted.
Import ListNotations.
Local Open Scope Z_scope.

(** ** Machine integers *)

Module MachineInt.

(** [wrap lo size x]: the representative of [x] modulo [size] in
    [lo .. lo + size - 1]; a value already in range is returned as it is. *)
Definition wrap (lo size x : Z) : Z :=
  if (lo <=? x) && (x <? lo + size) then x else (x - lo) mod size + lo.

(** Conversion to [int8_t], [int32_t], [int64_t] (two's complement) and to
    [unsigned], [uint64_t]. *)
Definition int8 : Z -> Z := wrap (-128) 256.
Definition int32 : Z -> Z := wrap (-2147483648) 4294967296.
Definition int64 : Z -> Z := wrap (-9223372036854775808) 18446744073709551616.
Definition uint32 : Z -> Z := wrap 0 4294967296.
Definition uint64 : Z -> Z := wrap 0 18446744073709551616.

Definition in_int8 (x : Z) : Prop := -128 <= x <= 127.
Definition in_int32 (x : Z) : Prop := - 2 ^ 31 <= x < 2 ^ 31.
Definition in_int64 (x : Z) : Prop := - 2 ^ 63 <= x < 2 ^ 63.

(** Number of trailing zero bits of a positive number. *)
Fixpoint ctz (p : positive) : Z :=
  match p with
  | xO q => 1 + ctz q
  | _ => 0
  end.

(** [__builtin_ffsll]: one plus the index of the least significant set bit,
    zero for zero.  The lowest set bit of a negative two's complement number
    is that of its absolute value. *)
Definition ffsll (x : Z) : Z :=
  match x with
  | Z0 => 0
  | Zpos p => 1 + ctz p
  | Zneg p => 1 + ctz p
  end.

End MachineInt.
Export MachineInt.

(** Number of set bits of a non-negative number. *)

Fixpoint popc (p : positive) : Z :=
  match p with
  | xH => 1
  | xO q => popc q
  | xI q => 1 + popc q
  end.

Definition popcount (x : Z) : Z :=
  match x with Zpos p => popc p | _ => 0 end.

(** ** Constants of the program *)

Definition kMaxThreads : Z := 511.
Definition kMaxN : Z := 31.
Definition lsb : Z := 1.
Definition lsb32 : Z := 1.

(** ** Arrays with checked accesses *)

Fixpoint upd (i : nat) (v : Z) (a : list Z) : list Z :=
  match a, i with
  | [], _ => []
  | _ :: t, O => v :: t
  | x :: t, S j => x :: upd j v t
  end.

Definition rd (a : list Z) (i : Z) : option Z :=
  if i <? 0 then None else nth_error a (Z.to_nat i).

Definition wr (a : list Z) (i v : Z) : option (list Z) :=
  if (0 <=? i) && (i <? Z.of_nat (length a))
  then Some (upd (Z.to_nat i) v a) else None.

Notation "x <- c ;; k" :=
  (match c with Some x => k | None => None end)
  (at level 61, c at next level, right associativity).

(** ** The search engine *)

(** [Positions<n>]: [pos[m]] is the slot of the closing [m + 1]. *)
Definition Positions := list Z.
Definition Results := list Positions.

(** One decision on the stack: [push(k, m, d, num_open)]. *)
Record frame := mkFrame { fk : Z; fm : Z; fd : Z; fnum_open : Z }.

Record state := mkState {
  availability : list Z;      (* int32_t availability[2 * n + 1] *)
  pos : Positions;            (* Positions<n> pos *)
  open : list Z;              (* int64_t open[4 * n + 2] *)
  stack : list frame;         (* int8_t stack[24 * n], top = 4 * length *)
  results : Results           (* the shared ledger *)
}.

Section Dfs.

(** [W] stands for [kMaxThreads], [n] for the template parameter. *)
Variables (W n thread_id : Z).

Definition two_n : Z := 2 * n.
Definition msb : Z := int64 (Z.shiftl lsb (n - 1)).
Definition nn1 : Z := int64 (Z.shiftl lsb (two_n - 1)).

(** [k_limit = (n > 19 ? (8 + (n / 3)) : (n - 5))], an [int8_t]. *)
Definition k_limit : Z := int8 (if 19 <? n then 8 + Z.quot n 3 else n - 5).

(** [push]: four bytes at [stack[top ..]], inside [int8_t stack[24 * n]]. *)
Definition push (f : frame) (stk : list frame) : option (list frame) :=
  if 4 * Z.of_nat (length stk) + 4 <=? 24 * n then Some (f :: stk) else None.

(** The hash of the work partition:
    [uint64_t(131071 * (openings[1] - openings[0]) + avail) % kMaxThreads]. *)
Definition hash_product (o0 o1 : Z) : Z := 131071 * int64 (o1 - o0).

Definition partition_hash (o0 o1 avail : Z) : Z :=
  uint64 (int64 (int64 (hash_product o0 o1) + avail)) mod W.

(** [kMaxThreads > 1 && k == k_limit && hash != thread_id]: the branch
    belongs to another worker.  As with [&&], the hash is evaluated only at
    the depth [k_limit]. *)
Definition not_mine (k avail o0 o1 : Z) : bool :=
  if 1 <? W then
    if k =? k_limit
    then negb (partition_hash o0 o1 avail =? uint64 thread_id)
    else false
  else false.

(** One round of [for (d=0; d<2; ++d)]: try closing the pending opening of
    side [d], whose bit set is [od]. *)
Definition try_close (k avail num_open offset d od : Z) (stk : list frame)
  : option (list frame) :=
  if od =? 0 then Some stk
  else
    let m := int8 (offset + ffsll od) in
    if uint32 m <? n then
      if negb (Z.land (Z.shiftr avail m) 1 =? 0) then
        if negb (m =? 0) || (k <=? n) then push (mkFrame k m d num_open) stk
        else Some stk
      else Some stk
    else Some stk.

(** The children of a node, pushed in the order of the source. *)
Definition push_children (k avail o0 o1 num_open : Z) (stk : list frame)
  : option (list frame) :=
  let offset := int8 (k - two_n - 2) in
  s1 <- try_close k avail num_open offset 0 o0 stk ;;
  s2 <- try_close k avail num_open offset 1 o1 s1 ;;
  if num_open <? n then
    s3 <- push (mkFrame k (-1) 1 num_open) s2 ;;
    push (mkFrame k (-1) 0 num_open) s3
  else Some s2.

(** [place_macro(d)] on [pos], [avail], [openings[d]] and [num_open]. *)
Definition place_macro (k m : Z) (pos : Positions) (avail od num_open : Z)
  : option (Positions * Z * Z * Z) :=
  if 0 <=? m then
    pos1 <- wr pos m k ;;                                   (* pos[m] = k *)
    Some (pos1,
          int32 (Z.lxor avail (int32 (Z.shiftl lsb32 m))),  (* avail ^= (lsb32 << m) *)
          Z.land od (int64 (od - 1)),                       (* openings[d] &= (openings[d] - 1) *)
          num_open)
  else
    Some (pos, avail,
          Z.lor od (Z.shiftr nn1 k),                        (* openings[d] |= nn1 >> k *)
          int8 (num_open + 1)).                             (* ++num_open *)

(** The body of [while (top)], after [pop(k, m, d, num_open)] returned the
    frame [f] and left [rest] on the stack. *)
Definition dfs_body (st : state) (f : frame) (rest : list frame)
  : option state :=
  let k := fk f in
  let m := fm f in
  let num_open := fnum_open f in
  let base := 2 * k + 2 in                       (* openings = open + base *)
  o0 <- rd (open st) (base - 2) ;;
  open1 <- wr (open st) base o0 ;;               (* openings[0] = openings[-2] *)
  o1 <- rd open1 (base - 1) ;;
  open2 <- wr open1 (base + 1) o1 ;;             (* openings[1] = openings[-1] *)
  avail <- rd (availability st) k ;;
  let d := if fd f =? 0 then 0 else 1 in         (* if (d) place(1) else place(0) *)
  od <- rd open2 (base + d) ;;
  placed <- place_macro k m (pos st) avail od num_open ;;
  let '(pos1, avail1, od1, num_open1) := placed in
  open3 <- wr open2 (base + d) od1 ;;
  let k1 := int8 (k + 1) in                      (* ++k *)
  availability1 <- wr (availability st) k1 avail1 ;;
  if k1 =? two_n then
    Some (mkState availability1 pos1 open3 rest (results st ++ [pos1]))
  else
    c0 <- rd open3 base ;;
    c1 <- rd open3 (base + 1) ;;
    if not_mine k1 avail1 c0 c1 then
      Some (mkState availability1 pos1 open3 rest (results st))
    else
      stk <- push_children k1 avail1 c0 c1 num_open1 rest ;;
      Some (mkState availability1 pos1 open3 stk (results st)).

(** One turn of [while (top)]; a state with an empty stack has left the loop. *)
Definition dfs_step (st : state) : option state :=
  match stack st with
  | [] => Some st
  | f :: rest => dfs_body st f rest
  end.

Definition finished (st : state) : bool :=
  match stack st with [] => true | _ => false end.

(** [dfs_loop F] runs the loop for at most [2 ^ F] turns. *)
Fixpoint dfs_loop (F : nat) (st : state) : option state :=
  match F with
  | O => dfs_step st
  | S F' =>
      st1 <- dfs_loop F' st ;;
      if finished st1 then Some st1 else dfs_loop F' st1
  end.

(** The locals of [dfs] before the loop.  Cells the program leaves
    uninitialised hold [0]; [dfs_uninitialised] shows that their contents
    do not matter. *)
Definition init (ledger : Results) : state :=
  mkState
    (int32 (Z.lor msb (int64 (msb - 1))) :: repeat 0 (Z.to_nat (2 * n)))
    (repeat 0 (Z.to_nat n))
    (repeat 0 (Z.to_nat (4 * n + 2)))
    [mkFrame 0 (-1) 0 0]
    ledger.

(** The same locals with arbitrary contents [av], [ps], [op] in the cells
    the program leaves uninitialised. *)
Definition init_with (av ps op : list Z) (ledger : Results) : state :=
  mkState
    (int32 (Z.lor msb (int64 (msb - 1))) :: av)
    ps
    (0 :: 0 :: op)
    [mkFrame 0 (-1) 0 0]
    ledger.

(** The number of nodes of the decision tree is below [4 ^ (2 n)], so
    [2 ^ (4 n)] turns exhaust it. *)
Definition dfs_fuel : nat := Z.to_nat (4 * n).

(** [dfs<n>(results, num_threads, thread_id, mtx)]: the ledger after the
    worker has finished. *)
Definition dfs (ledger : Results) : option Results :=
  st <- dfs_loop dfs_fuel (init ledger) ;;
  if finished st then Some (results st) else None.

End Dfs.

(** ** The ledger *)

(** [operator<] and [operator==] of [std::array<int8_t, n>]. *)
Fixpoint pos_ltb (a b : Positions) : bool :=
  match a, b with
  | [], [] => false
  | [], _ :: _ => true
  | _ :: _, [] => false
  | x :: a', y :: b' => (x <? y) || ((x =? y) && pos_ltb a' b')
  end.

Fixpoint pos_eqb (a b : Positions) : bool :=
  match a, b with
  | [], [] => true
  | x :: a', y :: b' => (x =? y) && pos_eqb a' b'
  | _, _ => false
  end.

(** [std::sort]: the result is the one ordered arrangement of the entries. *)
Fixpoint insert_sorted (x : Positions) (l : Results) : Results :=
  match l with
  | [] => [x]
  | y :: t => if pos_ltb y x then y :: insert_sorted x t else x :: l
  end.

Definition sort (l : Results) : Results := fold_right insert_sorted [] l.

(** The loop of [unique_count]: how many [i >= 1] have
    [results[i] == results[i-1]]. *)
Fixpoint adjacent_equal (l : Results) : Z :=
  match l with
  | a :: (b :: _) as t => (if pos_eqb b a then 1 else 0) + adjacent_equal t
  | _ => 0
  end.

(** The number of maximal runs of equal entries. *)
Fixpoint runs (l : Results) : Z :=
  match l with
  | [] => 0
  | a :: t =>
      match t with
      | [] => 1
      | b :: _ => (if pos_eqb b a then 0 else 1) + runs t
      end
  end.

(** [unique_count]: the sorted ledger it leaves behind, and its result.
    The index [int i] of the loop counts up to [total], so the model stands
    for ledgers of fewer than [2 ^ 31] entries. *)
Definition unique_count (results : Results) : Results * Z :=
  let total := Z.of_nat (length results) in
  let sorted := sort results in
  (sorted, int64 (total - adjacent_equal sorted)).

(** ** The orchestrator *)

(** The workers [0 .. W-1].  Each has its own locals; the ledger is the
    only object they share, and they append to it under the mutex.  Here
    they run one after the other: any interleaving of their appends is a
    permutation of this ledger, on which [unique_count] returns the same
    count ([unique_count_perm]).  The polling of [num_running] only waits
    and is left out. *)
Fixpoint run_workers (W n : Z) (ids : list Z) (ledger : Results)
  : option Results :=
  match ids with
  | [] => Some ledger
  | t :: ids' => l1 <- dfs W n t ledger ;; run_workers W n ids' l1
  end.

Definition worker_ids (W : Z) : list Z :=
  map Z.of_nat (seq 0 (Z.to_nat W)).

(** [n <= 0 || n > kMaxN || n % 4 == 1 || n % 4 == 2] *)
Definition degenerate (n : Z) : bool :=
  (n <=? 0) || (kMaxN <? n) || (Z.rem n 4 =? 1) || (Z.rem n 4 =? 2).

(** [solve<n>()] with [W] workers: the count it returns and the ids of the
    workers it started, in the order of the [for] loop; [None] when a worker
    faults. *)
Definition solve_run (W n : Z) : option (Z * list Z) :=
  if degenerate n then Some (0, [])
  else
    ledger <- run_workers W n (worker_ids W) [] ;;
    Some (int32 (snd (unique_count ledger)), worker_ids W).

Definition solve_with (W n : Z) : option Z :=
  match solve_run W n with
  | Some (count, _) => Some count
  | None => None
  end.

Definition solve (n : Z) : option Z := solve_with kMaxThreads n.

(** ** The workers as threads *)

(** The state of a worker with the ledger [r] in the place of [results]. *)
Definition with_results (st : state) (r : Results) : state :=
  mkState (availability st) (pos st) (open st) (stack st) r.

(** The threads of [solve]: the locals of every worker (their [results]
    field is not used) and the ledger they share. *)
Record system := mkSystem { workers : list state; shared : Results }.

Fixpoint set_nth {A} (i : nat) (x : A) (l : list A) : list A :=
  match l, i with
  | [], _ => []
  | _ :: t, O => x :: t
  | y :: t, S j => y :: set_nth j x t
  end.

(** One turn of the loop of worker [i] on the shared ledger.  A turn touches
    the ledger only in [results.push_back(pos)], between [mtx.lock()] and
    [mtx.unlock()], so the turns of the threads are the units of their
    interleaving.  A worker that has left its loop makes no more turns. *)
Definition thread_step (W n : Z) (i : nat) (sys : system) : option system :=
  match nth_error (workers sys) i with
  | None => None
  | Some st =>
      if finished st then None
      else
        st1 <- dfs_step W n (Z.of_nat i) (with_results st (shared sys)) ;;
        Some (mkSystem (set_nth i st1 (workers sys)) (results st1))
  end.

(** The turns of a schedule: which thread moves next. *)
Fixpoint schedule_run (W n : Z) (sched : list nat) (sys : system)
  : option system :=
  match sched with
  | [] => Some sys
  | i :: sched' =>
      sys1 <- thread_step W n i sys ;; schedule_run W n sched' sys1
  end.

(** The threads as [solve] starts them, on an empty ledger. *)
Definition start (W n : Z) : system :=
  mkSystem (repeat (init n []) (Z.to_nat W)) [].

(** [num_running == 0]: every worker has left its loop. *)
Definition all_done (sys : system) : bool := forallb finished (workers sys).

(** ** Rendering a solution *)

(** The loop of [print] over the values [ms]: the slots [k2 = pos[m-1]] and
    [k1 = k2 - m - 1] of each value, the four assertions, and
    [s[k1] = s[k2] = m].  A failed assertion gives [None]. *)
Fixpoint place_values (n : Z) (pos : Positions) (ms : list Z) (s : list Z)
  : option (list Z) :=
  match ms with
  | [] => Some s
  | m :: ms' =>
      k2 <- rd pos (m - 1) ;;
      let k1 := k2 - m - 1 in
      if (0 <=? k1) && (k2 <? 2 * n) then
        c1 <- rd s k1 ;;
        c2 <- rd s k2 ;;
        if (c1 =? -1) && (c2 =? -1) then
          s1 <- wr s k2 m ;;
          s2 <- wr s1 k1 m ;;
          place_values n pos ms' s2
        else None
      else None
  end.

(** The values [1 .. n], in the order of [for (int m=1; m<=n; ++m)]. *)
Definition values (n : Z) : list Z :=
  map (fun i => Z.of_nat i + 1) (seq 0 (Z.to_nat n)).

(** [print<n>(pos)]: the sequence it writes, [None] when one of its
    assertions fails. *)
Definition print (n : Z) (pos : Positions) : option (list Z) :=
  s <- place_values n pos (values n) (repeat (-1) (Z.to_nat (2 * n))) ;;
  if forallb (fun m => (0 <=? m) && (m <=? n)) s then Some s else None.

(** ** Printing the distinct entries *)

(** The entries [unique_count] passes to [print] when [kPrint] is set, in
    the order of the calls: after [prev], every entry of the sorted ledger
    that differs from the one before it. *)
Fixpoint printed_after (prev : Positions) (l : Results) : Results :=
  match l with
  | [] => []
  | b :: t =>
      if pos_eqb b prev then printed_after b t else b :: printed_after b t
  end.

(** [if (kPrint && total) print(results[0])], then the loop. *)
Definition printed (kPrint : bool) (results : Results) : Results :=
  if kPrint then
    match sort results with
    | [] => []
    | a :: t => a :: printed_after a t
    end
  else [].

(** ** The driver *)

(** The indices [lo .. hi - 1] of a [for] loop. *)
Definition range (lo hi : nat) : list Z := map Z.of_nat (seq lo (hi - lo)).

(** A [for] loop over the indices [ix]: [a[i] = v] where [g i] gives [v]. *)
Fixpoint fill (g : Z -> option Z) (ix : list Z) (a : list Z)
  : option (list Z) :=
  match ix with
  | [] => Some a
  | i :: ix' =>
      match g i with
      | Some v => a1 <- wr a i v ;; fill g ix' a1
      | None => fill g ix' a
      end
  end.

(** The assignments [known_results[n] = v] of [init_known_results], in the
    order of the source. *)
Definition published : list (Z * Z) :=
  [(3, 1); (4, 0); (7, 0); (8, 4); (11, 16); (12, 40); (15, 194); (16, 274);
   (19, 2384); (20, 4719); (23, 31856); (24, 62124); (27, 426502);
   (28, 817717)].

Fixpoint assign (kv : list (Z * Z)) (a : list Z) : option (list Z) :=
  match kv with
  | [] => Some a
  | (i, v) :: kv' => a1 <- wr a i v ;; assign kv' a1
  end.

(** [init_known_results(known_results)] on the array of the caller. *)
Definition init_known_results (known_results : list Z) : option (list Z) :=
  a1 <- fill (fun _ => Some 0) (range 0 64) known_results ;;
  a2 <- fill (fun i => if (Z.rem i 4 =? 3) || (Z.rem i 4 =? 0)
                       then Some (-1) else None)
             (range 29 64) a1 ;;
  assign published a2.

(** What [run] reports about its count: [is NEW], [MATCHES previously
    published result], [MISMATCHES previously published result r]. *)
Inductive verdict := New | Matches | Mismatches (r : Z).

(** [run<n>(known_results)]: the count it prints and its verdict; the time
    stamps are left out. *)
Definition run (n : Z) (known_results : list Z) : option (Z * verdict) :=
  cnt <- solve n ;;
  if (n <? 0) || (64 <=? n) then Some (cnt, New)
  else
    known <- rd known_results n ;;
    if known =? -1 then Some (cnt, New)
    else if known =? cnt then Some (cnt, Matches)
    else Some (cnt, Mismatches known).

(** The runs of [main], in order. *)
Definition main_runs : list Z :=
  [3; 4; 7; 8; 11; 12; 15; 16; 19; 20; 23; 24; 27; 28].

Fixpoint run_all (ns : list Z) (known_results : list Z)
  : option (list (Z * verdict)) :=
  match ns with
  | [] => Some []
  | n :: ns' =>
      r <- run n known_results ;;
      rs <- run_all ns' known_results ;;
      Some (r :: rs)
  end.

(** [main]: the lines it prints; [known_results] is its local array as it
    is before [init_known_results] fills it. *)
Definition main (known_results : list Z) : option (list (Z * verdict)) :=
  table <- init_known_results known_results ;;
  run_all main_runs table.

(** ** The decision tree of the search *)

(** The locals of [dfs] at a node of the tree, that is after a frame has been
    applied and [k] incremented: the number [nk] of slots filled, the
    availability word, the two [openings] words and [num_open].  The words
    are the cells [availability[nk]], [open[2 nk]] and [open[2 nk + 1]]. *)
Record node := mkNode {
  nk : Z; navail : Z; nopen0 : Z; nopen1 : Z; nnum_open : Z
}.

Section Tree.

Variables (W n thread_id : Z).

(** The node before any decision: [availability[0]], [open[0]], [open[1]]. *)
Definition root_node : node :=
  mkNode 0 (int32 (Z.lor (msb n) (int64 (msb n - 1)))) 0 0 0.

(** The frame pushed before the loop: [push(0, -1, 0, 0)]. *)
Definition first_frame : frame := mkFrame 0 (-1) 0 0.

Definition side (f : frame) : Z := if fd f =? 0 then 0 else 1.

(** The results of [place_macro], one by one. *)
Definition place_avail (m avail : Z) : Z :=
  if 0 <=? m then int32 (Z.lxor avail (int32 (Z.shiftl lsb32 m))) else avail.

Definition place_open (k m od : Z) : Z :=
  if 0 <=? m then Z.land od (int64 (od - 1))
  else Z.lor od (Z.shiftr (nn1 n) k).

Definition place_num_open (m num_open : Z) : Z :=
  if 0 <=? m then num_open else int8 (num_open + 1).

Definition place_pos (k m : Z) (p : Positions) : Positions :=
  if 0 <=? m then upd (Z.to_nat m) k p else p.

(** The node reached from [nd] by the decision [f]. *)
Definition step_node (f : frame) (nd : node) : node :=
  mkNode (int8 (fk f + 1))
         (place_avail (fm f) (navail nd))
         (if side f =? 0 then place_open (fk f) (fm f) (nopen0 nd)
          else nopen0 nd)
         (if side f =? 0 then nopen1 nd
          else place_open (fk f) (fm f) (nopen1 nd))
         (place_num_open (fm f) (fnum_open f)).

(** The frame [try_close] pushes for side [d], if any. *)
Definition close_child (k avail num_open d od : Z) : list frame :=
  if od =? 0 then []
  else
    let m := int8 (int8 (k - two_n n - 2) + ffsll od) in
    if (uint32 m <? n) && negb (Z.land (Z.shiftr avail m) 1 =? 0)
       && (negb (m =? 0) || (k <=? n))
    then [mkFrame k m d num_open] else [].

Definition open_children (k num_open : Z) : list frame :=
  if num_open <? n
  then [mkFrame k (-1) 0 num_open; mkFrame k (-1) 1 num_open] else [].

(** The frames [push_children] leaves on the stack, the last pushed first. *)
Definition children (nd : node) : list frame :=
  open_children (nk nd) (nnum_open nd)
  ++ close_child (nk nd) (navail nd) (nnum_open nd) 1 (nopen1 nd)
  ++ close_child (nk nd) (navail nd) (nnum_open nd) 0 (nopen0 nd).

Definition abandoned (nd : node) : bool :=
  not_mine W n thread_id (nk nd) (navail nd) (nopen0 nd) (nopen1 nd).

(** The decisions the search takes at a node: the first frame at the root,
    and below it the frames pushed by [push_children], unless the node is a
    leaf or the branch belongs to another worker. *)
Definition offers (nd : node) (f : frame) : Prop :=
  if nk nd =? 0 then f = first_frame
  else nk nd <> two_n n /\ abandoned nd = false /\ In f (children nd).

(** [on_path path nd]: the decisions [path], taken in this order from the
    root, are a path of the search and lead to the node [nd]. *)
Inductive on_path : list frame -> node -> Prop :=
| on_path_root : on_path [] root_node
| on_path_step path nd f :
    on_path path nd -> offers nd f -> on_path (path ++ [f]) (step_node f nd).

(** The ledger entries of the subtree below the decision [f] taken at [nd],
    in the order the search appends them; [p] is the [pos] array of the
    path. *)
Fixpoint leaves (depth : nat) (f : frame) (nd : node) (p : Positions)
  : Results :=
  match depth with
  | O => []
  | S depth' =>
      let nd1 := step_node f nd in
      let p1 := place_pos (fk f) (fm f) p in
      if nk nd1 =? two_n n then [p1]
      else if abandoned nd1 then []
      else flat_map (fun c => leaves depth' c nd1 p1) (children nd1)
  end.

(** The state after one turn of the loop on the frame [f] whose node is
    [nd], written without the checks. *)
Definition step_state (st : state) (f : frame) (rest : list frame) (nd : node)
  : state :=
  let nd1 := step_node f nd in
  let k := fk f in
  let p1 := place_pos k (fm f) (pos st) in
  mkState
    (upd (Z.to_nat (k + 1)) (navail nd1) (availability st))
    p1
    (upd (Z.to_nat (2 * k + 2 + side f))
         (if side f =? 0 then nopen0 nd1 else nopen1 nd1)
         (upd (Z.to_nat (2 * k + 3)) (nopen1 nd)
              (upd (Z.to_nat (2 * k + 2)) (nopen0 nd) (open st))))
    (if nk nd1 =? two_n n then rest
     else if abandoned nd1 then rest
     else children nd1 ++ rest)
    (if nk nd1 =? two_n n then results st ++ [p1] else results st).

(** The cells of the arrays that belong to the node [nd]. *)
Definition at_level (st : state) (nd : node) : Prop :=
  rd (availability st) (nk nd) = Some (navail nd) /\
  rd (open st) (2 * nk nd) = Some (nopen0 nd) /\
  rd (open st) (2 * nk nd + 1) = Some (nopen1 nd).

End Tree.

(** [n] turns of the loop. *)
Fixpoint turns (W n thread_id : Z) (j : nat) (st : state) : option state :=
  match j with
  | O => Some st
  | S j' => st1 <- dfs_step W n thread_id st ;; turns W n thread_id j' st1
  end.

(** The states the loop of [dfs] goes through. *)
Inductive reachable (W n thread_id : Z) : state -> Prop :=
| reachable_init ledger : reachable W n thread_id (init n ledger)
| reachable_step st st1 :
    reachable W n thread_id st ->
    dfs_step W n thread_id st = Some st1 ->
    reachable W n thread_id st1.

(** ** Pending openings and closed pairs of a path *)

(** A closed pair: its side, its two slots and the index [am] of its value
    (the value is [am + 1]). *)
Record arc := mkArc { aside : Z; aopen : Z; aclose : Z; am : Z }.

(** What a path has built: the pending openings of each side, the most
    recent first, and the pairs closed so far. *)
Record view := mkView { pend0 : list Z; pend1 : list Z; arcs : list arc }.

Definition empty_view : view := mkView [] [] [].

(** An open decision pushes its slot on its side; a close decision pops the
    most recent pending opening of its side and pairs it with its slot. *)
Definition step_view (f : frame) (v : view) : view :=
  if 0 <=? fm f then
    if side f =? 0 then
      match pend0 v with
      | t :: l => mkView l (pend1 v) (mkArc 0 t (fk f) (fm f) :: arcs v)
      | [] => v
      end
    else
      match pend1 v with
      | t :: l => mkView (pend0 v) l (mkArc 1 t (fk f) (fm f) :: arcs v)
      | [] => v
      end
  else
    if side f =? 0 then mkView (fk f :: pend0 v) (pend1 v) (arcs v)
    else mkView (pend0 v) (fk f :: pend1 v) (arcs v).

Definition view_of (path : list frame) : view :=
  fold_left (fun v f => step_view f v) path empty_view.

Definition pending (d : Z) (v : view) : list Z :=
  if d =? 0 then pend0 v else pend1 v.

(** The close and the open decisions of a path. *)
Definition is_close (f : frame) : bool := 0 <=? fm f.
Definition closes (path : list frame) : list frame := filter is_close path.
Definition opens (path : list frame) : list frame :=
  filter (fun f => negb (is_close f)) path.

(** The bit set of a list of slots: slot [t] is bit [2 n - 1 - t], as set by
    [openings[d] |= nn1 >> k]. *)
Fixpoint enc (n : Z) (l : list Z) : Z :=
  match l with
  | [] => 0
  | t :: l' => 2 ^ (2 * n - 1 - t) + enc n l'
  end.

(** Slots below [k], in decreasing order. *)
Fixpoint desc_below (k : Z) (l : list Z) : Prop :=
  match l with
  | [] => True
  | t :: l' => 0 <= t < k /\ desc_below t l'
  end.

(** Two pairs drawn on the same side cross when they interleave. *)
Definition crossing (a b c d : Z) : Prop := a < c /\ c < b /\ b < d.

(** What a path of the search maintains between its node and its view. *)
Record view_inv (n : Z) (nd : node) (v : view) : Prop := mkViewInv {
  vi_k : 0 <= nk nd <= 2 * n;
  vi_num : nnum_open nd =
           Z.of_nat (length (pend0 v) + length (pend1 v) + length (arcs v));
  vi_count : nk nd = nnum_open nd + Z.of_nat (length (arcs v));
  vi_num_le : nnum_open nd <= n;
  vi_open0 : nopen0 nd = enc n (pend0 v);
  vi_open1 : nopen1 nd = enc n (pend1 v);
  vi_desc0 : desc_below (nk nd) (pend0 v);
  vi_desc1 : desc_below (nk nd) (pend1 v);
  vi_avail_range : 0 <= navail nd < 2 ^ n;
  vi_avail : forall m, 0 <= m < n ->
      (Z.testbit (navail nd) m = true <-> ~ In m (map am (arcs v)));
  vi_popcount : popcount (navail nd) = n - Z.of_nat (length (arcs v));
  vi_arcs : forall a, In a (arcs v) ->
      0 <= aopen a /\ aclose a < nk nd /\ am a = aclose a - aopen a - 2 /\
      0 <= am a < n /\ (aside a = 0 \/ aside a = 1);
  vi_nodup : NoDup (map am (arcs v));
  vi_slots : forall t, 0 <= t < nk nd ->
      In t (pend0 v ++ pend1 v ++ map aopen (arcs v) ++ map aclose (arcs v));
  vi_cross : forall a b, In a (arcs v) -> In b (arcs v) -> aside a = aside b ->
      ~ crossing (aopen a) (aclose a) (aopen b) (aclose b);
  vi_inside : forall a t, In a (arcs v) -> In t (pending (aside a) v) ->
      ~ (aopen a < t < aclose a);
  vi_first : ~ In 0 (pend1 v) /\
             forall a, In a (arcs v) -> aopen a = 0 -> aside a = 0
}.

(** ** Planar Langford arrangements *)

(** The two slots of the value [v] in a ledger entry: [pos[v - 1]] and, as
    in [print], [k1 = k2 - m - 1]. *)
Definition closing (p : Positions) (v : Z) : Z := nth (Z.to_nat (v - 1)) p 0.
Definition opening (p : Positions) (v : Z) : Z := closing p v - v - 1.
Definition occupies (p : Positions) (v t : Z) : Prop :=
  t = opening p v \/ t = closing p v.

(** Every value [1 .. n] has its two slots among the [2 n] slots, with [v]
    slots between them, and every slot holds exactly one value. *)
Definition langford (n : Z) (p : Positions) : Prop :=
  Z.of_nat (length p) = n /\
  (forall v, 1 <= v <= n ->
     0 <= opening p v /\ closing p v < 2 * n /\
     closing p v - opening p v - 1 = v) /\
  (forall t, 0 <= t < 2 * n ->
     exists v, 1 <= v <= n /\ occupies p v t /\
       forall w, 1 <= w <= n -> occupies p w t -> w = v).

(** [sd] draws every pair on side [0] or [1] and no two pairs of a side
    cross. *)
Definition noncrossing (n : Z) (p : Positions) (sd : Z -> Z) : Prop :=
  (forall v, 1 <= v <= n -> sd v = 0 \/ sd v = 1) /\
  forall v w, 1 <= v <= n -> 1 <= w <= n -> sd v = sd w ->
    ~ crossing (opening p v) (closing p v) (opening p w) (closing p w).

Definition planar (n : Z) (p : Positions) : Prop :=
  exists sd, noncrossing n p sd.

(** ** The invariant of the loop *)

(** Below a frame of level [k] there are at most [3 k] frames, none of a
    higher level. *)
Fixpoint shape (stk : list frame) : Prop :=
  match stk with
  | [] => True
  | f :: r =>
      Z.of_nat (length r) <= 3 * fk f /\
      (forall g, In g r -> fk g <= fk f) /\ shape r
  end.

(** The entry [p] records the closing slot of every pair of the view. *)
Definition records (v : view) (p : Positions) : Prop :=
  forall a, In a (arcs v) -> rd p (am a) = Some (aclose a).

Section Invariant.

Variables (W n thread_id : Z).

Definition complete (p : Positions) : Prop :=
  exists path nd,
    on_path W n thread_id path nd /\ nk nd = 2 * n /\
    Z.of_nat (length p) = n /\ records (view_of path) p.

(** Every frame of the stack is a decision offered at the node of its level
    on the current path, whose cells hold the node. *)
Definition loop_inv (ledger : Results) (st : state) : Prop :=
  Z.of_nat (length (availability st)) = 2 * n + 1 /\
  Z.of_nat (length (open st)) = 4 * n + 2 /\
  Z.of_nat (length (pos st)) = n /\
  shape (stack st) /\
  (exists path ndp,
     on_path W n thread_id path ndp /\
     records (view_of path) (pos st) /\
     forall f, In f (stack st) ->
       exists nd,
         on_path W n thread_id (firstn (Z.to_nat (fk f)) path) nd /\
         at_level st nd /\ offers W n thread_id nd f) /\
  (exists found,
     results st = ledger ++ found /\ forall p, In p found -> complete p).

End Invariant.

(** ** Definitions used in the proofs *)

(** A bound on the number of turns spent below a frame with [d] levels
    left. *)
Fixpoint nodes_bound (d : nat) : nat :=
  match d with
  | O => O
  | S d' => S (4 * nodes_bound d')
  end.

(** [p] holds the same closing slots as [ps] for the values that are no
    longer available. *)
Definition agree (n avail : Z) (ps p : Positions) : Prop :=
  length ps = length p /\
  forall m, 0 <= m < n -> Z.testbit avail m = false -> rd ps m = rd p m.

(** What a run of the loop leaves untouched: the cells of the nodes down to
    level [K] and the closing slots of the values placed at that level. *)
Definition stable (n K avail : Z) (st st' : state) : Prop :=
  (forall nd', 0 <= nk nd' <= K -> at_level st nd' -> at_level st' nd') /\
  (forall m, 0 <= m < n -> Z.testbit avail m = false ->
     rd (pos st') m = rd (pos st) m).

(** The loop started on a stack [f :: rest] explores the subtree below [f]
    and comes back with the stack [rest], having appended the entries of
    the subtree in order. *)
Definition run_spec (W n thread_id : Z) (depth : nat) : Prop :=
  forall ledger st f rest nd p,
    loop_inv W n thread_id ledger st -> stack st = f :: rest ->
    at_level st nd -> nk nd = fk f ->
    agree n (navail nd) (pos st) p ->
    2 * n - fk f <= Z.of_nat depth ->
    exists j st',
      turns W n thread_id j st = Some st' /\
      (j <= nodes_bound depth)%nat /\
      loop_inv W n thread_id ledger st' /\
      stack st' = rest /\
      results st' = results st ++ leaves W n thread_id depth f nd p /\
      stable n (fk f) (navail nd) st st'.

(** The entries a worker appends to the ledger: those of the tree below the
    first frame. *)
Definition found (W n thread_id : Z) : Results :=
  leaves W n thread_id (Z.to_nat (2 * n)) (first_frame) (root_node n)
    (repeat 0 (Z.to_nat n)).

(** The slots [0 .. k-1]. *)
Definition slots (k : nat) : list Z := map Z.of_nat (seq 0 k).

(** The pair of a value in a list of pairs. *)
Definition arc_of (l : list arc) (m : Z) : arc :=
  match find (fun a => am a =? m) l with
  | Some a => a
  | None => mkArc 0 0 0 0
  end.

(** [a] is not after [b] in the order of the ledger. *)
Definition pos_le (a b : Positions) : Prop := pos_ltb b a = false.

Definition pos_eq_dec : forall a b : Positions, {a = b} + {a <> b} :=
  list_eq_dec Z.eq_dec.

(** The number of distinct entries of a ledger. *)
Definition distinct (l : Results) : Z :=
  Z.of_nat (length (nodup pos_eq_dec l)).

(** The finalisation has merged the equal entries: no two entries of the
    sorted ledger are equal. *)
Definition merged (ledger : Results) : Prop :=
  NoDup (fst (unique_count ledger)).

(** What the array [s] of [print] holds while the values [ms] are still to
    be written. *)
Definition print_inv (n : Z) (p : Positions) (ms : list Z) (s : list Z)
  : Prop :=
  Z.of_nat (length s) = 2 * n /\
  forall t, 0 <= t < 2 * n ->
    exists c, rd s t = Some c /\
      ((c = -1 /\ forall v, 1 <= v <= n -> occupies p v t -> In v ms) \/
       (1 <= c <= n /\ ~ In c ms /\ occupies p c t)).

(** [descends nd fs nd']: the decisions [fs], offered one after the other
    from the node [nd], lead to [nd']. *)
Inductive descends (W n thread_id : Z) : node -> list frame -> node -> Prop :=
| descends_nil nd : descends W n thread_id nd [] nd
| descends_cons nd f fs nd' :
    offers W n thread_id nd f ->
    descends W n thread_id (step_node n f nd) fs nd' ->
    descends W n thread_id nd (f :: fs) nd'.

(** The [pos] array after the decisions [fs]. *)
Definition path_pos (fs : list frame) (p : Positions) : Positions :=
  fold_left (fun q f => place_pos (fk f) (fm f) q) fs p.

(** The values whose opening slot is below [k]. *)
Definition opened (n : Z) (p : Positions) (k : Z) : list Z :=
  filter (fun v => opening p v <? k) (values n).

(** The view of the first [k] slots of the arrangement [p] drawn with the
    sides [sd]: the pending openings of each side and the closed pairs. *)
Definition matches (n : Z) (p : Positions) (sd : Z -> Z) (k : Z) (v : view)
  : Prop :=
  (forall d t, d = 0 \/ d = 1 ->
     (In t (pending d v) <->
      exists w, 1 <= w <= n /\ sd w = d /\ opening p w = t /\
                t < k /\ k <= closing p w)) /\
  (forall a, In a (arcs v) ->
     exists w, 1 <= w <= n /\ closing p w < k /\
               a = mkArc (sd w) (opening p w) (closing p w) (w - 1)).

(** The sum of a list of numbers. *)
Definition zsum (l : list Z) : Z := fold_right Z.add 0 l.

(** [a] is before [b] in the order of the ledger. *)
Definition pos_lt (a b : Positions) : Prop := pos_ltb a b = true.

(** The arrangement read from right to left: the value [v] closes where it
    opened, counted from the other end. *)
Definition reversal (n : Z) (p : Positions) : Positions :=
  map (fun v => 2 * n - 1 - opening p v) (values n).

(** What every interleaving maintains: the shared ledger is a
    rearrangement of what the workers have appended so far ([own i] for
    worker [i]), and the locals of every worker are those of its own run
    after the [cnt i] turns it has made, which are no more than the nodes
    of the tree. *)
Definition sys_inv (W n : Z) (own : nat -> Results) (cnt : nat -> nat)
    (sys : system) : Prop :=
  length (workers sys) = Z.to_nat W /\
  Permutation (shared sys) (flat_map own (seq 0 (Z.to_nat W))) /\
  forall i st, nth_error (workers sys) i = Some st ->
    turns W n (Z.of_nat i) (cnt i) (init n [])
      = Some (with_results st (own i)) /\
    (cnt i <= nodes_bound (Z.to_nat (2 * n)))%nat.

(** Membership in concatenated lists, unfolded. *)
Ltac in_app := rewrite ?in_app_iff in *; cbn [In map] in *.

(** * Verification *)

(** ** Machine integers *)

Lemma wrap_spec lo size x :
  0 < size -> wrap lo size x = (x - lo) mod size + lo.
Proof.
  intros Hs. unfold wrap.
  destruct ((lo <=? x) && (x <? lo + size)) eqn:E; [|reflexivity].
  apply andb_true_iff in E. destruct E as [E1 E2].
  apply Z.leb_le in E1. apply Z.ltb_lt in E2.
  rewrite Z.mod_small; lia.
Qed.

Lemma wrap_range lo size x : 0 < size -> lo <= wrap lo size x < lo + size.
Proof.
  intros Hs. rewrite wrap_spec by assumption.
  pose proof (Z.mod_pos_bound (x - lo) size Hs). lia.
Qed.

Lemma wrap_id lo size x : lo <= x < lo + size -> wrap lo size x = x.
Proof.
  intros H. unfold wrap.
  replace (lo <=? x) with true by (symmetry; apply Z.leb_le; lia).
  replace (x <? lo + size) with true by (symmetry; apply Z.ltb_lt; lia).
  reflexivity.
Qed.

Lemma wrap_congr lo size x : 0 < size -> (wrap lo size x) mod size = x mod size.
Proof.
  intros Hs. rewrite wrap_spec by assumption.
  rewrite <- Zplus_mod_idemp_l. rewrite Z.mod_mod by lia.
  rewrite Zplus_mod_idemp_l. f_equal. lia.
Qed.

Lemma int8_id x : -128 <= x <= 127 -> int8 x = x.
Proof. intros H. apply wrap_id. lia. Qed.

Lemma int32_id x : -2147483648 <= x < 2147483648 -> int32 x = x.
Proof. intros H. apply wrap_id. lia. Qed.

Lemma int64_id x :
  -9223372036854775808 <= x < 9223372036854775808 -> int64 x = x.
Proof. intros H. apply wrap_id. lia. Qed.

Lemma uint32_id x : 0 <= x < 4294967296 -> uint32 x = x.
Proof. intros H. apply wrap_id. lia. Qed.

Lemma uint64_id x : 0 <= x < 18446744073709551616 -> uint64 x = x.
Proof. intros H. apply wrap_id. lia. Qed.

Lemma int8_range x : -128 <= int8 x <= 127.
Proof. pose proof (wrap_range (-128) 256 x). unfold int8. lia. Qed.

Lemma uint32_neg x : -128 <= x < 0 -> uint32 x = x + 4294967296.
Proof.
  intros H. unfold uint32. rewrite wrap_spec by lia.
  rewrite Z.sub_0_r, Z.add_0_r.
  symmetry. apply Z.mod_unique with (q := -1); lia.
Qed.

(** ** Bit operations *)

Lemma pow2_pos a : 0 <= a -> 0 < 2 ^ a.
Proof. intros. apply Z.pow_pos_nonneg; lia. Qed.

Lemma pow2_le a b : 0 <= a <= b -> 2 ^ a <= 2 ^ b.
Proof. intros. apply Z.pow_le_mono_r; lia. Qed.

Lemma pow2_lt a b : 0 <= a < b -> 2 ^ a < 2 ^ b.
Proof. intros. apply Z.pow_lt_mono_r; lia. Qed.

Lemma pow2_succ a : 0 <= a -> 2 ^ (a + 1) = 2 * 2 ^ a.
Proof. intros. rewrite Z.pow_add_r by lia. lia. Qed.

Lemma land_even_odd a b : Z.land (2 * a) (2 * b + 1) = 2 * Z.land a b.
Proof.
  apply Z.bits_inj'. intros i Hi. rewrite Z.land_spec.
  destruct (Z.eq_dec i 0) as [->|Hne].
  - rewrite !Z.testbit_even_0. reflexivity.
  - replace i with (Z.succ (i - 1)) by lia.
    rewrite !Z.testbit_even_succ, Z.testbit_odd_succ, Z.land_spec by lia.
    reflexivity.
Qed.

Lemma land_odd_even a : Z.land (2 * a + 1) (2 * a) = 2 * a.
Proof.
  apply Z.bits_inj'. intros i Hi. rewrite Z.land_spec.
  destruct (Z.eq_dec i 0) as [->|Hne].
  - rewrite Z.testbit_even_0, Z.testbit_odd_0. reflexivity.
  - replace i with (Z.succ (i - 1)) by lia.
    rewrite Z.testbit_even_succ, Z.testbit_odd_succ by lia.
    apply andb_diag.
Qed.

(** [x & (x - 1)] clears the least significant set bit. *)
Lemma land_pred_low b y :
  0 <= b ->
  Z.land (2 ^ b * (2 * y + 1)) (2 ^ b * (2 * y + 1) - 1) = 2 ^ (b + 1) * y.
Proof.
  intros Hb. revert y. pattern b. apply natlike_ind; [| |exact Hb].
  - intros y. change (2 ^ 0) with 1. change (2 ^ (0 + 1)) with 2.
    rewrite Z.mul_1_l. replace (2 * y + 1 - 1) with (2 * y) by lia.
    apply land_odd_even.
  - intros c Hc IH y. unfold Z.succ.
    rewrite !pow2_succ by lia.
    replace (2 * 2 ^ c * (2 * y + 1)) with (2 * (2 ^ c * (2 * y + 1))) by lia.
    replace (2 * (2 ^ c * (2 * y + 1)) - 1)
      with (2 * (2 ^ c * (2 * y + 1) - 1) + 1) by lia.
    rewrite land_even_odd, IH. rewrite pow2_succ by lia. lia.
Qed.

Lemma ffsll_double x : 0 < x -> ffsll (2 * x) = 1 + ffsll x.
Proof. destruct x; try lia. intros _. reflexivity. Qed.

Lemma ffsll_odd y : 0 <= y -> ffsll (2 * y + 1) = 1.
Proof. destruct y; try lia; intros _; reflexivity. Qed.

(** [ffsll] finds the least significant set bit. *)
Lemma ffsll_low b y :
  0 <= b -> 0 <= y -> ffsll (2 ^ b * (2 * y + 1)) = b + 1.
Proof.
  intros Hb Hy. pattern b. apply natlike_ind; [| |exact Hb].
  - change (2 ^ 0) with 1. rewrite Z.mul_1_l. apply ffsll_odd. exact Hy.
  - intros c Hc IH. unfold Z.succ. rewrite pow2_succ by lia.
    replace (2 * 2 ^ c * (2 * y + 1)) with (2 * (2 ^ c * (2 * y + 1))) by lia.
    rewrite ffsll_double, IH; [lia|].
    pose proof (pow2_pos c Hc). nia.
Qed.

Lemma land_pow2_multiple b y : 0 <= b -> Z.land (2 ^ (b + 1) * y) (2 ^ b) = 0.
Proof.
  intros Hb. apply Z.bits_inj'. intros i Hi.
  rewrite Z.land_spec, Z.bits_0, Z.pow2_bits_eqb by lia.
  destruct (Z.eqb_spec b i) as [<-|]; [|apply andb_false_r].
  rewrite Z.mul_comm, Z.mul_pow2_bits_low by lia. reflexivity.
Qed.

(** Setting a bit below all the set bits. *)
Lemma lor_low b y :
  0 <= b -> Z.lor (2 ^ (b + 1) * y) (2 ^ b) = 2 ^ b * (2 * y + 1).
Proof.
  intros Hb.
  pose proof (Z.add_lor_land (2 ^ (b + 1) * y) (2 ^ b)) as H.
  rewrite land_pow2_multiple in H by lia.
  rewrite pow2_succ in * by lia. lia.
Qed.

Lemma shiftr_pow2 a k : 0 <= k <= a -> Z.shiftr (2 ^ a) k = 2 ^ (a - k).
Proof.
  intros H. rewrite Z.shiftr_div_pow2 by lia.
  rewrite Z.pow_sub_r by lia. reflexivity.
Qed.

Lemma land_shiftr_1 a m :
  0 <= m -> Z.land (Z.shiftr a m) 1 = Z.b2z (Z.testbit a m).
Proof.
  intros Hm. change 1 with (Z.ones 1). rewrite Z.land_ones by lia.
  change (2 ^ 1) with 2. rewrite <- Z.bit0_mod.
  rewrite Z.shiftr_spec by lia. reflexivity.
Qed.

Lemma lxor_set_bit a m :
  0 <= m -> Z.testbit a m = true -> Z.lxor a (2 ^ m) = a - 2 ^ m.
Proof.
  intros Hm Hbit.
  assert (Hl : Z.land (Z.lxor a (2 ^ m)) (2 ^ m) = 0).
  { apply Z.bits_inj'. intros i Hi.
    rewrite Z.land_spec, Z.lxor_spec, Z.bits_0, Z.pow2_bits_eqb by lia.
    destruct (Z.eqb_spec m i) as [<-|]; [|apply andb_false_r].
    rewrite Hbit. reflexivity. }
  pose proof (Z.add_nocarry_lxor _ _ Hl) as H.
  rewrite Z.lxor_assoc, Z.lxor_nilpotent, Z.lxor_0_r in H.
  generalize dependent (Z.lxor a (2 ^ m)). intros x _ H.
  generalize dependent (2 ^ m). intros. lia.
Qed.

Lemma testbit_lxor_pow2 a m i :
  0 <= m -> Z.testbit (Z.lxor a (2 ^ m)) i = xorb (Z.testbit a i) (m =? i).
Proof.
  intros Hm. rewrite Z.lxor_spec, Z.pow2_bits_eqb by lia. reflexivity.
Qed.

Lemma testbit_true_ge a m : 0 <= a -> 0 <= m -> Z.testbit a m = true -> 2 ^ m <= a.
Proof.
  intros Ha Hm Hbit.
  destruct (Z.lt_ge_cases a (2 ^ m)) as [Hlt|]; [|assumption].
  rewrite Z.testbit_eqb in Hbit by lia.
  rewrite Z.div_small in Hbit by lia. discriminate.
Qed.

Lemma lor_ones_msb a : 0 <= a -> Z.lor (2 ^ a) (2 ^ a - 1) = 2 ^ (a + 1) - 1.
Proof.
  intros Ha.
  pose proof (Z.add_lor_land (2 ^ a) (2 ^ a - 1)) as H.
  assert (Hl : Z.land (2 ^ a) (2 ^ a - 1) = 0).
  { pose proof (land_pred_low a 0 Ha) as L.
    rewrite Z.mul_0_r, Z.add_0_l, Z.mul_1_r, Z.mul_0_r in L. exact L. }
  rewrite Hl in H. rewrite pow2_succ by lia. lia.
Qed.

(** ** Number of set bits *)

Lemma popc_pos p : 0 < popc p.
Proof. induction p; cbn [popc]; lia. Qed.

Lemma popcount_nonneg x : 0 <= popcount x.
Proof. destruct x; cbn [popcount]; try lia. pose proof (popc_pos p). lia. Qed.

Lemma popcount_even a : 0 <= a -> popcount (2 * a) = popcount a.
Proof. destruct a; try lia; reflexivity. Qed.

Lemma popcount_odd a : 0 <= a -> popcount (2 * a + 1) = 1 + popcount a.
Proof. destruct a; try lia; reflexivity. Qed.

Lemma popcount_zero x : 0 <= x -> popcount x = 0 -> x = 0.
Proof.
  destruct x; try lia. cbn [popcount]. pose proof (popc_pos p). lia.
Qed.

Lemma popcount_ones a : 0 <= a -> popcount (2 ^ a - 1) = a.
Proof.
  intros Ha. pattern a. apply natlike_ind; [| |exact Ha].
  - reflexivity.
  - intros c Hc IH. unfold Z.succ. rewrite pow2_succ by lia.
    replace (2 * 2 ^ c - 1) with (2 * (2 ^ c - 1) + 1) by lia.
    rewrite popcount_odd, IH; [lia|]. pose proof (pow2_pos c Hc). lia.
Qed.

Lemma testbit_double_succ a i :
  0 <= i -> Z.testbit (2 * a) (i + 1) = Z.testbit a i.
Proof. intros. apply Z.testbit_even_succ. assumption. Qed.

(** Clearing a set bit removes one from the count. *)
Lemma popcount_clear a m :
  0 <= m -> 0 <= a -> Z.testbit a m = true ->
  popcount (a - 2 ^ m) = popcount a - 1.
Proof.
  intros Hm. revert a. pattern m. apply natlike_ind; [| |exact Hm].
  - intros a Ha Hbit. change (2 ^ 0) with 1.
    rewrite Z.bit0_odd in Hbit.
    pose proof (Z.div2_odd a) as E. rewrite Hbit in E. simpl Z.b2z in E.
    assert (Hd : 0 <= Z.div2 a) by (apply Z.div2_nonneg; lia).
    generalize dependent (Z.div2 a). intros h E Hd. subst a.
    replace (2 * h + 1 - 1) with (2 * h) by lia.
    rewrite popcount_even, popcount_odd by lia. lia.
  - intros c Hc IH a Ha Hbit.
    pose proof (Z.div2_odd a) as E.
    assert (Hd : 0 <= Z.div2 a) by (apply Z.div2_nonneg; lia).
    generalize dependent (Z.div2 a). intros h E Hd.
    generalize dependent (Z.odd a). intros b E. subst a.
    rewrite Z.testbit_succ_r in Hbit by lia.
    unfold Z.succ. rewrite pow2_succ by lia.
    pose proof (testbit_true_ge _ _ Hd Hc Hbit) as Hge.
    destruct b; simpl Z.b2z.
    + replace (2 * h + 1 - 2 * 2 ^ c) with (2 * (h - 2 ^ c) + 1) by lia.
      rewrite !popcount_odd by lia. rewrite IH by assumption. lia.
    + replace (2 * h + 0 - 2 * 2 ^ c) with (2 * (h - 2 ^ c)) by lia.
      rewrite Z.add_0_r, !popcount_even by lia. apply IH; assumption.
Qed.

(** ** Arrays *)

Lemma length_upd i v a : length (upd i v a) = length a.
Proof.
  revert i. induction a as [|x a IH]; intros [|i]; simpl; auto.
Qed.

Lemma nth_error_upd_same i v a :
  (i < length a)%nat -> nth_error (upd i v a) i = Some v.
Proof.
  revert i. induction a as [|x a IH]; intros [|i] H; simpl in *;
    try lia; auto. apply IH. lia.
Qed.

Lemma nth_error_upd_other i j v a :
  i <> j -> nth_error (upd i v a) j = nth_error a j.
Proof.
  revert i j. induction a as [|x a IH]; intros [|i] [|j] H; simpl;
    try congruence; auto.
Qed.

Lemma rd_Some a i : 0 <= i < Z.of_nat (length a) -> exists v, rd a i = Some v.
Proof.
  intros H. unfold rd.
  replace (i <? 0) with false by (symmetry; apply Z.ltb_ge; lia).
  destruct (nth_error a (Z.to_nat i)) eqn:E; [eauto|].
  apply nth_error_None in E. lia.
Qed.

Lemma rd_lt a i v : rd a i = Some v -> 0 <= i < Z.of_nat (length a).
Proof.
  unfold rd. destruct (Z.ltb_spec i 0); [discriminate|].
  intros E. assert (nth_error a (Z.to_nat i) <> None) as N by congruence.
  apply nth_error_Some in N. lia.
Qed.

Lemma wr_Some a i v :
  0 <= i < Z.of_nat (length a) -> wr a i v = Some (upd (Z.to_nat i) v a).
Proof.
  intros H. unfold wr.
  replace (0 <=? i) with true by (symmetry; apply Z.leb_le; lia).
  replace (i <? Z.of_nat (length a)) with true
    by (symmetry; apply Z.ltb_lt; lia).
  reflexivity.
Qed.

Lemma rd_upd_same a i v :
  0 <= i < Z.of_nat (length a) -> rd (upd (Z.to_nat i) v a) i = Some v.
Proof.
  intros H. unfold rd.
  replace (i <? 0) with false by (symmetry; apply Z.ltb_ge; lia).
  apply nth_error_upd_same. lia.
Qed.

Lemma rd_upd_other a i j v :
  0 <= i -> i <> j -> rd (upd (Z.to_nat i) v a) j = rd a j.
Proof.
  intros Hi Hne. unfold rd. destruct (Z.ltb_spec j 0); [reflexivity|].
  apply nth_error_upd_other. lia.
Qed.

Lemma rd_nth a i v : rd a i = Some v -> nth (Z.to_nat i) a 0 = v.
Proof.
  unfold rd. destruct (Z.ltb_spec i 0); [discriminate|].
  intros E. apply nth_error_nth. exact E.
Qed.

Lemma rd_ext a b :
  length a = length b ->
  (forall i, 0 <= i < Z.of_nat (length a) -> rd a i = rd b i) -> a = b.
Proof.
  intros Hl H. apply nth_error_ext. intros k.
  destruct (Nat.lt_ge_cases k (length a)) as [Hk|Hk].
  - specialize (H (Z.of_nat k)). unfold rd in H.
    replace (Z.of_nat k <? 0) with false in H
      by (symmetry; apply Z.ltb_ge; lia).
    rewrite Nat2Z.id in H. apply H. lia.
  - rewrite (proj2 (nth_error_None a k)) by lia.
    rewrite (proj2 (nth_error_None b k)) by lia. reflexivity.
Qed.

(** ** Encoding of the pending openings *)

Lemma desc_below_mono k k' l : desc_below k l -> k <= k' -> desc_below k' l.
Proof. destruct l; simpl; intuition lia. Qed.

Lemma desc_below_In k l t : desc_below k l -> In t l -> 0 <= t < k.
Proof.
  revert k. induction l as [|x l IH]; simpl; intros k H Hin; [tauto|].
  destruct H as [Hx Hl]. destruct Hin as [->|Hin]; [lia|].
  specialize (IH _ Hl Hin). lia.
Qed.

(** The bits of a list of slots below [k] are the bits [2 n - k] and above. *)
Lemma enc_multiple n k l :
  desc_below k l -> 0 <= k <= 2 * n ->
  exists y, 0 <= y < 2 ^ k /\ enc n l = 2 ^ (2 * n - k) * y.
Proof.
  revert k. induction l as [|t l IH]; cbn [enc desc_below]; intros k H Hk.
  - exists 0. split; [|ring]. split; [lia|]. apply pow2_pos. lia.
  - destruct H as [Ht Hl].
    destruct (IH t Hl ltac:(lia)) as (y & Hy & E).
    exists (2 ^ (k - t - 1) * (2 * y + 1)). rewrite E.
    assert (P1 : 2 ^ (2 * n - 1 - t) = 2 ^ (2 * n - k) * 2 ^ (k - t - 1)).
    { rewrite <- Z.pow_add_r by lia. f_equal. lia. }
    assert (P2 : 2 ^ (2 * n - t) = 2 ^ (2 * n - k) * 2 ^ (k - t - 1) * 2).
    { replace (2 * n - t) with ((2 * n - k) + (k - t - 1) + 1) by lia.
      rewrite !Z.pow_add_r by lia. reflexivity. }
    assert (P3 : 2 ^ k = 2 ^ (k - t - 1) * 2 * 2 ^ t).
    { replace (2 ^ k) with (2 ^ ((k - t - 1) + 1 + t)) by (f_equal; lia).
      rewrite !Z.pow_add_r by lia. reflexivity. }
    pose proof (pow2_pos (k - t - 1) ltac:(lia)).
    pose proof (pow2_pos (2 * n - k) ltac:(lia)).
    pose proof (pow2_pos t ltac:(lia)).
    generalize dependent (2 ^ (2 * n - 1 - t)).
    generalize dependent (2 ^ (2 * n - t)).
    generalize dependent (2 ^ (2 * n - k)).
    generalize dependent (2 ^ (k - t - 1)).
    generalize dependent (2 ^ k).
    generalize dependent (2 ^ t).
    intros. subst. split; [split; nia | nia].
Qed.

Lemma enc_range n k l :
  desc_below k l -> 0 <= k <= 2 * n -> 0 <= enc n l < 2 ^ (2 * n).
Proof.
  intros H Hk.
  destruct (enc_multiple n k l H Hk) as (y & Hy & E). rewrite E.
  assert (P : 2 ^ (2 * n) = 2 ^ (2 * n - k) * 2 ^ k).
  { rewrite <- Z.pow_add_r by lia. f_equal. lia. }
  pose proof (pow2_pos (2 * n - k) ltac:(lia)).
  generalize dependent (2 ^ (2 * n)).
  generalize dependent (2 ^ (2 * n - k)).
  generalize dependent (2 ^ k).
  intros. subst. nia.
Qed.

Lemma enc_open n k l :
  desc_below k l -> 0 <= k < 2 * n ->
  Z.lor (enc n l) (2 ^ (2 * n - 1 - k)) = enc n (k :: l).
Proof.
  intros H Hk.
  destruct (enc_multiple n k l H ltac:(lia)) as (y & Hy & E).
  cbn [enc]. rewrite E.
  replace (2 * n - k) with ((2 * n - 1 - k) + 1) by lia.
  rewrite lor_low by lia. rewrite pow2_succ by lia. ring.
Qed.

Lemma enc_cons_low n k t l :
  desc_below k (t :: l) -> k <= 2 * n ->
  exists y, 0 <= y /\ enc n (t :: l) = 2 ^ (2 * n - 1 - t) * (2 * y + 1) /\
            enc n l = 2 ^ (2 * n - 1 - t + 1) * y.
Proof.
  intros [Ht Hl] Hk.
  destruct (enc_multiple n t l Hl ltac:(lia)) as (y & Hy & E).
  exists y. cbn [enc]. rewrite E.
  replace (2 * n - t) with ((2 * n - 1 - t) + 1) by lia.
  rewrite pow2_succ by lia. repeat split; try lia; ring.
Qed.

Lemma enc_ffsll n k t l :
  desc_below k (t :: l) -> k <= 2 * n -> ffsll (enc n (t :: l)) = 2 * n - t.
Proof.
  intros H Hk. pose proof H as [Ht _].
  destruct (enc_cons_low n k t l H Hk) as (y & Hy & E & _).
  rewrite E, ffsll_low by lia. lia.
Qed.

Lemma enc_close n k t l :
  desc_below k (t :: l) -> k <= 2 * n ->
  Z.land (enc n (t :: l)) (enc n (t :: l) - 1) = enc n l.
Proof.
  intros H Hk. pose proof H as [Ht _].
  destruct (enc_cons_low n k t l H Hk) as (y & Hy & E & E').
  rewrite E, E'. apply land_pred_low. lia.
Qed.

Lemma enc_cons_pos n k t l :
  desc_below k (t :: l) -> k <= 2 * n -> 0 < enc n (t :: l).
Proof.
  intros H Hk. pose proof H as [Ht Hl].
  pose proof (enc_range n t l Hl ltac:(lia)).
  cbn [enc]. pose proof (pow2_pos (2 * n - 1 - t) ltac:(lia)). lia.
Qed.

(** ** The constants for [1 <= n <= kMaxN] *)

Section Exact.

Variables (W n thread_id : Z).
Hypothesis Hn : 1 <= n <= 31.

Lemma pow2_62 : 2 ^ 62 = 4611686018427387904.
Proof. reflexivity. Qed.

Lemma pow2_2n_le : 2 ^ (2 * n) <= 4611686018427387904.
Proof. rewrite <- pow2_62. apply pow2_le. lia. Qed.

Lemma pow2_n_le : 2 ^ n <= 2147483648.
Proof. change 2147483648 with (2 ^ 31). apply pow2_le. lia. Qed.

Lemma two_n_exact : two_n n = 2 * n.
Proof. reflexivity. Qed.

Lemma nn1_exact : nn1 n = 2 ^ (2 * n - 1).
Proof.
  unfold nn1, two_n, lsb. rewrite Z.shiftl_1_l.
  apply int64_id.
  pose proof (pow2_lt (2 * n - 1) (2 * n) ltac:(lia)).
  pose proof (pow2_pos (2 * n - 1) ltac:(lia)).
  pose proof pow2_2n_le. lia.
Qed.

Lemma msb_exact : msb n = 2 ^ (n - 1).
Proof.
  unfold msb, lsb. rewrite Z.shiftl_1_l. apply int64_id.
  pose proof (pow2_lt (n - 1) n ltac:(lia)).
  pose proof (pow2_pos (n - 1) ltac:(lia)).
  pose proof pow2_n_le. lia.
Qed.

Lemma root_avail_exact : navail (root_node n) = 2 ^ n - 1.
Proof.
  unfold root_node. cbn [navail]. rewrite msb_exact.
  pose proof (pow2_lt (n - 1) n ltac:(lia)).
  pose proof (pow2_pos (n - 1) ltac:(lia)).
  pose proof pow2_n_le.
  rewrite (int64_id (2 ^ (n - 1) - 1)) by lia.
  rewrite lor_ones_msb by lia.
  replace (n - 1 + 1) with n by lia. apply int32_id. lia.
Qed.

Lemma shiftr_nn1 k : 0 <= k < 2 * n -> Z.shiftr (nn1 n) k = 2 ^ (2 * n - 1 - k).
Proof. intros. rewrite nn1_exact. apply shiftr_pow2. lia. Qed.

(** [place_macro] on an open decision. *)
Lemma place_open_open k l :
  desc_below k l -> 0 <= k < 2 * n ->
  place_open n k (-1) (enc n l) = enc n (k :: l).
Proof.
  intros H Hk. unfold place_open.
  change (0 <=? -1) with false. cbv iota.
  rewrite shiftr_nn1 by lia. apply enc_open; assumption.
Qed.

(** [place_macro] on a close decision. *)
Lemma place_open_close k m t l :
  desc_below k (t :: l) -> k <= 2 * n -> 0 <= m ->
  place_open n k m (enc n (t :: l)) = enc n l.
Proof.
  intros H Hk Hm. unfold place_open.
  replace (0 <=? m) with true by (symmetry; apply Z.leb_le; lia).
  pose proof H as [Ht _].
  pose proof (enc_range n k _ H ltac:(lia)).
  pose proof pow2_2n_le.
  rewrite int64_id by lia. eapply enc_close; eassumption.
Qed.

Lemma place_avail_close m avail :
  0 <= m < n -> 0 <= avail < 2 ^ n -> Z.testbit avail m = true ->
  place_avail m avail = avail - 2 ^ m.
Proof.
  intros Hm Ha Hbit. unfold place_avail, lsb32.
  replace (0 <=? m) with true by (symmetry; apply Z.leb_le; lia).
  rewrite Z.shiftl_1_l.
  pose proof (pow2_lt m n ltac:(lia)). pose proof (pow2_pos m ltac:(lia)).
  pose proof pow2_n_le.
  pose proof (testbit_true_ge avail m ltac:(lia) ltac:(lia) Hbit).
  rewrite (int32_id (2 ^ m)) by lia.
  rewrite lxor_set_bit by (lia || assumption).
  apply int32_id. lia.
Qed.

End Exact.

(** ** Paths of the search and their views *)

Section Paths.

Variables (W n thread_id : Z).
Hypothesis Hn : 1 <= n <= 31.

Lemma view_inv_root : view_inv n (root_node n) empty_view.
Proof.
  pose proof (root_avail_exact n Hn) as Ha.
  pose proof (pow2_pos n ltac:(lia)).
  constructor; cbn [nk nnum_open nopen0 nopen1 pend0 pend1 arcs empty_view
                    root_node length map enc desc_below app Nat.add];
    try rewrite Ha; try lia; auto;
    try (intros ? []; fail); try (intros ? ? []; fail).
  - intros m Hm. split; [intros _ []|intros _].
    replace (2 ^ n - 1) with (Z.ones n) by (rewrite Z.ones_equiv; lia).
    apply Z.ones_spec_low. lia.
  - rewrite popcount_ones by lia. lia.
  - constructor.
  - split; [intros []|intros a []].
Qed.

Lemma close_child_inv k avail num_open d l f :
  desc_below k l -> 1 <= k < 2 * n ->
  In f (close_child n k avail num_open d (enc n l)) ->
  exists t l', l = t :: l' /\ f = mkFrame k (k - t - 2) d num_open /\
    0 <= k - t - 2 < n /\ Z.testbit avail (k - t - 2) = true /\
    (k - t - 2 = 0 -> k <= n).
Proof.
  intros Hl Hk Hin. unfold close_child in Hin.
  destruct l as [|t l'].
  - cbn [enc] in Hin. rewrite Z.eqb_refl in Hin. destruct Hin.
  - pose proof (enc_cons_pos n k t l' Hl ltac:(lia)) as Hpos.
    pose proof Hl as [Ht _].
    replace (enc n (t :: l') =? 0) with false in Hin
      by (symmetry; apply Z.eqb_neq; lia).
    rewrite (enc_ffsll n k) in Hin by (assumption || lia).
    unfold two_n in Hin.
    rewrite (int8_id (k - 2 * n - 2)) in Hin by lia.
    replace (k - 2 * n - 2 + (2 * n - t)) with (k - t - 2) in Hin by lia.
    rewrite (int8_id (k - t - 2)) in Hin by lia.
    destruct (uint32 (k - t - 2) <? n) eqn:E1; [|destruct Hin].
    destruct (negb (Z.land (Z.shiftr avail (k - t - 2)) 1 =? 0)) eqn:E2;
      [|destruct Hin].
    destruct (negb (k - t - 2 =? 0) || (k <=? n)) eqn:E3; [|destruct Hin].
    cbn [andb In] in Hin. destruct Hin as [<-|[]].
    apply Z.ltb_lt in E1.
    assert (Hm : 0 <= k - t - 2).
    { destruct (Z.le_gt_cases 0 (k - t - 2)); [assumption|].
      rewrite uint32_neg in E1 by lia. lia. }
    rewrite uint32_id in E1 by lia.
    exists t, l'. repeat split; try lia.
    rewrite land_shiftr_1 in E2 by lia.
    destruct (Z.testbit avail (k - t - 2)); [reflexivity|discriminate].
Qed.

(** What a decision offered at a node can be. *)
Lemma offers_cases nd v f :
  view_inv n nd v -> offers W n thread_id nd f ->
  fk f = nk nd /\ fnum_open f = nnum_open nd /\ nk nd < 2 * n /\
  (fd f = 0 \/ fd f = 1) /\
  ((fm f = -1 /\ nnum_open nd < n /\ (nk nd = 0 -> fd f = 0)) \/
   (exists t l, pending (fd f) v = t :: l /\ fm f = nk nd - t - 2 /\
      0 <= fm f < n /\ Z.testbit (navail nd) (fm f) = true /\
      (fm f = 0 -> nk nd <= n) /\ 0 < nk nd)).
Proof.
  intros I O. unfold offers in O.
  pose proof (vi_k _ _ _ I) as Hk.
  destruct (Z.eqb_spec (nk nd) 0) as [E|E].
  - subst f. cbn [first_frame fk fm fd fnum_open].
    pose proof (vi_count _ _ _ I). pose proof (vi_num _ _ _ I).
    do 4 (split; [lia|]). left. repeat split; lia.
  - destruct O as (Hleaf & _ & Hin). unfold two_n in Hleaf.
    unfold children in Hin. rewrite !in_app_iff in Hin.
    destruct Hin as [Hin|[Hin|Hin]].
    + unfold open_children in Hin.
      destruct (Z.ltb_spec (nnum_open nd) n); [|destruct Hin].
      destruct Hin as [<-|[<-|[]]]; cbn [fk fm fd fnum_open];
        do 4 (split; [lia|]); left; repeat split; lia.
    + rewrite (vi_open1 _ _ _ I) in Hin.
      apply close_child_inv in Hin; [|apply (vi_desc1 _ _ _ I)|lia].
      destruct Hin as (t & l' & El & -> & Hm & Hbit & Hd).
      cbn [fk fm fd fnum_open]. do 4 (split; [lia|]).
      right. exists t, l'. unfold pending. cbn [Z.eqb].
      repeat split; auto; lia.
    + rewrite (vi_open0 _ _ _ I) in Hin.
      apply close_child_inv in Hin; [|apply (vi_desc0 _ _ _ I)|lia].
      destruct Hin as (t & l' & El & -> & Hm & Hbit & Hd).
      cbn [fk fm fd fnum_open]. do 4 (split; [lia|]).
      right. exists t, l'. unfold pending. cbn [Z.eqb].
      repeat split; auto; lia.
Qed.

(** The node and the view after an open decision. *)
Lemma step_node_open nd v f :
  view_inv n nd v -> fk f = nk nd -> fnum_open f = nnum_open nd ->
  nk nd < 2 * n -> fm f = -1 -> nnum_open nd < n ->
  step_node n f nd =
    mkNode (nk nd + 1) (navail nd)
      (if fd f =? 0 then enc n (nk nd :: pend0 v) else enc n (pend0 v))
      (if fd f =? 0 then enc n (pend1 v) else enc n (nk nd :: pend1 v))
      (nnum_open nd + 1).
Proof.
  intros I Hk Hno Hlt Hm Hopen.
  pose proof (vi_k _ _ _ I). pose proof (vi_num _ _ _ I).
  unfold step_node, side, place_avail, place_num_open.
  rewrite Hk, Hno, Hm. change (0 <=? -1) with false. cbv iota.
  rewrite !int8_id by lia.
  rewrite (vi_open0 _ _ _ I), (vi_open1 _ _ _ I).
  destruct (fd f =? 0); cbn [Z.eqb]; cbv iota.
  - rewrite place_open_open by (try apply (vi_desc0 _ _ _ I); lia).
    reflexivity.
  - rewrite place_open_open by (try apply (vi_desc1 _ _ _ I); lia).
    reflexivity.
Qed.

Lemma step_view_open v f :
  fm f = -1 ->
  step_view f v =
    if fd f =? 0 then mkView (fk f :: pend0 v) (pend1 v) (arcs v)
    else mkView (pend0 v) (fk f :: pend1 v) (arcs v).
Proof.
  intros Hm. unfold step_view, side. rewrite Hm.
  change (0 <=? -1) with false. cbv iota.
  destruct (fd f =? 0); reflexivity.
Qed.

(** The node and the view after a close decision. *)
Lemma step_node_close nd v f t l :
  view_inv n nd v -> fk f = nk nd -> fnum_open f = nnum_open nd ->
  nk nd < 2 * n -> pending (fd f) v = t :: l -> 0 <= fm f < n ->
  Z.testbit (navail nd) (fm f) = true ->
  step_node n f nd =
    mkNode (nk nd + 1) (navail nd - 2 ^ fm f)
      (if fd f =? 0 then enc n l else enc n (pend0 v))
      (if fd f =? 0 then enc n (pend1 v) else enc n l)
      (nnum_open nd).
Proof.
  intros I Hk Hno Hlt Hp Hm Hbit.
  pose proof (vi_k _ _ _ I).
  unfold step_node, side, place_num_open.
  rewrite Hk, Hno.
  replace (0 <=? fm f) with true by (symmetry; apply Z.leb_le; lia).
  rewrite int8_id by lia.
  rewrite (place_avail_close n Hn)
    by (assumption || lia || apply (vi_avail_range _ _ _ I)).
  rewrite (vi_open0 _ _ _ I), (vi_open1 _ _ _ I).
  unfold pending in Hp.
  destruct (fd f =? 0); cbn [Z.eqb]; cbv iota; rewrite Hp.
  - rewrite (place_open_close n Hn (nk nd))
      by (try (rewrite <- Hp; apply (vi_desc0 _ _ _ I)); lia).
    reflexivity.
  - rewrite (place_open_close n Hn (nk nd))
      by (try (rewrite <- Hp; apply (vi_desc1 _ _ _ I)); lia).
    reflexivity.
Qed.

Lemma step_view_close v f t l :
  pending (fd f) v = t :: l -> 0 <= fm f ->
  step_view f v =
    if fd f =? 0
    then mkView l (pend1 v) (mkArc 0 t (fk f) (fm f) :: arcs v)
    else mkView (pend0 v) l (mkArc 1 t (fk f) (fm f) :: arcs v).
Proof.
  intros Hp Hm. unfold step_view, side. unfold pending in Hp.
  replace (0 <=? fm f) with true by (symmetry; apply Z.leb_le; lia).
  destruct (fd f =? 0); cbn [Z.eqb]; cbv iota; rewrite Hp; reflexivity.
Qed.

Lemma view_inv_open nd v f :
  view_inv n nd v -> fk f = nk nd -> fnum_open f = nnum_open nd ->
  nk nd < 2 * n -> (fd f = 0 \/ fd f = 1) -> fm f = -1 ->
  nnum_open nd < n -> (nk nd = 0 -> fd f = 0) ->
  view_inv n (step_node n f nd) (step_view f v).
Proof.
  intros I Hk Hno Hlt Hd Hm Hopen Hroot.
  rewrite (step_node_open nd v f) by assumption.
  rewrite step_view_open by assumption. rewrite Hk.
  destruct I as [Ik Inum Icount Inle Io0 Io1 Id0 Id1 Iar Iav Ipop Iarcs Ind
                 Islots Icross Iinside [If1 If2]].
  destruct Hd as [Hd|Hd]; rewrite Hd; cbn [Z.eqb]; cbv iota;
    constructor;
    cbn [nk navail nopen0 nopen1 nnum_open pend0 pend1 arcs length
         desc_below];
    try assumption; try reflexivity; try lia.
  - split; [lia|assumption].
  - eapply desc_below_mono; [eassumption|lia].
  - intros a Ha. specialize (Iarcs a Ha). lia.
  - intros t Ht. destruct (Z.eq_dec t (nk nd)) as [->|Hne].
    + left. reflexivity.
    + right. apply Islots. lia.
  - intros a t Ha Ht. unfold pending in *. cbn [pend0 pend1] in *.
    specialize (Iinside a t Ha). specialize (Iarcs a Ha).
    destruct (aside a =? 0); [|auto].
    destruct Ht as [<-|Ht]; [lia|auto].
  - split; assumption.
  - eapply desc_below_mono; [eassumption|lia].
  - split; [lia|assumption].
  - intros a Ha. specialize (Iarcs a Ha). lia.
  - intros t Ht. destruct (Z.eq_dec t (nk nd)) as [->|Hne].
    + in_app. right. left. left. reflexivity.
    + specialize (Islots t ltac:(lia)). in_app. tauto.
  - intros a t Ha Ht. unfold pending in *. cbn [pend0 pend1] in *.
    specialize (Iinside a t Ha). specialize (Iarcs a Ha).
    destruct (aside a =? 0); [auto|].
    destruct Ht as [<-|Ht]; [lia|auto].
  - split; [|assumption]. intros [E|E]; [|auto].
    specialize (Hroot E). lia.
Qed.

Lemma testbit_clear avail m i :
  0 <= m -> Z.testbit avail m = true ->
  Z.testbit (avail - 2 ^ m) i = xorb (Z.testbit avail i) (m =? i).
Proof.
  intros Hm Hbit. rewrite <- lxor_set_bit by assumption.
  apply testbit_lxor_pow2. assumption.
Qed.

Lemma view_inv_close nd v f t l :
  view_inv n nd v -> fk f = nk nd -> fnum_open f = nnum_open nd ->
  nk nd < 2 * n -> (fd f = 0 \/ fd f = 1) ->
  pending (fd f) v = t :: l -> fm f = nk nd - t - 2 -> 0 <= fm f < n ->
  Z.testbit (navail nd) (fm f) = true ->
  view_inv n (step_node n f nd) (step_view f v).
Proof.
  intros I Hk Hno Hlt Hd Hp Hm Hmr Hbit.
  rewrite (step_node_close nd v f t l) by assumption.
  rewrite (step_view_close v f t l) by (assumption || lia). rewrite Hk.
  destruct I as [Ik Inum Icount Inle Io0 Io1 Id0 Id1 Iar Iav Ipop Iarcs Ind
                 Islots Icross Iinside [If1 If2]].
  pose proof (testbit_true_ge (navail nd) (fm f) ltac:(lia) ltac:(lia) Hbit) as Hge.
  pose proof (pow2_pos (fm f) ltac:(lia)) as Hpos.
  assert (Hfresh : ~ In (fm f) (map am (arcs v))) by (apply Iav; assumption).
  unfold pending in Hp.
  destruct Hd as [Hd|Hd]; rewrite Hd in Hp |- *; cbn [Z.eqb] in Hp |- *;
    cbv iota in Hp |- *;
    rewrite Hp in *; cbn [desc_below length] in *;
    constructor;
    cbn [nk navail nopen0 nopen1 nnum_open pend0 pend1 arcs length
         desc_below map];
    try assumption; try reflexivity; try lia.
  - eapply desc_below_mono; [apply Id0|lia].
  - eapply desc_below_mono; [eassumption|lia].
  - intros i Hi. rewrite testbit_clear by (assumption || lia).
    cbn [In]. specialize (Iav i Hi).
    destruct (Z.eqb_spec (fm f) i) as [E|E].
    + rewrite <- E, Hbit. cbn. split; [discriminate|tauto].
    + rewrite xorb_false_r. tauto.
  - rewrite popcount_clear by (assumption || lia). lia.
  - intros a [<-|Ha]; cbn [aopen aclose am aside].
    + lia.
    + specialize (Iarcs a Ha). lia.
  - constructor; assumption.
  - intros s Hs. destruct (Z.eq_dec s (nk nd)) as [->|Hne].
    + in_app. right. right. right. left. reflexivity.
    + specialize (Islots s ltac:(lia)). in_app.
      destruct Islots as [[<-|H]|H]; tauto.
  - intros a b [<-|Ha] [<-|Hb]; cbn [aopen aclose aside]; unfold crossing;
      intros Es.
    + lia.
    + specialize (Iarcs b Hb). lia.
    + specialize (Iinside a t Ha). unfold pending in Iinside.
      rewrite Es in Iinside. cbn [Z.eqb] in Iinside. rewrite Hp in Iinside.
      specialize (Iinside (or_introl eq_refl)). lia.
    + apply Icross; assumption.
  - intros a s [<-|Ha]; unfold pending; cbn [aside aopen aclose Z.eqb pend0 pend1].
    + intros Hs. destruct Id0 as [_ Hl].
      pose proof (desc_below_In _ _ _ Hl Hs). lia.
    + intros Hs. apply (Iinside a s Ha). unfold pending. rewrite Hp.
      destruct (aside a =? 0); [right|]; assumption.
  - split; [assumption|]. intros a [<-|Ha]; cbn [aside]; auto.
  - eapply desc_below_mono; [eassumption|lia].
  - eapply desc_below_mono; [apply Id1|lia].
  - intros i Hi. rewrite testbit_clear by (assumption || lia).
    cbn [In]. specialize (Iav i Hi).
    destruct (Z.eqb_spec (fm f) i) as [E|E].
    + rewrite <- E, Hbit. cbn. split; [discriminate|tauto].
    + rewrite xorb_false_r. tauto.
  - rewrite popcount_clear by (assumption || lia). lia.
  - intros a [<-|Ha]; cbn [aopen aclose am aside].
    + lia.
    + specialize (Iarcs a Ha). lia.
  - constructor; assumption.
  - intros s Hs. destruct (Z.eq_dec s (nk nd)) as [->|Hne].
    + in_app. right. right. right. left. reflexivity.
    + specialize (Islots s ltac:(lia)). in_app.
      destruct Islots as [H|[[<-|H]|H]]; tauto.
  - intros a b [<-|Ha] [<-|Hb]; cbn [aopen aclose aside]; unfold crossing;
      intros Es.
    + lia.
    + specialize (Iarcs b Hb). lia.
    + specialize (Iinside a t Ha). unfold pending in Iinside.
      rewrite Es in Iinside. cbn [Z.eqb] in Iinside. rewrite Hp in Iinside.
      specialize (Iinside (or_introl eq_refl)). lia.
    + apply Icross; assumption.
  - intros a s [<-|Ha]; unfold pending; cbn [aside aopen aclose Z.eqb pend0 pend1].
    + intros Hs. destruct Id1 as [_ Hl].
      pose proof (desc_below_In _ _ _ Hl Hs). lia.
    + intros Hs. apply (Iinside a s Ha). unfold pending. rewrite Hp.
      destruct (aside a =? 0); [|right]; assumption.
  - split; [intros H; apply If1; right; exact H|].
    intros a [<-|Ha]; cbn [aside aopen]; auto.
    intros E. exfalso. apply If1. left. exact E.
Qed.

(** A decision offered at a node of a path keeps the invariant. *)
Lemma view_inv_step nd v f :
  view_inv n nd v -> offers W n thread_id nd f ->
  view_inv n (step_node n f nd) (step_view f v).
Proof.
  intros I O.
  destruct (offers_cases nd v f I O)
    as (Hk & Hno & Hlt & Hd & [(Hm & Hopen & Hroot)|
                               (t & l & Hp & Hm & Hmr & Hbit & _)]).
  - apply view_inv_open; assumption.
  - eapply view_inv_close; eassumption.
Qed.

Lemma view_of_snoc path f : view_of (path ++ [f]) = step_view f (view_of path).
Proof. unfold view_of. rewrite fold_left_app. reflexivity. Qed.

Lemma on_path_view path nd :
  on_path W n thread_id path nd -> view_inv n nd (view_of path).
Proof.
  induction 1 as [|path nd f Hp IH O].
  - apply view_inv_root.
  - rewrite view_of_snoc. apply view_inv_step; assumption.
Qed.

End Paths.

(** ** One turn of the loop *)

Section Step.

Variables (W n thread_id : Z).
Hypothesis Hn : 1 <= n <= 31.

Lemma push_spec f stk :
  4 * Z.of_nat (length stk) + 4 <= 24 * n -> push n f stk = Some (f :: stk).
Proof.
  intros H. unfold push.
  replace (4 * Z.of_nat (length stk) + 4 <=? 24 * n) with true
    by (symmetry; apply Z.leb_le; lia).
  reflexivity.
Qed.

Lemma close_child_length k avail num_open d od :
  (length (close_child n k avail num_open d od) <= 1)%nat.
Proof.
  unfold close_child. destruct (od =? 0); [simpl; lia|].
  match goal with |- context [if ?c then _ else _] => destruct c end;
    simpl; lia.
Qed.

Lemma try_close_spec k avail num_open d od stk :
  4 * Z.of_nat (length stk) + 4 <= 24 * n ->
  try_close n k avail num_open (int8 (k - two_n n - 2)) d od stk
  = Some (close_child n k avail num_open d od ++ stk).
Proof.
  intros H. unfold try_close, close_child.
  destruct (od =? 0); [reflexivity|].
  destruct (uint32 _ <? n); [|reflexivity].
  destruct (negb (Z.land _ 1 =? 0)); [|reflexivity].
  destruct (negb _ || _); [|reflexivity].
  cbn [andb app]. apply push_spec. exact H.
Qed.

Lemma children_length nd : (length (children n nd) <= 4)%nat.
Proof.
  unfold children. rewrite !length_app.
  pose proof (close_child_length (nk nd) (navail nd) (nnum_open nd) 1
                (nopen1 nd)).
  pose proof (close_child_length (nk nd) (navail nd) (nnum_open nd) 0
                (nopen0 nd)).
  unfold open_children. destruct (nnum_open nd <? n); simpl length; lia.
Qed.

Lemma push_children_spec k avail o0 o1 num_open stk :
  4 * Z.of_nat (length stk) + 16 <= 24 * n ->
  push_children n k avail o0 o1 num_open stk
  = Some (children n (mkNode k avail o0 o1 num_open) ++ stk).
Proof.
  intros H. unfold push_children, children.
  cbn [nk navail nopen0 nopen1 nnum_open].
  pose proof (close_child_length k avail num_open 0 o0) as L0.
  pose proof (close_child_length k avail num_open 1 o1) as L1.
  rewrite try_close_spec by lia.
  rewrite try_close_spec by (rewrite length_app; lia).
  unfold open_children. destruct (num_open <? n).
  - rewrite push_spec by (rewrite !length_app; lia).
    rewrite push_spec by (cbn [length]; rewrite !length_app; lia).
    rewrite <- !app_assoc. reflexivity.
  - rewrite <- !app_assoc. reflexivity.
Qed.

(** Under the conditions the invariant provides, the checked step is the
    unchecked one. *)
Lemma dfs_body_spec st f rest nd :
  Z.of_nat (length (availability st)) = 2 * n + 1 ->
  Z.of_nat (length (open st)) = 4 * n + 2 ->
  Z.of_nat (length (pos st)) = n ->
  at_level st nd -> nk nd = fk f -> 0 <= fk f < 2 * n -> fm f < n ->
  (fk f + 1 <> 2 * n -> Z.of_nat (length rest) <= 6 * n - 4) ->
  dfs_body W n thread_id st f rest
  = Some (step_state W n thread_id st f rest nd).
Proof.
  intros La Lo Lp (Ra & R0 & R1) Hk Hkr Hm Hrest.
  rewrite Hk in Ra, R0, R1.
  unfold dfs_body, step_state.
  replace (2 * fk f + 2 - 2) with (2 * fk f) by lia.
  rewrite R0. rewrite wr_Some by lia.
  replace (2 * fk f + 2 - 1) with (2 * fk f + 1) by lia.
  rewrite rd_upd_other by lia. rewrite R1.
  rewrite wr_Some by (rewrite length_upd; lia).
  rewrite Ra.
  set (open2 := upd (Z.to_nat (2 * fk f + 2 + 1)) (nopen1 nd)
                  (upd (Z.to_nat (2 * fk f + 2)) (nopen0 nd) (open st))).
  assert (L2 : Z.of_nat (length open2) = 4 * n + 2)
    by (unfold open2; rewrite !length_upd; lia).
  assert (E0 : rd open2 (2 * fk f + 2) = Some (nopen0 nd)).
  { unfold open2. rewrite rd_upd_other by lia.
    apply rd_upd_same. lia. }
  assert (E1 : rd open2 (2 * fk f + 2 + 1) = Some (nopen1 nd)).
  { unfold open2. apply rd_upd_same. rewrite length_upd. lia. }
  assert (Ek : int8 (fk f + 1) = fk f + 1) by (apply int8_id; lia).
  replace (2 * fk f + 3) with (2 * fk f + 2 + 1) by lia.
  fold open2.
  unfold step_node, side, place_macro, place_avail, place_open,
    place_num_open, place_pos.
  cbn [nk navail nopen0 nopen1 nnum_open].
  rewrite Ek.
  destruct (fd f =? 0); cbn [Z.eqb]; cbv iota;
    rewrite ?Z.add_0_r, ?E0, ?E1;
    (destruct (Z.leb_spec 0 (fm f)) as [Hm0|Hm0];
     [rewrite wr_Some by lia|]);
    rewrite wr_Some by lia;
    rewrite wr_Some by lia;
    (destruct (Z.eqb_spec (fk f + 1) (two_n n)) as [|Hleaf];
     [reflexivity|unfold two_n in Hleaf; specialize (Hrest Hleaf)]);
    rewrite ?rd_upd_same by lia;
    rewrite ?(rd_upd_other open2) by lia;
    rewrite ?rd_upd_same by lia;
    rewrite ?E0, ?E1;
    unfold abandoned; cbn [nk navail nopen0 nopen1 nnum_open];
    (match goal with |- context [not_mine ?a ?b ?c ?d ?e ?x ?y] =>
       destruct (not_mine a b c d e x y) end; [reflexivity|]);
    rewrite push_children_spec by lia; reflexivity.
Qed.

(** The cells of the new node, and of the nodes above it, after a turn. *)
Lemma at_level_step st f rest nd :
  Z.of_nat (length (availability st)) = 2 * n + 1 ->
  Z.of_nat (length (open st)) = 4 * n + 2 ->
  0 <= fk f < 2 * n ->
  at_level (step_state W n thread_id st f rest nd) (step_node n f nd).
Proof.
  intros La Lo Hk.
  assert (Ek : int8 (fk f + 1) = fk f + 1) by (apply int8_id; lia).
  unfold at_level, step_state, step_node.
  cbn [availability open nk navail nopen0 nopen1]. rewrite Ek.
  replace (2 * (fk f + 1)) with (2 * fk f + 2) by lia.
  replace (2 * fk f + 3) with (2 * fk f + 2 + 1) by lia.
  split; [apply rd_upd_same; lia|].
  unfold side. destruct (fd f =? 0); cbn [Z.eqb]; cbv iota;
    rewrite ?Z.add_0_r.
  - split; [apply rd_upd_same; rewrite !length_upd; lia|].
    rewrite rd_upd_other by lia. apply rd_upd_same.
    rewrite !length_upd. lia.
  - split; [|apply rd_upd_same; rewrite !length_upd; lia].
    rewrite !rd_upd_other by lia. apply rd_upd_same. lia.
Qed.

Lemma at_level_keep st f rest nd nd' :
  0 <= nk nd' <= fk f -> at_level st nd' ->
  at_level (step_state W n thread_id st f rest nd) nd'.
Proof.
  intros Hk (Ra & R0 & R1).
  unfold at_level, step_state. cbn [availability open].
  unfold side. destruct (fd f =? 0);
    rewrite !rd_upd_other by lia; auto.
Qed.

(** Properties of a decision offered on a path. *)
Lemma offers_facts nd v f :
  view_inv n nd v -> offers W n thread_id nd f ->
  fk f = nk nd /\ 0 <= fk f < 2 * n /\ fm f < n /\
  nk (step_node n f nd) = nk nd + 1.
Proof.
  intros I O. pose proof (vi_k _ _ _ I).
  destruct (offers_cases W n thread_id Hn nd v f I O)
    as (Hk & Hno & Hlt & Hd & Hc).
  assert (fm f < n) by (destruct Hc as [?|(t & l & ?)]; lia).
  repeat split; try lia.
  unfold step_node. cbn [nk]. rewrite Hk. apply int8_id. lia.
Qed.

Lemma on_path_length path nd :
  on_path W n thread_id path nd -> Z.of_nat (length path) = nk nd.
Proof.
  induction 1 as [|path nd f Hp IH O]; [reflexivity|].
  pose proof (on_path_view W n thread_id Hn _ _ Hp) as I.
  destruct (offers_facts _ _ _ I O) as (_ & _ & _ & E).
  rewrite E, length_app. cbn [length]. lia.
Qed.

Lemma children_fk nd c : In c (children n nd) -> fk c = nk nd.
Proof.
  clear Hn. unfold children, open_children, close_child. rewrite !in_app_iff.
  intros [H|[H|H]];
    repeat match type of H with
           | In _ (if ?c then _ else _) => destruct c
           end;
    cbn [In] in H; intuition (subst; reflexivity).
Qed.

(** The pairs of a path stay when the path goes on. *)
Lemma arcs_step f v a : In a (arcs v) -> In a (arcs (step_view f v)).
Proof.
  intros H. unfold step_view.
  destruct (0 <=? fm f), (side f =? 0);
    try destruct (pend0 v); try destruct (pend1 v);
    cbn [arcs In]; auto.
Qed.

Lemma arcs_fold q v a :
  In a (arcs v) -> In a (arcs (fold_left (fun v f => step_view f v) q v)).
Proof.
  revert v. induction q as [|f q IH]; intros v H; cbn [fold_left]; auto.
  apply IH. apply arcs_step. exact H.
Qed.

Lemma arcs_firstn j path a :
  In a (arcs (view_of (firstn j path))) -> In a (arcs (view_of path)).
Proof.
  intros H. rewrite <- (firstn_skipn j path) at 1.
  unfold view_of in *. rewrite fold_left_app. apply arcs_fold. exact H.
Qed.

(** [pos] after a turn records the pairs of the longer path. *)
Lemma records_step nd v f p :
  view_inv n nd v -> offers W n thread_id nd f ->
  Z.of_nat (length p) = n -> records v p ->
  records (step_view f v) (place_pos (fk f) (fm f) p).
Proof.
  intros I O Lp R.
  destruct (offers_cases W n thread_id Hn nd v f I O)
    as (Hk & Hno & Hlt & Hd & [(Hm & _)|(t & l & Hpd & Hm & Hmr & Hbit & _)]).
  - rewrite step_view_open by assumption. unfold place_pos. rewrite Hm.
    change (0 <=? -1) with false. cbv iota.
    destruct (fd f =? 0); exact R.
  - rewrite (step_view_close v f t l) by (assumption || lia).
    unfold place_pos.
    replace (0 <=? fm f) with true by (symmetry; apply Z.leb_le; lia).
    assert (Hfresh : ~ In (fm f) (map am (arcs v)))
      by (apply (vi_avail _ _ _ I); assumption).
    assert (Hr : forall a, a = mkArc (if fd f =? 0 then 0 else 1) t (fk f) (fm f)
                           \/ In a (arcs v) ->
                 rd (upd (Z.to_nat (fm f)) (fk f) p) (am a) = Some (aclose a)).
    { intros a [->|Ha]; cbn [am aclose].
      - apply rd_upd_same. lia.
      - rewrite rd_upd_other; [apply R; exact Ha|lia|].
        intros E. apply Hfresh. rewrite E. apply in_map. exact Ha. }
    destruct (fd f =? 0); intros a Ha; cbn [arcs In] in Ha; apply Hr;
      destruct Ha as [<-|Ha]; auto.
Qed.

Lemma shape_app cs rest k1 :
  (forall c, In c cs -> fk c = k1) ->
  Z.of_nat (length (cs ++ rest)) <= 3 * k1 + 1 ->
  (forall g, In g rest -> fk g <= k1) ->
  shape rest -> shape (cs ++ rest).
Proof.
  induction cs as [|c cs IH]; intros Hc Hl Hr Hs; [exact Hs|].
  cbn [app shape length] in *.
  rewrite (Hc c (or_introl eq_refl)).
  split; [lia|]. split.
  - intros g Hg. apply in_app_iff in Hg. destruct Hg as [Hg|Hg].
    + rewrite (Hc g (or_intror Hg)). lia.
    + auto.
  - apply IH; [intros c' Hc'; apply Hc; right; exact Hc'|lia|exact Hr|exact Hs].
Qed.

Lemma length_place_pos k m p : length (place_pos k m p) = length p.
Proof. unfold place_pos. destruct (0 <=? m); [apply length_upd|reflexivity]. Qed.

Lemma firstn_snoc_short (i : nat) (l : list frame) f :
  (i <= length l)%nat -> firstn i (l ++ [f]) = firstn i l.
Proof.
  intros H. rewrite firstn_app.
  replace (i - length l)%nat with 0%nat by lia.
  cbn [firstn]. apply app_nil_r.
Qed.

(** One turn of the loop from a state that satisfies the invariant: the
    checked step succeeds, is the step on the node of the popped frame, and
    keeps the invariant. *)
Lemma loop_inv_turn ledger st f rest :
  loop_inv W n thread_id ledger st -> stack st = f :: rest ->
  exists path nd,
    on_path W n thread_id path nd /\ at_level st nd /\
    offers W n thread_id nd f /\
    dfs_step W n thread_id st = Some (step_state W n thread_id st f rest nd) /\
    loop_inv W n thread_id ledger (step_state W n thread_id st f rest nd).
Proof.
  intros (La & Lo & Lp & Hshape &
          (path & ndp & Hpath & Hrec & Hframes) &
          (found & Hres & Hfound)) Hstk.
  rewrite Hstk in Hshape, Hframes.
  destruct (Hframes f (or_introl eq_refl)) as (nd & Hnd & Hat & Hoff).
  pose proof (on_path_view W n thread_id Hn _ _ Hnd) as I.
  destruct (offers_facts nd _ f I Hoff) as (Hk & Hkr & Hm & Hnk1).
  pose proof (on_path_length _ _ Hnd) as Hlen.
  cbn [shape] in Hshape. destruct Hshape as (Hsl & Hlev & Hshr).
  set (pre := firstn (Z.to_nat (fk f)) path) in *.
  exists pre, nd.
  split; [exact Hnd|]. split; [exact Hat|]. split; [exact Hoff|].
  split.
  { unfold dfs_step. rewrite Hstk. apply dfs_body_spec; auto; lia. }
  assert (Hp1 : on_path W n thread_id (pre ++ [f]) (step_node n f nd))
    by (constructor; assumption).
  assert (Hrec1 : records (view_of (pre ++ [f]))
                    (place_pos (fk f) (fm f) (pos st))).
  { rewrite view_of_snoc. eapply records_step; eauto.
    intros a Ha. apply Hrec. eapply arcs_firstn. exact Ha. }
  assert (Hin : forall g,
             In g (stack (step_state W n thread_id st f rest nd)) ->
             In g rest \/
             (nk (step_node n f nd) <> two_n n /\
              abandoned W n thread_id (step_node n f nd) = false /\
              In g (children n (step_node n f nd)))).
  { intros g. unfold step_state. cbn [stack].
    destruct (Z.eqb_spec (nk (step_node n f nd)) (two_n n)); [auto|].
    destruct (abandoned W n thread_id (step_node n f nd)) eqn:Eab; [auto|].
    rewrite in_app_iff. intros [Hg|Hg]; auto. }
  unfold loop_inv. repeat apply conj.
  - unfold step_state. cbn [availability]. rewrite length_upd. exact La.
  - unfold step_state. cbn [open]. rewrite !length_upd. exact Lo.
  - unfold step_state. cbn [pos]. rewrite length_place_pos. exact Lp.
  - unfold step_state. cbn [stack].
    destruct (nk (step_node n f nd) =? two_n n); [exact Hshr|].
    destruct (abandoned W n thread_id (step_node n f nd)); [exact Hshr|].
    apply shape_app with (k1 := fk f + 1); auto.
    + intros c Hc. rewrite (children_fk _ _ Hc). lia.
    + rewrite length_app.
      pose proof (children_length (step_node n f nd)). lia.
    + intros g Hg. specialize (Hlev g Hg). lia.
  - exists (pre ++ [f]), (step_node n f nd).
    split; [exact Hp1|]. split; [exact Hrec1|].
    intros g Hg. apply Hin in Hg. destruct Hg as [Hg|(Hleaf & Hab & Hg)].
    + destruct (Hframes g (or_intror Hg)) as (ndg & Hpg & Hatg & Hog).
      pose proof (on_path_view W n thread_id Hn _ _ Hpg) as Ig.
      destruct (offers_facts ndg _ g Ig Hog) as (Hkg & Hkrg & _ & _).
      specialize (Hlev g Hg).
      exists ndg. split; [|split; [|exact Hog]].
      * rewrite firstn_snoc_short by lia.
        unfold pre. rewrite firstn_firstn.
        replace (Nat.min (Z.to_nat (fk g)) (Z.to_nat (fk f)))
          with (Z.to_nat (fk g)) by lia.
        exact Hpg.
      * apply at_level_keep; [lia|exact Hatg].
    + exists (step_node n f nd). split; [|split].
      * rewrite firstn_all2; [exact Hp1|].
        rewrite (children_fk _ _ Hg), length_app. cbn [length]. lia.
      * apply at_level_step; assumption.
      * unfold offers.
        replace (nk (step_node n f nd) =? 0) with false
          by (symmetry; apply Z.eqb_neq; lia).
        auto.
  - unfold step_state. cbn [results].
    destruct (Z.eqb_spec (nk (step_node n f nd)) (two_n n)) as [E|E].
    + exists (found ++ [place_pos (fk f) (fm f) (pos st)]).
      rewrite Hres, app_assoc. split; [reflexivity|].
      intros p Hp. apply in_app_iff in Hp. destruct Hp as [Hp|[<-|[]]]; auto.
      exists (pre ++ [f]), (step_node n f nd).
      rewrite length_place_pos. auto.
    + exists found. auto.
Qed.

Lemma loop_inv_init ledger : loop_inv W n thread_id ledger (init n ledger).
Proof.
  unfold loop_inv, init.
  cbn [availability open pos stack results shape length fk].
  rewrite !repeat_length.
  split; [lia|]. split; [lia|]. split; [lia|].
  split; [repeat split; [lia|intros g []]|].
  split.
  - exists [], (root_node n). split; [constructor|]. split.
    + intros a [].
    + intros f [<-|[]]. exists (root_node n).
      cbn [fk first_frame firstn Z.to_nat]. split; [constructor|]. split.
      * unfold at_level, root_node. cbn [nk navail nopen0 nopen1].
        replace (Z.to_nat (4 * n + 2))
          with (S (S (Z.to_nat (4 * n)))) by lia.
        repeat split; reflexivity.
      * unfold offers. reflexivity.
  - exists []. rewrite app_nil_r. split; [reflexivity|]. intros p [].
Qed.

(** The invariant holds in every state the loop goes through. *)
Lemma reachable_inv st :
  reachable W n thread_id st ->
  exists ledger, loop_inv W n thread_id ledger st.
Proof.
  induction 1 as [ledger|st st1 Hr [ledger IH] Hs].
  - exists ledger. apply loop_inv_init.
  - exists ledger. unfold dfs_step in Hs.
    destruct (stack st) as [|f rest] eqn:Hstk.
    + inversion Hs. subst st1. exact IH.
    + destruct (loop_inv_turn ledger st f rest IH Hstk)
        as (path & nd & _ & _ & _ & Hs' & Hinv).
      unfold dfs_step in Hs'. rewrite Hstk in Hs'.
      rewrite Hs' in Hs. inversion Hs. subst st1. exact Hinv.
Qed.

End Step.

(** ** The loop explores the decision tree *)

Lemma nodes_bound_pow d : (3 * nodes_bound d + 1 <= 2 ^ (2 * d))%nat.
Proof.
  induction d as [|d IH]; [simpl; lia|].
  replace (2 * S d)%nat with (S (S (2 * d))) by lia.
  cbn [nodes_bound]. rewrite !Nat.pow_succ_r'. lia.
Qed.

Section BigStep.

Variables (W n thread_id : Z).
Hypothesis Hn : 1 <= n <= 31.

Lemma turns_app j1 j2 st :
  turns W n thread_id (j1 + j2) st
  = (st1 <- turns W n thread_id j1 st ;; turns W n thread_id j2 st1).
Proof.
  revert st. induction j1 as [|j1 IH]; intros st; cbn [turns Nat.add].
  - reflexivity.
  - destruct (dfs_step W n thread_id st); [apply IH|reflexivity].
Qed.

Lemma turns_finished j st :
  finished st = true -> turns W n thread_id j st = Some st.
Proof.
  intros H. induction j as [|j IH]; [reflexivity|].
  cbn [turns]. unfold dfs_step, finished in *.
  destruct (stack st); [exact IH|discriminate].
Qed.

Lemma dfs_loop_turns F st :
  dfs_loop W n thread_id F st = turns W n thread_id (2 ^ F) st.
Proof.
  revert st. induction F as [|F IH]; intros st.
  - cbn [dfs_loop Nat.pow turns].
    destruct (dfs_step W n thread_id st); reflexivity.
  - cbn [dfs_loop]. rewrite Nat.pow_succ_r'.
    replace (2 * 2 ^ F)%nat with (2 ^ F + 2 ^ F)%nat by lia.
    rewrite turns_app, IH.
    destruct (turns W n thread_id (2 ^ F) st) as [st1|]; [|reflexivity].
    destruct (finished st1) eqn:E; [|apply IH].
    symmetry. apply turns_finished. exact E.
Qed.

Lemma turns_more j j' st st' :
  turns W n thread_id j st = Some st' -> finished st' = true ->
  (j <= j')%nat -> turns W n thread_id j' st = Some st'.
Proof.
  intros H Hf Hle. replace j' with (j + (j' - j))%nat by lia.
  rewrite turns_app, H. apply turns_finished. exact Hf.
Qed.

(** Nodes with the same words behave alike. *)
Lemma step_node_words f nd nd' :
  navail nd = navail nd' -> nopen0 nd = nopen0 nd' ->
  nopen1 nd = nopen1 nd' -> step_node n f nd = step_node n f nd'.
Proof. intros E1 E2 E3. unfold step_node. rewrite E1, E2, E3. reflexivity. Qed.

Lemma at_level_words st nd nd' :
  at_level st nd -> at_level st nd' -> nk nd = nk nd' ->
  navail nd = navail nd' /\ nopen0 nd = nopen0 nd' /\ nopen1 nd = nopen1 nd'.
Proof.
  intros (A & B & C) (A' & B' & C') E. rewrite E in A, B, C.
  rewrite A in A'. rewrite B in B'. rewrite C in C'.
  inversion A'. inversion B'. inversion C'. auto.
Qed.

(** The availability word only loses bits along a path. *)
Lemma avail_step nd v f m :
  view_inv n nd v -> offers W n thread_id nd f -> 0 <= m ->
  Z.testbit (navail nd) m = false ->
  Z.testbit (navail (step_node n f nd)) m = false /\ m <> fm f.
Proof.
  intros I O Hm0 Hbit.
  destruct (offers_cases W n thread_id Hn nd v f I O)
    as (Hk & Hno & Hlt & Hd & [(Hm & Ho & _)|(t & l & Hpd & Hm & Hmr & Hb & _)]).
  - rewrite (step_node_open n Hn nd v f) by assumption. cbn [navail].
    split; [exact Hbit|lia].
  - rewrite (step_node_close n Hn nd v f t l) by assumption. cbn [navail].
    assert (m <> fm f) by (intros ->; congruence).
    split; [|assumption].
    rewrite testbit_clear by (assumption || lia). rewrite Hbit.
    destruct (Z.eqb_spec (fm f) m); [congruence|reflexivity].
Qed.

Lemma agree_step nd v f ps p :
  view_inv n nd v -> offers W n thread_id nd f ->
  Z.of_nat (length ps) = n ->
  agree n (navail nd) ps p ->
  agree n (navail (step_node n f nd))
    (place_pos (fk f) (fm f) ps) (place_pos (fk f) (fm f) p).
Proof.
  intros I O Lp (Hl & Ha).
  destruct (offers_cases W n thread_id Hn nd v f I O)
    as (Hk & Hno & Hlt & Hd & [(Hm & Ho & _)|(t & l & Hpd & Hm & Hmr & Hb & _)]).
  - rewrite (step_node_open n Hn nd v f) by assumption. cbn [navail].
    unfold place_pos. rewrite Hm. change (0 <=? -1) with false. cbv iota.
    split; assumption.
  - rewrite (step_node_close n Hn nd v f t l) by assumption. cbn [navail].
    unfold place_pos.
    replace (0 <=? fm f) with true by (symmetry; apply Z.leb_le; lia).
    split; [rewrite !length_upd; exact Hl|].
    intros m Hmm Hbit.
    rewrite testbit_clear in Hbit by (assumption || lia).
    destruct (Z.eqb_spec (fm f) m) as [<-|Hne].
    + rewrite !rd_upd_same by lia. reflexivity.
    + rewrite !rd_upd_other by lia. apply Ha; [lia|].
      rewrite xorb_false_r in Hbit. exact Hbit.
Qed.

Lemma agree_all ps p :
  Z.of_nat (length ps) = n -> agree n 0 ps p -> ps = p.
Proof.
  intros Lp (Hl & Ha). apply rd_ext; [exact Hl|].
  intros i Hi. apply Ha; [lia|]. apply Z.bits_0.
Qed.

(** A node at depth [2 n] has every value placed and no pending opening. *)
Lemma leaf_node nd v :
  view_inv n nd v -> nk nd = 2 * n ->
  navail nd = 0 /\ nopen0 nd = 0 /\ nopen1 nd = 0 /\
  pend0 v = [] /\ pend1 v = [] /\ Z.of_nat (length (arcs v)) = n /\
  nnum_open nd = n.
Proof.
  intros I Hk.
  pose proof (vi_num _ _ _ I) as H1. pose proof (vi_count _ _ _ I) as H2.
  pose proof (vi_num_le _ _ _ I) as H3.
  pose proof (vi_popcount _ _ _ I) as H4.
  pose proof (popcount_nonneg (navail nd)) as H5.
  pose proof (vi_avail_range _ _ _ I) as H6.
  assert (Ha : Z.of_nat (length (arcs v)) = n) by lia.
  assert (Hp0 : pend0 v = []) by (destruct (pend0 v); [reflexivity|simpl in H1; lia]).
  assert (Hp1 : pend1 v = []) by (destruct (pend1 v); [reflexivity|simpl in H1; lia]).
  rewrite (vi_open0 _ _ _ I), (vi_open1 _ _ _ I), Hp0, Hp1.
  repeat split; auto; try lia.
  apply popcount_zero; lia.
Qed.

Lemma stable_refl K avail st : stable n K avail st st.
Proof. split; auto. Qed.

Lemma stable_trans K K' avail avail' st st1 st2 :
  stable n K avail st st1 -> stable n K' avail' st1 st2 ->
  K <= K' ->
  (forall m, 0 <= m < n -> Z.testbit avail m = false ->
     Z.testbit avail' m = false) ->
  stable n K avail st st2.
Proof.
  intros (A1 & B1) (A2 & B2) HK Hav. split.
  - intros nd' Hk Hat. apply A2; [lia|]. apply A1; assumption.
  - intros m Hm Hb. rewrite B2 by auto. apply B1; assumption.
Qed.

Lemma children_run d :
  run_spec W n thread_id d ->
  forall cs ledger st1 rest nd1 p1,
    loop_inv W n thread_id ledger st1 -> stack st1 = cs ++ rest ->
    (forall c, In c cs -> fk c = nk nd1) ->
    at_level st1 nd1 -> 0 <= nk nd1 ->
    agree n (navail nd1) (pos st1) p1 ->
    2 * n - nk nd1 <= Z.of_nat d ->
    exists j st',
      turns W n thread_id j st1 = Some st' /\
      (j <= length cs * nodes_bound d)%nat /\
      loop_inv W n thread_id ledger st' /\
      stack st' = rest /\
      results st' =
        results st1 ++ flat_map (fun c => leaves W n thread_id d c nd1 p1) cs /\
      stable n (nk nd1) (navail nd1) st1 st'.
Proof.
  intros IH cs. induction cs as [|c cs IHcs];
    intros ledger st1 rest nd1 p1 Hinv Hstk Hfk Hat Hk0 Hag Hd.
  - exists 0%nat, st1. cbn [turns flat_map length app] in *.
    split; [reflexivity|]. split; [lia|]. split; [exact Hinv|].
    split; [exact Hstk|]. split; [rewrite app_nil_r; reflexivity|].
    apply stable_refl.
  - cbn [app] in Hstk.
    pose proof (Hfk c (or_introl eq_refl)) as Hc.
    destruct (IH ledger st1 c (cs ++ rest) nd1 p1 Hinv Hstk Hat
                (eq_sym Hc) Hag ltac:(lia))
      as (j1 & st2 & Ht1 & Hj1 & Hinv2 & Hstk2 & Hres2 & Hst2).
    rewrite Hc in Hst2.
    assert (Hat2 : at_level st2 nd1) by (apply Hst2; [lia|exact Hat]).
    assert (Hag2 : agree n (navail nd1) (pos st2) p1).
    { destruct Hag as (Hl & Ha). split.
      - destruct Hinv as (_ & _ & L1 & _). destruct Hinv2 as (_ & _ & L2 & _).
        lia.
      - intros m Hm Hb. rewrite (proj2 Hst2) by assumption. auto. }
    destruct (IHcs ledger st2 rest nd1 p1 Hinv2 Hstk2
                (fun c' H => Hfk c' (or_intror H)) Hat2 Hk0 Hag2 Hd)
      as (j2 & st3 & Ht2 & Hj2 & Hinv3 & Hstk3 & Hres3 & Hst3).
    exists (j1 + j2)%nat, st3. split; [rewrite turns_app, Ht1; exact Ht2|].
    split; [cbn [length]; lia|]. split; [exact Hinv3|].
    split; [exact Hstk3|]. split.
    + rewrite Hres3, Hres2. cbn [flat_map]. rewrite app_assoc. reflexivity.
    + eapply stable_trans; eauto. lia.
Qed.

Lemma subtree_run depth : run_spec W n thread_id depth.
Proof.
  induction depth as [|d IH];
    intros ledger st f rest nd p Hinv Hstk Hat Hk Hag Hd;
    destruct (loop_inv_turn W n thread_id Hn ledger st f rest Hinv Hstk)
      as (pth & nd0 & Hp0 & Hat0 & Hoff & Hstep & Hinv1);
    pose proof (on_path_view W n thread_id Hn _ _ Hp0) as I0;
    destruct (offers_facts W n thread_id Hn nd0 _ f I0 Hoff)
      as (Hk0 & Hkr & Hm & Hnk1);
    [lia|].
  destruct (at_level_words st nd nd0 Hat Hat0 ltac:(lia)) as (E1 & E2 & E3).
  assert (Hp1 : on_path W n thread_id (pth ++ [f]) (step_node n f nd0))
    by (constructor; assumption).
  pose proof (on_path_view W n thread_id Hn _ _ Hp1) as I1.
  pose proof Hinv as (_ & _ & Lp & _).
  rewrite E1 in Hag |- *.
  assert (Hag1 : agree n (navail (step_node n f nd0))
                   (place_pos (fk f) (fm f) (pos st))
                   (place_pos (fk f) (fm f) p))
    by (eapply agree_step; eauto).
  assert (Hst1 : stable n (fk f) (navail nd0) st
                   (step_state W n thread_id st f rest nd0)).
  { split.
    - intros nd' Hk' Hat'. apply at_level_keep; assumption.
    - intros m Hmm Hb. unfold step_state. cbn [pos]. unfold place_pos.
      destruct (Z.leb_spec 0 (fm f)); [|reflexivity].
      apply rd_upd_other; [lia|].
      intros E. eapply (proj2 (avail_step nd0 _ f m I0 Hoff ltac:(lia) Hb)).
      symmetry. exact E. }
  assert (Ht1 : turns W n thread_id 1 st
                = Some (step_state W n thread_id st f rest nd0))
    by (cbn [turns]; rewrite Hstep; reflexivity).
  cbn [leaves]. rewrite (step_node_words f nd nd0 E1 E2 E3).
  destruct (Z.eqb_spec (nk (step_node n f nd0)) (two_n n)) as [Eleaf|Eleaf].
  - (* a complete placement *)
    exists 1%nat, (step_state W n thread_id st f rest nd0).
    split; [exact Ht1|]. split; [cbn [nodes_bound]; lia|].
    split; [exact Hinv1|].
    unfold step_state at 1 2. cbn [stack results].
    replace (nk (step_node n f nd0) =? two_n n) with true
      by (symmetry; apply Z.eqb_eq; exact Eleaf).
    split; [reflexivity|]. split; [|exact Hst1].
    f_equal. f_equal.
    destruct (leaf_node _ _ I1 Eleaf) as (Ea & _).
    rewrite Ea in Hag1. apply agree_all; [|exact Hag1].
    rewrite length_place_pos. exact Lp.
  - destruct (abandoned W n thread_id (step_node n f nd0)) eqn:Eab.
    + (* the branch of another worker *)
      exists 1%nat, (step_state W n thread_id st f rest nd0).
      split; [exact Ht1|]. split; [cbn [nodes_bound]; lia|].
      split; [exact Hinv1|].
      unfold step_state at 1 2. cbn [stack results].
      replace (nk (step_node n f nd0) =? two_n n) with false
        by (symmetry; apply Z.eqb_neq; exact Eleaf).
      rewrite Eab, app_nil_r. auto.
    + (* the children, one after the other *)
      assert (Hstk1 : stack (step_state W n thread_id st f rest nd0)
                      = children n (step_node n f nd0) ++ rest).
      { unfold step_state. cbn [stack].
        replace (nk (step_node n f nd0) =? two_n n) with false
          by (symmetry; apply Z.eqb_neq; exact Eleaf).
        rewrite Eab. reflexivity. }
      assert (Hres1 : results (step_state W n thread_id st f rest nd0)
                      = results st).
      { unfold step_state. cbn [results].
        replace (nk (step_node n f nd0) =? two_n n) with false
          by (symmetry; apply Z.eqb_neq; exact Eleaf).
        reflexivity. }
      destruct (children_run d IH (children n (step_node n f nd0)) ledger
                  (step_state W n thread_id st f rest nd0) rest
                  (step_node n f nd0) (place_pos (fk f) (fm f) p)
                  Hinv1 Hstk1 (children_fk n (step_node n f nd0))
                  (at_level_step W n thread_id Hn st f rest nd0
                     ltac:(apply Hinv) ltac:(apply Hinv) Hkr)
                  ltac:(lia) Hag1 ltac:(lia))
        as (j2 & st3 & Ht2 & Hj2 & Hinv3 & Hstk3 & Hres3 & Hst3).
      exists (1 + j2)%nat, st3.
      split; [rewrite turns_app, Ht1; exact Ht2|].
      pose proof (children_length n (step_node n f nd0)) as Hcl.
      split; [cbn [nodes_bound]; nia|]. split; [exact Hinv3|].
      split; [exact Hstk3|]. split; [rewrite Hres3, Hres1; reflexivity|].
      eapply stable_trans; [exact Hst1|exact Hst3|lia|].
      intros m Hmm Hb.
      apply (proj1 (avail_step nd0 _ f m I0 Hoff ltac:(lia) Hb)).
Qed.

End BigStep.

(** ** The result of [dfs] *)

Section DfsResult.

Variables (W n thread_id : Z).
Hypothesis Hn : 1 <= n <= 31.

Lemma at_level_init ledger : at_level (init n ledger) (root_node n).
Proof.
  unfold at_level, init, root_node. cbn [nk navail nopen0 nopen1 availability open].
  replace (Z.to_nat (4 * n + 2)) with (S (S (Z.to_nat (4 * n)))) by lia.
  repeat split; reflexivity.
Qed.

Lemma init_run ledger :
  exists j st,
    turns W n thread_id j (init n ledger) = Some st /\
    (j <= 2 ^ dfs_fuel n)%nat /\
    loop_inv W n thread_id ledger st /\
    stack st = [] /\ results st = ledger ++ found W n thread_id.
Proof.
  destruct (subtree_run W n thread_id Hn (Z.to_nat (2 * n)) ledger
              (init n ledger) first_frame [] (root_node n)
              (repeat 0 (Z.to_nat n)))
    as (j & st & Ht & Hj & Hinv & Hstk & Hres & _).
  - apply loop_inv_init. exact Hn.
  - reflexivity.
  - apply at_level_init.
  - reflexivity.
  - split; [reflexivity|]. intros; reflexivity.
  - cbn [fk first_frame]. lia.
  - exists j, st. split; [exact Ht|]. split.
    + pose proof (nodes_bound_pow (Z.to_nat (2 * n))).
      unfold dfs_fuel.
      replace (Z.to_nat (4 * n)) with (2 * Z.to_nat (2 * n))%nat by lia.
      lia.
    + split; [exact Hinv|]. split; [exact Hstk|exact Hres].
Qed.

(** [dfs] terminates within its fuel, without a fault, and appends the
    entries of the tree. *)
Lemma dfs_found ledger :
  dfs W n thread_id ledger = Some (ledger ++ found W n thread_id).
Proof.
  destruct (init_run ledger) as (j & st & Ht & Hj & _ & Hstk & Hres).
  assert (Hf : finished st = true) by (unfold finished; rewrite Hstk; reflexivity).
  unfold dfs. rewrite dfs_loop_turns.
  rewrite (turns_more W n thread_id j _ _ _ Ht Hf Hj).
  rewrite Hf, Hres. reflexivity.
Qed.

Lemma found_complete p :
  In p (found W n thread_id) -> complete W n thread_id p.
Proof.
  destruct (init_run []) as (j & st & _ & _ & Hinv & _ & Hres).
  destruct Hinv as (_ & _ & _ & _ & _ & (fnd & Hres' & Hc)).
  rewrite Hres in Hres'. cbn [app] in Hres'. subst fnd. apply Hc.
Qed.

End DfsResult.

(** ** Complete paths are planar Langford arrangements *)

Lemma NoDup_map_inj {A B} (f : A -> B) l a b :
  NoDup (map f l) -> In a l -> In b l -> f a = f b -> a = b.
Proof.
  induction l as [|x l IH]; cbn [map In]; intros Hnd Ha Hb E; [tauto|].
  inversion Hnd as [|? ? Hx Hl]; subst.
  destruct Ha as [->|Ha], Hb as [->|Hb]; auto.
  - exfalso. apply Hx. rewrite E. apply in_map. exact Hb.
  - exfalso. apply Hx. rewrite <- E. apply in_map. exact Ha.
Qed.

Lemma NoDup_app_disjoint {A} (l1 l2 : list A) x :
  NoDup (l1 ++ l2) -> In x l1 -> In x l2 -> False.
Proof.
  induction l1 as [|y l1 IH]; cbn [app In]; intros Hnd H1 H2; [tauto|].
  inversion Hnd as [|? ? Hy Hl]; subst.
  destruct H1 as [->|H1]; [|auto].
  apply Hy. apply in_or_app. right. exact H2.
Qed.

Lemma NoDup_app_l {A} (l1 l2 : list A) : NoDup (l1 ++ l2) -> NoDup l1.
Proof.
  induction l1 as [|y l1 IH]; cbn [app]; intros Hnd; [constructor|].
  inversion Hnd as [|? ? Hy Hl]; subst. constructor; auto.
  intros H. apply Hy. apply in_or_app. left. exact H.
Qed.

Lemma NoDup_app_r {A} (l1 l2 : list A) : NoDup (l1 ++ l2) -> NoDup l2.
Proof.
  induction l1 as [|y l1 IH]; cbn [app]; intros Hnd; [assumption|].
  inversion Hnd; subst. auto.
Qed.

Lemma slots_NoDup k : NoDup (slots k).
Proof.
  unfold slots. apply NoDup_map_NoDup_ForallPairs; [|apply seq_NoDup].
  intros a b _ _. apply Nat2Z.inj.
Qed.

Lemma slots_In k t : In t (slots k) <-> 0 <= t < Z.of_nat k.
Proof.
  unfold slots. rewrite in_map_iff. split.
  - intros (i & <- & Hi). apply in_seq in Hi. lia.
  - intros H. exists (Z.to_nat t). split; [lia|]. apply in_seq. lia.
Qed.

Lemma arc_of_In l m :
  In m (map am l) -> In (arc_of l m) l /\ am (arc_of l m) = m.
Proof.
  intros H. unfold arc_of.
  destruct (find (fun a => am a =? m) l) as [a|] eqn:E.
  - apply find_some in E. destruct E as [E1 E2]. apply Z.eqb_eq in E2. auto.
  - apply in_map_iff in H. destruct H as (a & Ea & Ha).
    pose proof (find_none _ _ E a Ha) as N. cbn in N.
    apply Z.eqb_neq in N. contradiction.
Qed.

Section Valid.

Variables (W n thread_id : Z).
Hypothesis Hn : 1 <= n <= 31.

(** The pairs of a complete path, value by value. *)
Lemma complete_arcs p path nd :
  on_path W n thread_id path nd -> nk nd = 2 * n ->
  Z.of_nat (length p) = n -> records (view_of path) p ->
  let l := arcs (view_of path) in
  (forall v, 1 <= v <= n ->
     In (arc_of l (v - 1)) l /\ am (arc_of l (v - 1)) = v - 1 /\
     closing p v = aclose (arc_of l (v - 1)) /\
     opening p v = aopen (arc_of l (v - 1))) /\
  NoDup (map aopen l ++ map aclose l) /\
  (forall t, 0 <= t < 2 * n -> In t (map aopen l ++ map aclose l)) /\
  view_inv n nd (view_of path).
Proof.
  intros Hp Hk Lp Hrec l.
  pose proof (on_path_view W n thread_id Hn _ _ Hp) as I.
  destruct (leaf_node n Hn _ _ I Hk) as (Ea & _ & _ & Ep0 & Ep1 & El & _).
  fold l in El.
  assert (Hv : forall v, 1 <= v <= n ->
     In (arc_of l (v - 1)) l /\ am (arc_of l (v - 1)) = v - 1 /\
     closing p v = aclose (arc_of l (v - 1)) /\
     opening p v = aopen (arc_of l (v - 1))).
  { intros v Hv.
    assert (Hin : In (v - 1) (map am l)).
    { destruct (in_dec Z.eq_dec (v - 1) (map am l)) as [H|H]; [exact H|].
      apply (vi_avail _ _ _ I) in H; [|lia].
      rewrite Ea, Z.bits_0 in H. discriminate. }
    destruct (arc_of_In l (v - 1) Hin) as (Ha & Em).
    pose proof (Hrec _ Ha) as Hr. rewrite Em in Hr.
    pose proof (vi_arcs _ _ _ I _ Ha) as (_ & _ & Eam & _).
    assert (closing p v = aclose (arc_of l (v - 1)))
      by (unfold closing; apply rd_nth; exact Hr).
    unfold opening. repeat split; auto; lia. }
  assert (Hs : forall t, 0 <= t < 2 * n -> In t (map aopen l ++ map aclose l)).
  { intros t Ht. pose proof (vi_slots _ _ _ I t ltac:(lia)) as H.
    rewrite Ep0, Ep1 in H. exact H. }
  split; [exact Hv|]. split; [|split; [exact Hs|exact I]].
  apply NoDup_incl_NoDup with (l := slots (Z.to_nat (2 * n))).
  - apply slots_NoDup.
  - unfold slots. rewrite length_app, !length_map, length_seq. lia.
  - intros t Ht. apply slots_In in Ht. apply Hs. lia.
Qed.

(** A complete path is a Langford arrangement whose pairs, drawn on the
    sides the path chose, do not cross; the pair of slot [0] is on side
    [0]. *)
Lemma complete_valid p :
  complete W n thread_id p ->
  langford n p /\
  exists sd, noncrossing n p sd /\
             forall v, 1 <= v <= n -> opening p v = 0 -> sd v = 0.
Proof.
  intros (path & nd & Hp & Hk & Lp & Hrec).
  destruct (complete_arcs p path nd Hp Hk Lp Hrec) as (Hv & Hnd & Hs & I).
  set (l := arcs (view_of path)) in *.
  split.
  - split; [exact Lp|]. split.
    + intros v Hvr. destruct (Hv v Hvr) as (Ha & Em & Ec & Eo).
      pose proof (vi_arcs _ _ _ I _ Ha) as (A1 & A2 & A3 & _).
      unfold opening in *. lia.
    + intros t Ht. specialize (Hs t Ht).
      assert (Ha : exists a, In a l /\ (t = aopen a \/ t = aclose a)).
      { apply in_app_iff in Hs. destruct Hs as [H|H];
          apply in_map_iff in H; destruct H as (a & <- & Ha); eauto. }
      destruct Ha as (a & Ha & Hta).
      pose proof (vi_arcs _ _ _ I _ Ha) as (A1 & A2 & A3 & A4 & _).
      assert (Eq : forall w, 1 <= w <= n -> occupies p w t ->
                             arc_of l (w - 1) = a).
      { intros w Hw Ho. destruct (Hv w Hw) as (Hb & Em & Ec & Eo).
        unfold occupies in Ho. rewrite Ec, Eo in Ho.
        set (b := arc_of l (w - 1)) in *.
        destruct Ho as [Ho|Ho], Hta as [Hta|Hta].
        - apply (NoDup_map_inj aopen l); auto.
          + apply (NoDup_app_l _ _ Hnd).
          + congruence.
        - exfalso. apply (NoDup_app_disjoint _ _ t Hnd).
          + rewrite Ho. apply in_map. exact Hb.
          + rewrite Hta. apply in_map. exact Ha.
        - exfalso. apply (NoDup_app_disjoint _ _ t Hnd).
          + rewrite Hta. apply in_map. exact Ha.
          + rewrite Ho. apply in_map. exact Hb.
        - apply (NoDup_map_inj aclose l); auto.
          + apply (NoDup_app_r _ _ Hnd).
          + congruence. }
      exists (am a + 1). split; [lia|].
      destruct (Hv (am a + 1) ltac:(lia)) as (Hb & Em & Ec & Eo).
      assert (Eb : arc_of l (am a + 1 - 1) = a).
      { apply (NoDup_map_inj am l); auto.
        - apply (vi_nodup _ _ _ I).
        - rewrite Em. lia. }
      split.
      * unfold occupies. rewrite Ec, Eo, Eb. exact Hta.
      * intros w Hw Ho. pose proof (Eq w Hw Ho) as E.
        destruct (Hv w Hw) as (_ & Em' & _). rewrite E in Em'. lia.
  - exists (fun v => aside (arc_of l (v - 1))). split; [split|].
    + intros v Hvr. destruct (Hv v Hvr) as (Ha & _).
      apply (vi_arcs _ _ _ I _ Ha).
    + intros v w Hvr Hwr Es.
      destruct (Hv v Hvr) as (Ha & _ & Ec & Eo).
      destruct (Hv w Hwr) as (Hb & _ & Ec' & Eo').
      rewrite Ec, Eo, Ec', Eo'. apply (vi_cross _ _ _ I); assumption.
    + intros v Hvr E0. destruct (Hv v Hvr) as (Ha & _ & _ & Eo).
      apply (proj2 (vi_first _ _ _ I) _ Ha). congruence.
Qed.

End Valid.

(** ** The order of the ledger *)

Lemma pos_eqb_eq a b : pos_eqb a b = true <-> a = b.
Proof.
  revert b. induction a as [|x a IH]; intros [|y b]; cbn [pos_eqb];
    try (split; [discriminate|congruence]); [tauto|].
  rewrite andb_true_iff, Z.eqb_eq, IH. split.
  - intros [-> ->]. reflexivity.
  - intros E. inversion E. auto.
Qed.

Lemma pos_eqb_refl a : pos_eqb a a = true.
Proof. apply pos_eqb_eq. reflexivity. Qed.

Lemma pos_ltb_irrefl a : pos_ltb a a = false.
Proof.
  induction a as [|x a IH]; cbn [pos_ltb]; [reflexivity|].
  rewrite Z.ltb_irrefl, Z.eqb_refl, IH. reflexivity.
Qed.

Lemma pos_ltb_trans a b c :
  pos_ltb a b = true -> pos_ltb b c = true -> pos_ltb a c = true.
Proof.
  revert b c. induction a as [|x a IH]; intros [|y b] [|z c];
    cbn [pos_ltb]; try discriminate; auto.
  rewrite !orb_true_iff, !andb_true_iff, !Z.ltb_lt, !Z.eqb_eq.
  intros [H1|[H1 H1']] [H2|[H2 H2']].
  - left. lia.
  - left. lia.
  - left. lia.
  - right. split; [lia|]. eapply IH; eassumption.
Qed.

Lemma pos_ltb_total a b :
  pos_ltb a b = false -> pos_ltb b a = false -> a = b.
Proof.
  revert b. induction a as [|x a IH]; intros [|y b]; cbn [pos_ltb];
    try discriminate; auto.
  rewrite !orb_false_iff, !andb_false_iff, !Z.ltb_ge, !Z.eqb_neq.
  intros [H1 H1'] [H2 H2'].
  assert (x = y) by lia. subst y. f_equal. apply IH; tauto.
Qed.

Lemma pos_le_trans a b c : pos_le a b -> pos_le b c -> pos_le a c.
Proof.
  unfold pos_le. intros H1 H2.
  destruct (pos_ltb c a) eqn:E; [|reflexivity].
  destruct (pos_ltb a b) eqn:E'.
  - rewrite (pos_ltb_trans c a b E E') in H2. discriminate.
  - pose proof (pos_ltb_total a b E' H1). subst b. congruence.
Qed.

Lemma pos_le_antisym a b : pos_le a b -> pos_le b a -> a = b.
Proof. unfold pos_le. intros H1 H2. apply pos_ltb_total; assumption. Qed.

Lemma pos_le_cases a b : pos_ltb a b = true -> pos_le a b.
Proof.
  unfold pos_le. intros H. destruct (pos_ltb b a) eqn:E; [|reflexivity].
  pose proof (pos_ltb_trans a b a H E) as C.
  rewrite pos_ltb_irrefl in C. discriminate.
Qed.

(** ** [std::sort] *)

Lemma insert_sorted_perm x l : Permutation (x :: l) (insert_sorted x l).
Proof.
  induction l as [|y l IH]; cbn [insert_sorted]; [reflexivity|].
  destruct (pos_ltb y x); [|reflexivity].
  rewrite perm_swap. constructor. exact IH.
Qed.

Lemma sort_perm l : Permutation l (sort l).
Proof.
  induction l as [|x l IH]; cbn [sort fold_right]; [constructor|].
  rewrite <- insert_sorted_perm. constructor. exact IH.
Qed.

Lemma insert_sorted_sorted x l :
  StronglySorted pos_le l -> StronglySorted pos_le (insert_sorted x l).
Proof.
  induction 1 as [|y l Hs IH Hy]; cbn [insert_sorted].
  - constructor; constructor.
  - destruct (pos_ltb y x) eqn:E.
    + constructor; [exact IH|].
      apply (Permutation_Forall (insert_sorted_perm x l)).
      constructor; [apply pos_le_cases; exact E|exact Hy].
    + constructor; [constructor; assumption|].
      constructor; [exact E|].
      eapply Forall_impl; [|exact Hy].
      intros z Hz. eapply pos_le_trans; [exact E|exact Hz].
Qed.

Lemma sort_sorted l : StronglySorted pos_le (sort l).
Proof.
  induction l as [|x l IH]; cbn [sort fold_right]; [constructor|].
  apply insert_sorted_sorted. exact IH.
Qed.

(** ** Counting the distinct entries *)

Lemma runs_adjacent l : Z.of_nat (length l) - adjacent_equal l = runs l.
Proof.
  induction l as [|a [|b t] IH]; [reflexivity|reflexivity|].
  cbn [length adjacent_equal runs] in *.
  destruct (pos_eqb b a); lia.
Qed.

Lemma adjacent_equal_range l :
  0 <= adjacent_equal l <= Z.of_nat (length l).
Proof.
  induction l as [|a [|b t] IH]; cbn [length adjacent_equal] in *; try lia.
  destruct (pos_eqb b a); lia.
Qed.

Lemma sorted_head_in a b t :
  StronglySorted pos_le (a :: b :: t) -> (In a (b :: t) <-> b = a).
Proof.
  intros Hs. inversion Hs as [|? ? Hs' Ha]; subst.
  inversion Hs' as [|? ? _ Hb]; subst.
  inversion Ha as [|? ? Hab _]; subst.
  split; [|intros ->; left; reflexivity].
  intros [E|Hin]; [exact E|].
  rewrite Forall_forall in Hb. specialize (Hb a Hin).
  apply pos_le_antisym; assumption.
Qed.

Lemma runs_distinct l : StronglySorted pos_le l -> runs l = distinct l.
Proof.
  unfold distinct. induction l as [|a [|b t] IH]; intros Hs;
    [reflexivity|reflexivity|].
  assert (Hs' : StronglySorted pos_le (b :: t)) by (inversion Hs; assumption).
  specialize (IH Hs').
  pose proof (sorted_head_in a b t Hs) as Hin.
  change (runs (a :: b :: t))
    with ((if pos_eqb b a then 0 else 1) + runs (b :: t)).
  rewrite IH. cbn [nodup].
  destruct (in_dec pos_eq_dec a (b :: t)) as [Hi|Hi].
  - replace (pos_eqb b a) with true
      by (symmetry; apply pos_eqb_eq; apply Hin; exact Hi).
    lia.
  - destruct (pos_eqb b a) eqn:E.
    + exfalso. apply Hi. apply Hin. apply pos_eqb_eq. exact E.
    + cbn [length]. lia.
Qed.

Lemma distinct_same l1 l2 :
  (forall x, In x l1 <-> In x l2) -> distinct l1 = distinct l2.
Proof.
  intros H. unfold distinct. f_equal. apply Permutation_length.
  apply NoDup_Permutation; try apply NoDup_nodup.
  intros x. rewrite !nodup_In. apply H.
Qed.

Lemma distinct_perm l1 l2 : Permutation l1 l2 -> distinct l1 = distinct l2.
Proof.
  intros H. apply distinct_same. intros x. split; apply Permutation_in;
    [exact H|symmetry; exact H].
Qed.

Lemma distinct_range l : 0 <= distinct l <= Z.of_nat (length l).
Proof.
  unfold distinct. split; [lia|].
  apply Nat2Z.inj_le. apply NoDup_incl_length; [apply NoDup_nodup|].
  intros x. apply nodup_In.
Qed.

(** [unique_count] sorts the ledger, keeps every entry, and returns the
    number of distinct entries. *)
Lemma unique_count_spec l :
  Z.of_nat (length l) < 2 ^ 63 ->
  Permutation l (fst (unique_count l)) /\
  StronglySorted pos_le (fst (unique_count l)) /\
  snd (unique_count l) = runs (fst (unique_count l)) /\
  snd (unique_count l) = distinct l.
Proof.
  intros Hl. unfold unique_count. cbn [fst snd].
  pose proof (sort_perm l) as Hp. pose proof (sort_sorted l) as Hs.
  pose proof (runs_adjacent (sort l)) as Hr.
  rewrite <- (Permutation_length Hp) in Hr.
  pose proof (runs_distinct _ Hs) as Hd.
  rewrite <- (distinct_perm _ _ Hp) in Hd.
  pose proof (distinct_range l).
  change (2 ^ 63) with 9223372036854775808 in Hl.
  rewrite int64_id by lia.
  repeat split; auto; lia.
Qed.

(** ** The partition of the tree among the workers *)

Lemma flat_map_ext_in {A B} (f g : A -> list B) l :
  (forall a, In a l -> f a = g a) -> flat_map f l = flat_map g l.
Proof.
  induction l as [|x l IH]; intros H; cbn [flat_map]; [reflexivity|].
  rewrite (H x (or_introl eq_refl)), IH; [reflexivity|].
  intros a Ha. apply H. right. exact Ha.
Qed.

Section Partition.

Variables (W n : Z).
Hypothesis Hn : 1 <= n <= 31.
Hypothesis HW : 1 <= W < 2 ^ 31.

Lemma partition_hash_range o0 o1 avail :
  0 <= partition_hash W o0 o1 avail < W.
Proof. unfold partition_hash. apply Z.mod_pos_bound. lia. Qed.

(** With one worker nothing is abandoned. *)
Lemma abandoned_single tid nd : abandoned 1 n tid nd = false.
Proof. reflexivity. Qed.

(** Away from the partition depth nothing is abandoned. *)
Lemma abandoned_off_limit tid nd :
  nk nd <> k_limit n -> abandoned W n tid nd = false.
Proof.
  intros H. unfold abandoned, not_mine.
  replace (nk nd =? k_limit n) with false by (symmetry; apply Z.eqb_neq; exact H).
  destruct (1 <? W); reflexivity.
Qed.

(** At the partition depth a node belongs to the worker its hash names. *)
Lemma abandoned_at_limit tid nd :
  1 < W -> 0 <= tid < W -> nk nd = k_limit n ->
  (abandoned W n tid nd = false <->
   tid = partition_hash W (nopen0 nd) (nopen1 nd) (navail nd)).
Proof.
  intros H1 Ht Hk. unfold abandoned, not_mine.
  replace (1 <? W) with true by (symmetry; apply Z.ltb_lt; lia).
  rewrite Hk, Z.eqb_refl.
  change (2 ^ 31) with 2147483648 in HW.
  rewrite uint64_id by lia.
  rewrite negb_false_iff, Z.eqb_eq. split; congruence.
Qed.

(** Below the partition depth every worker that gets there explores the
    same subtree as a single worker. *)
Lemma leaves_below tid depth f nd p :
  0 <= fk f < 2 * n -> k_limit n < fk f + 1 ->
  leaves W n tid depth f nd p = leaves 1 n 0 depth f nd p.
Proof.
  revert f nd p. induction depth as [|d IH]; intros f nd p Hk Hl;
    [reflexivity|].
  cbn [leaves].
  assert (Ek : nk (step_node n f nd) = fk f + 1)
    by (unfold step_node; cbn [nk]; apply int8_id; lia).
  destruct (Z.eqb_spec (nk (step_node n f nd)) (two_n n)) as [E|E];
    [reflexivity|].
  rewrite abandoned_single, abandoned_off_limit by lia.
  apply flat_map_ext_in. intros c Hc.
  pose proof (children_fk n _ _ Hc) as Hfk. unfold two_n in E.
  apply IH; lia.
Qed.

(** Above the partition depth the workers share the subtree of a single
    worker among themselves. *)
Lemma leaves_above depth f nd p r :
  0 <= fk f < 2 * n -> fk f + 1 <= k_limit n ->
  (In r (leaves 1 n 0 depth f nd p) <->
   exists tid, 0 <= tid < W /\ In r (leaves W n tid depth f nd p)).
Proof.
  revert f nd p. induction depth as [|d IH]; intros f nd p Hk Hl.
  - cbn [leaves In]. split; [tauto|]. intros (tid & _ & []).
  - cbn [leaves].
    assert (Ek : nk (step_node n f nd) = fk f + 1)
      by (unfold step_node; cbn [nk]; apply int8_id; lia).
    destruct (Z.eqb_spec (nk (step_node n f nd)) (two_n n)) as [E|E].
    { split; [intros H; exists 0; split; [lia|exact H]|].
      intros (tid & _ & H). exact H. }
    unfold two_n in E. rewrite abandoned_single.
    destruct (Z.eq_dec (nk (step_node n f nd)) (k_limit n)) as [El|El].
    + (* the partition depth *)
      destruct (Z.eq_dec W 1) as [->|HW1].
      * split; [intros H; exists 0; split; [lia|exact H]|].
        intros (tid & Ht & H). rewrite abandoned_single in H.
        assert (tid = 0) by lia. subst tid. exact H.
      * set (h := partition_hash W (nopen0 (step_node n f nd))
                    (nopen1 (step_node n f nd)) (navail (step_node n f nd))).
        pose proof (partition_hash_range (nopen0 (step_node n f nd))
                    (nopen1 (step_node n f nd)) (navail (step_node n f nd)))
          as Hh. fold h in Hh.
        assert (Hsame : forall tid,
                  flat_map (fun c => leaves W n tid d c (step_node n f nd)
                                       (place_pos (fk f) (fm f) p))
                    (children n (step_node n f nd))
                  = flat_map (fun c => leaves 1 n 0 d c (step_node n f nd)
                                       (place_pos (fk f) (fm f) p))
                    (children n (step_node n f nd))).
        { intros tid. apply flat_map_ext_in. intros c Hc.
          pose proof (children_fk n _ _ Hc) as Hfk.
          apply leaves_below; lia. }
        split.
        -- intros H. exists h. split; [exact Hh|].
           rewrite (proj2 (abandoned_at_limit h _ ltac:(lia) Hh El) eq_refl).
           rewrite Hsame. exact H.
        -- intros (tid & Ht & H).
           destruct (abandoned W n tid (step_node n f nd)); [destruct H|].
           rewrite Hsame in H. exact H.
    + (* above it *)
      split.
      * intros H. apply in_flat_map in H. destruct H as (c & Hc & H).
        pose proof (children_fk n _ _ Hc) as Hfk.
        apply IH in H; [|lia|lia]. destruct H as (tid & Ht & H).
        exists tid. split; [exact Ht|].
        rewrite abandoned_off_limit by exact El.
        apply in_flat_map. exists c. auto.
      * intros (tid & Ht & H).
        rewrite abandoned_off_limit in H by exact El.
        apply in_flat_map in H. destruct H as (c & Hc & H).
        pose proof (children_fk n _ _ Hc) as Hfk.
        apply in_flat_map. exists c. split; [exact Hc|].
        apply IH; [lia|lia|]. exists tid. auto.
Qed.

(** The entries of all the workers together are those of a single worker
    on the whole tree. *)
Lemma found_union r :
  In r (found 1 n 0) <-> exists tid, 0 <= tid < W /\ In r (found W n tid).
Proof.
  unfold found.
  destruct (Z.le_gt_cases 1 (k_limit n)) as [Hl|Hl].
  - apply leaves_above; cbn [fk first_frame]; lia.
  - split.
    + intros H. exists 0. split; [lia|].
      rewrite leaves_below by (cbn [fk first_frame]; lia). exact H.
    + intros (tid & Ht & H).
      rewrite leaves_below in H by (cbn [fk first_frame]; lia). exact H.
Qed.

End Partition.

(** ** Paths and their decisions *)

Section PathFacts.

Variables (W n thread_id : Z).
Hypothesis Hn : 1 <= n <= 31.

Lemma closes_snoc path f :
  closes (path ++ [f]) = closes path ++ (if is_close f then [f] else []).
Proof. unfold closes. rewrite filter_app. reflexivity. Qed.

Lemma opens_snoc path f :
  opens (path ++ [f]) = opens path ++ (if is_close f then [] else [f]).
Proof.
  unfold opens. rewrite filter_app. cbn [filter].
  destruct (is_close f); reflexivity.
Qed.

(** The pairs of the view are the close decisions of the path, the open
    decisions are counted by [num_open]. *)
Lemma path_counts path nd :
  on_path W n thread_id path nd ->
  map am (arcs (view_of path)) = rev (map fm (closes path)) /\
  map aclose (arcs (view_of path)) = rev (map fk (closes path)) /\
  nnum_open nd = Z.of_nat (length (opens path)).
Proof.
  induction 1 as [|path nd f Hp (IH1 & IH2 & IH3) O].
  - repeat split; reflexivity.
  - pose proof (on_path_view W n thread_id Hn _ _ Hp) as I.
    rewrite view_of_snoc, closes_snoc, opens_snoc. unfold is_close.
    destruct (offers_cases W n thread_id Hn nd _ f I O)
      as (Hk & Hno & Hlt & Hd &
          [(Hm & Ho & _)|(t & l & Hpd & Hm & Hmr & Hb & _)]).
    + rewrite (step_node_open n Hn nd (view_of path) f) by assumption.
      rewrite step_view_open by assumption. cbn [nnum_open].
      rewrite Hm. change (0 <=? -1) with false. cbv iota.
      rewrite !app_nil_r, length_app. cbn [length].
      destruct (fd f =? 0); cbn [arcs]; repeat split; auto; lia.
    + rewrite (step_node_close n Hn nd (view_of path) f t l) by assumption.
      rewrite (step_view_close _ f t l) by (assumption || lia).
      cbn [nnum_open].
      replace (0 <=? fm f) with true by (symmetry; apply Z.leb_le; lia).
      rewrite !map_app, !rev_app_distr, app_nil_r. cbn [map rev app].
      destruct (fd f =? 0); cbn [arcs map am aclose];
        rewrite IH1, IH2; repeat split; auto.
Qed.

(** A pending opening is the slot of an open decision of the path, on the
    same side. *)
Lemma pending_opened path nd d t :
  on_path W n thread_id path nd -> (d = 0 \/ d = 1) ->
  In t (pending d (view_of path)) ->
  exists g, nth_error path (Z.to_nat t) = Some g /\
            fk g = t /\ fm g = -1 /\ fd g = d.
Proof.
  intros Hp Hd. revert t. induction Hp as [|path nd f Hp IH O]; intros t Ht.
  - unfold pending in Ht. cbn in Ht. destruct (d =? 0); destruct Ht.
  - pose proof (on_path_view W n thread_id Hn _ _ Hp) as I.
    pose proof (on_path_length W n thread_id Hn _ _ Hp) as Hlen.
    assert (Hold : In t (pending d (view_of path)) ->
              exists g, nth_error (path ++ [f]) (Z.to_nat t) = Some g /\
                        fk g = t /\ fm g = -1 /\ fd g = d).
    { intros H. destruct (IH t H) as (g & Hg & Hr).
      exists g. split; [|exact Hr].
      rewrite nth_error_app1; [exact Hg|].
      apply nth_error_Some. congruence. }
    rewrite view_of_snoc in Ht.
    destruct (offers_cases W n thread_id Hn nd _ f I O)
      as (Hk & Hno & Hlt & Hfd &
          [(Hm & Ho & _)|(t' & l & Hpd & Hm & Hmr & Hb & _)]).
    + rewrite step_view_open in Ht by assumption.
      assert (Hnew : t = fk f -> fd f = d ->
                exists g, nth_error (path ++ [f]) (Z.to_nat t) = Some g /\
                          fk g = t /\ fm g = -1 /\ fd g = d).
      { intros -> E. exists f. split; [|auto].
        rewrite nth_error_app2 by lia.
        replace (Z.to_nat (fk f) - length path)%nat with 0%nat by lia.
        reflexivity. }
      unfold pending in *.
      destruct Hd as [-> | ->], Hfd as [Hfd|Hfd]; rewrite Hfd in *;
        cbn [Z.eqb pend0 pend1 In] in *; auto;
        destruct Ht as [Ht|Ht]; auto.
    + rewrite (step_view_close _ f t' l) in Ht by (assumption || lia).
      apply Hold. unfold pending in *.
      destruct Hd as [-> | ->], Hfd as [Hfd|Hfd]; rewrite Hfd in *;
        cbn [Z.eqb pend0 pend1 In] in *; auto;
        rewrite Hpd; right; exact Ht.
Qed.

(** The invariant along the turns of the loop. *)
Lemma turns_inv ledger j st :
  loop_inv W n thread_id ledger st ->
  exists st', turns W n thread_id j st = Some st' /\
              loop_inv W n thread_id ledger st'.
Proof.
  revert st. induction j as [|j IH]; intros st Hinv; cbn [turns].
  - eauto.
  - destruct (stack st) as [|f rest] eqn:Hstk.
    + unfold dfs_step. rewrite Hstk. apply IH. exact Hinv.
    + destruct (loop_inv_turn W n thread_id Hn ledger st f rest Hinv Hstk)
        as (path & nd & _ & _ & _ & Hs & Hinv1).
      rewrite Hs. apply IH. exact Hinv1.
Qed.

Lemma turns_init_inv ledger j st :
  turns W n thread_id j (init n ledger) = Some st ->
  loop_inv W n thread_id ledger st.
Proof.
  intros H.
  destruct (turns_inv ledger j (init n ledger)
              (loop_inv_init W n thread_id Hn ledger)) as (st' & Ht & Hinv).
  rewrite Ht in H. inversion H. subst st'. exact Hinv.
Qed.

Lemma turns_reachable ledger j st :
  turns W n thread_id j (init n ledger) = Some st ->
  reachable W n thread_id st.
Proof.
  clear Hn.
  assert (G : forall j s s', reachable W n thread_id s ->
                turns W n thread_id j s = Some s' ->
                reachable W n thread_id s').
  { clear. induction j as [|j IH]; intros s s' Hr H; cbn [turns] in H.
    - inversion H. subst. exact Hr.
    - destruct (dfs_step W n thread_id s) as [s1|] eqn:E; [|discriminate].
      eapply IH; [|exact H]. econstructor; eassumption. }
  apply G. constructor.
Qed.

Lemma reachable_turns st :
  reachable W n thread_id st ->
  exists ledger j, turns W n thread_id j (init n ledger) = Some st.
Proof.
  clear Hn. induction 1 as [ledger|st st1 Hr (ledger & j & IH) Hs].
  - exists ledger, 0%nat. reflexivity.
  - exists ledger, (j + 1)%nat. rewrite turns_app, IH. cbn [turns].
    rewrite Hs. reflexivity.
Qed.

End PathFacts.

(** ** The orchestrator *)

Section Solve.

Variables (W n : Z).
Hypothesis Hn : 1 <= n <= 31.

Lemma run_workers_found ids ledger :
  run_workers W n ids ledger = Some (ledger ++ flat_map (found W n) ids).
Proof.
  revert ledger. induction ids as [|t ids IH]; intros ledger;
    cbn [run_workers flat_map].
  - rewrite app_nil_r. reflexivity.
  - rewrite (dfs_found W n t Hn), IH, app_assoc. reflexivity.
Qed.

End Solve.

(** The contents of the cells [dfs] leaves uninitialised do not matter: from
    any such contents the loop terminates without a fault and appends the
    same entries. *)
Lemma dfs_uninitialised W n thread_id av ps op ledger :
  1 <= n <= 31 ->
  Z.of_nat (length av) = 2 * n -> Z.of_nat (length ps) = n ->
  Z.of_nat (length op) = 4 * n ->
  exists j st,
    turns W n thread_id j (init_with n av ps op ledger) = Some st /\
    stack st = [] /\ results st = ledger ++ found W n thread_id.
Proof.
  intros Hn La Lp Lo.
  assert (Hat : at_level (init_with n av ps op ledger) (root_node n)).
  { unfold at_level, init_with, root_node.
    cbn [nk navail nopen0 nopen1 availability open]. repeat split. }
  assert (Hinv : loop_inv W n thread_id ledger (init_with n av ps op ledger)).
  { unfold loop_inv, init_with.
    cbn [availability open pos stack results shape length fk].
    split; [lia|]. split; [lia|]. split; [lia|].
    split; [repeat split; [lia|intros g []]|].
    split.
    - exists [], (root_node n). split; [constructor|]. split.
      + intros a [].
      + intros f [<-|[]]. exists (root_node n).
        cbn [fk first_frame firstn Z.to_nat]. split; [constructor|].
        split; [exact Hat|]. unfold offers. reflexivity.
    - exists []. rewrite app_nil_r. split; [reflexivity|]. intros p []. }
  destruct (subtree_run W n thread_id Hn (Z.to_nat (2 * n)) ledger
              (init_with n av ps op ledger) first_frame [] (root_node n)
              (repeat 0 (Z.to_nat n)) Hinv eq_refl Hat eq_refl)
    as (j & st & Ht & _ & _ & Hstk & Hres & _).
  - split.
    + cbn [pos init_with]. rewrite repeat_length. lia.
    + intros m Hm Hb. rewrite (root_avail_exact n Hn) in Hb.
      replace (2 ^ n - 1) with (Z.ones n) in Hb
        by (rewrite Z.ones_equiv; lia).
      rewrite Z.ones_spec_low in Hb by lia. discriminate.
  - cbn [fk first_frame]. lia.
  - exists j, st. auto.
Qed.

Lemma worker_ids_In W t : In t (worker_ids W) <-> 0 <= t < W.
Proof.
  unfold worker_ids. rewrite in_map_iff. split.
  - intros (i & <- & Hi). apply in_seq in Hi. lia.
  - intros H. exists (Z.to_nat t). split; [lia|]. apply in_seq. lia.
Qed.

Lemma degenerate_false n : degenerate n = false -> 1 <= n <= 31.
Proof.
  unfold degenerate, kMaxN. rewrite !orb_false_iff.
  intros [[[H1 H2] _] _]. apply Z.leb_gt in H1. apply Z.ltb_ge in H2. lia.
Qed.

Lemma unique_count_distinct l : snd (unique_count l) = int64 (distinct l).
Proof.
  unfold unique_count. cbn [snd]. f_equal.
  pose proof (runs_adjacent (sort l)) as Hr.
  rewrite <- (Permutation_length (sort_perm l)) in Hr.
  rewrite Hr, (runs_distinct _ (sort_sorted l)).
  symmetry. apply distinct_perm. apply sort_perm.
Qed.

(** The order in which the workers append to the ledger does not change
    the count. *)
Lemma unique_count_perm l1 l2 :
  Permutation l1 l2 -> snd (unique_count l1) = snd (unique_count l2).
Proof.
  intros H. rewrite !unique_count_distinct. f_equal.
  apply distinct_perm. exact H.
Qed.

(** The count of [solve] is the number of distinct entries found by a
    single worker on the whole tree, whatever the number of workers. *)
Lemma solve_with_distinct W n :
  1 <= W < 2 ^ 31 -> degenerate n = false ->
  solve_with W n = Some (int32 (int64 (distinct (found 1 n 0)))).
Proof.
  intros HW Hd. pose proof (degenerate_false n Hd) as Hn.
  unfold solve_with, solve_run. rewrite Hd.
  rewrite (run_workers_found W n Hn). cbn [app].
  rewrite unique_count_distinct. f_equal. f_equal. f_equal.
  apply distinct_same. intros r.
  rewrite (found_union W n Hn HW r), in_flat_map.
  split.
  - intros (t & Ht & H). exists t. split; [apply worker_ids_In|]; assumption.
  - intros (t & Ht & H). exists t. split; [apply worker_ids_In|]; assumption.
Qed.


(** ** Frames on the stack *)

Section Frames.

Variables (W n thread_id : Z).
Hypothesis Hn : 1 <= n <= 31.

(** Every frame on the stack, after any number of turns, is a decision
    offered at a node of a path of the search. *)
Lemma stack_frames ledger j st f :
  turns W n thread_id j (init n ledger) = Some st -> In f (stack st) ->
  exists path nd,
    on_path W n thread_id path nd /\ at_level st nd /\
    offers W n thread_id nd f /\ view_inv n nd (view_of path).
Proof.
  intros Ht Hin.
  pose proof (turns_init_inv W n thread_id Hn ledger j st Ht)
    as (_ & _ & _ & _ & (path & ndp & _ & _ & Hf) & _).
  destruct (Hf f Hin) as (nd & Hp & Hat & Ho).
  exists (firstn (Z.to_nat (fk f)) path), nd.
  split; [exact Hp|]. split; [exact Hat|]. split; [exact Ho|].
  apply (on_path_view W n thread_id Hn). exact Hp.
Qed.

(** The arithmetic of [try_close]: the value index it computes for the most
    recent pending opening [t] is [k - t - 2]. *)
Lemma close_formula nd v d t l :
  view_inv n nd v -> (d = 0 \/ d = 1) -> pending d v = t :: l ->
  1 <= nk nd < 2 * n ->
  int8 (int8 (nk nd - two_n n - 2)
        + ffsll (if d =? 0 then nopen0 nd else nopen1 nd))
  = nk nd - t - 2.
Proof.
  intros I Hd Hp Hk. unfold pending in Hp.
  assert (Hdesc : desc_below (nk nd) (t :: l)).
  { destruct Hd as [-> | ->]; cbn [Z.eqb] in Hp; rewrite <- Hp;
      [apply (vi_desc0 _ _ _ I)|apply (vi_desc1 _ _ _ I)]. }
  assert (Ew : (if d =? 0 then nopen0 nd else nopen1 nd) = enc n (t :: l)).
  { destruct Hd as [-> | ->]; cbn [Z.eqb] in Hp |- *; rewrite <- Hp;
      [apply (vi_open0 _ _ _ I)|apply (vi_open1 _ _ _ I)]. }
  pose proof Hdesc as [Ht _].
  rewrite Ew, (enc_ffsll n (nk nd)) by (assumption || lia).
  unfold two_n. rewrite (int8_id (nk nd - 2 * n - 2)) by lia.
  replace (nk nd - 2 * n - 2 + (2 * n - t)) with (nk nd - t - 2) by lia.
  apply int8_id. lia.
Qed.

Lemma desc_below_older k t l s : desc_below k (t :: l) -> In s l -> s < t.
Proof. intros [_ H] Hs. pose proof (desc_below_In _ _ _ H Hs). lia. Qed.

Lemma push_some f stk s : push n f stk = Some s -> s = f :: stk.
Proof.
  clear Hn. unfold push.
  destruct (4 * Z.of_nat (length stk) + 4 <=? 24 * n); congruence.
Qed.

Lemma try_close_some k avail num_open d od stk s :
  try_close n k avail num_open (int8 (k - two_n n - 2)) d od stk = Some s ->
  s = close_child n k avail num_open d od ++ stk.
Proof.
  clear Hn. unfold try_close, close_child.
  destruct (od =? 0); [intros E; inversion E; reflexivity|].
  destruct (uint32 _ <? n); [|intros E; inversion E; reflexivity].
  destruct (negb (Z.land _ 1 =? 0)); [|intros E; inversion E; reflexivity].
  destruct (negb _ || _); [|intros E; inversion E; reflexivity].
  cbn [andb app]. apply push_some.
Qed.

Lemma push_children_some k avail o0 o1 num_open stk s :
  push_children n k avail o0 o1 num_open stk = Some s ->
  s = children n (mkNode k avail o0 o1 num_open) ++ stk.
Proof.
  clear Hn. unfold push_children, children.
  cbn [nk navail nopen0 nopen1 nnum_open].
  destruct (try_close n k avail num_open _ 0 o0 stk) as [s1|] eqn:E1;
    [|discriminate].
  apply try_close_some in E1. subst s1.
  destruct (try_close n k avail num_open _ 1 o1 _) as [s2|] eqn:E2;
    [|discriminate].
  apply try_close_some in E2. subst s2.
  unfold open_children. destruct (num_open <? n).
  - destruct (push n _ _) as [s3|] eqn:E3; [|discriminate].
    apply push_some in E3. subst s3. intros E4.
    apply push_some in E4. subst s. rewrite <- !app_assoc. reflexivity.
  - intros E. inversion E. rewrite <- !app_assoc. reflexivity.
Qed.

(** The reversal rule: a child that closes the value [1] has [k <= n]. *)
Lemma children_reversal nd c :
  In c (children n nd) -> fm c = 0 -> fk c = nk nd /\ nk nd <= n.
Proof.
  clear Hn. intros Hc Hm. split; [apply (children_fk n _ _ Hc)|].
  unfold children, open_children, close_child in Hc.
  rewrite !in_app_iff in Hc.
  destruct Hc as [H|[H|H]].
  - destruct (nnum_open nd <? n); cbn [In] in H;
      intuition (subst; discriminate).
  - destruct (nopen1 nd =? 0); [destruct H|].
    match type of H with
    | In _ (if ?a && ?b && ?c then _ else _) =>
        destruct a, b, c eqn:E; cbn [andb In] in H; try tauto
    end.
    destruct H as [<-|[]]. cbn [fm] in Hm. rewrite Hm in E.
    cbn in E. apply Z.leb_le in E. exact E.
  - destruct (nopen0 nd =? 0); [destruct H|].
    match type of H with
    | In _ (if ?a && ?b && ?c then _ else _) =>
        destruct a, b, c eqn:E; cbn [andb In] in H; try tauto
    end.
    destruct H as [<-|[]]. cbn [fm] in Hm. rewrite Hm in E.
    cbn in E. apply Z.leb_le in E. exact E.
Qed.

(** Every path begins with the frame pushed before the loop. *)
Lemma on_path_first path nd :
  on_path W n thread_id path nd -> path <> [] ->
  hd_error path = Some first_frame.
Proof.
  induction 1 as [|path nd f Hp IH O]; intros Hne; [congruence|].
  destruct path as [|g path].
  - inversion Hp as [E|p0 nd0 f0 Hp0 O0 E];
      [|destruct p0; discriminate].
    subst nd. unfold offers in O. cbn [nk root_node Z.eqb] in O.
    subst f. reflexivity.
  - cbn [app hd_error] in *. apply IH. discriminate.
Qed.

(** What the ledger gets from one worker. *)
Lemma dfs_valid ledger :
  exists fnd,
    dfs W n thread_id ledger = Some (ledger ++ fnd) /\
    forall p, In p fnd ->
      langford n p /\
      exists sd, noncrossing n p sd /\
                 forall v, 1 <= v <= n -> opening p v = 0 -> sd v = 0.
Proof.
  exists (found W n thread_id). split; [apply dfs_found; exact Hn|].
  intros p Hp. apply (complete_valid W n thread_id Hn).
  apply found_complete; assumption.
Qed.

End Frames.

(** ** The sequence of a Langford arrangement *)

Section Print.

Variables (n : Z) (p : Positions).
Hypothesis Hl : langford n p.

Lemma langford_closing v : 1 <= v <= n -> rd p (v - 1) = Some (closing p v).
Proof.
  intros Hv. destruct Hl as (Lp & _).
  destruct (rd_Some p (v - 1) ltac:(lia)) as (c & Hc).
  rewrite Hc. f_equal. symmetry. unfold closing. apply rd_nth. exact Hc.
Qed.

Lemma langford_unique t v w :
  0 <= t < 2 * n -> 1 <= v <= n -> 1 <= w <= n ->
  occupies p v t -> occupies p w t -> v = w.
Proof.
  intros Ht Hv Hw Ov Ow. destruct Hl as (_ & _ & Hs).
  destruct (Hs t Ht) as (u & _ & _ & Hu).
  rewrite (Hu v Hv Ov), (Hu w Hw Ow). reflexivity.
Qed.

Lemma place_values_ok ms s :
  NoDup ms -> (forall m, In m ms -> 1 <= m <= n) -> print_inv n p ms s ->
  exists s', place_values n p ms s = Some s' /\ print_inv n p [] s'.
Proof.
  revert s. induction ms as [|m ms IH]; intros s Hnd Hr Hinv.
  - exists s. split; [reflexivity|exact Hinv].
  - inversion Hnd as [|? ? Hm Hnd']; subst.
    pose proof (Hr m (or_introl eq_refl)) as Hmr.
    destruct Hl as (Lp & Ha & Hs).
    destruct (Ha m Hmr) as (A1 & A2 & A3).
    destruct Hinv as (Ls & Hi).
    assert (Free : forall t, 0 <= t < 2 * n -> occupies p m t ->
                             rd s t = Some (-1)).
    { intros t Ht Ot. destruct (Hi t Ht) as (c & Hc & [(-> & _)|(Hcr & Hn & Oc)]);
        [exact Hc|].
      exfalso. apply Hn. left.
      apply (langford_unique t m c); assumption. }
    cbn [place_values]. rewrite (langford_closing m Hmr).
    fold (opening p m).
    replace (0 <=? opening p m) with true by (symmetry; apply Z.leb_le; lia).
    replace (closing p m <? 2 * n) with true by (symmetry; apply Z.ltb_lt; lia).
    cbn [andb].
    rewrite (Free (opening p m)) by (lia || (left; reflexivity)).
    rewrite (Free (closing p m)) by (lia || (right; reflexivity)).
    cbn [Z.eqb andb Pos.eqb].
    rewrite wr_Some by lia.
    rewrite wr_Some by (rewrite length_upd; lia).
    apply IH; [exact Hnd'|intros x Hx; apply Hr; right; exact Hx|].
    split; [rewrite !length_upd; exact Ls|].
    intros t Ht.
    destruct (Z.eq_dec t (opening p m)) as [->|N1].
    { exists m. split; [apply rd_upd_same; rewrite length_upd; lia|].
      right. split; [exact Hmr|]. split; [exact Hm|]. left. reflexivity. }
    rewrite rd_upd_other by lia.
    destruct (Z.eq_dec t (closing p m)) as [->|N2].
    { exists m. split; [apply rd_upd_same; lia|].
      right. split; [exact Hmr|]. split; [exact Hm|]. right. reflexivity. }
    rewrite rd_upd_other by lia.
    destruct (Hi t Ht) as (c & Hc & [(-> & Hv)|(Hcr & Hn & Oc)]).
    + exists (-1). split; [exact Hc|]. left. split; [reflexivity|].
      intros v Hvr Ov. destruct (Hv v Hvr Ov) as [<-|Hin]; [|exact Hin].
      exfalso. destruct Ov; contradiction.
    + exists c. split; [exact Hc|]. right. split; [exact Hcr|].
      split; [|exact Oc]. intros Hin. apply Hn. right. exact Hin.
Qed.

Lemma values_In v : In v (values n) <-> 1 <= v <= n.
Proof.
  unfold values. rewrite in_map_iff. split.
  - intros (i & <- & Hi). apply in_seq in Hi. lia.
  - intros H. exists (Z.to_nat (v - 1)). split; [lia|]. apply in_seq. lia.
Qed.

Lemma values_NoDup : NoDup (values n).
Proof.
  unfold values. apply NoDup_map_NoDup_ForallPairs; [|apply seq_NoDup].
  intros a b _ _ H. lia.
Qed.

(** The assertions of [print] hold on a Langford arrangement, and the
    sequence it writes has every value in exactly its two slots. *)
Lemma print_langford :
  0 <= n ->
  exists s, print n p = Some s /\
    Z.of_nat (length s) = 2 * n /\
    forall t v, 0 <= t < 2 * n -> 1 <= v <= n ->
      (rd s t = Some v <-> occupies p v t).
Proof.
  intros Hn0.
  destruct (place_values_ok (values n) (repeat (-1) (Z.to_nat (2 * n))))
    as (s & Hs & (Ls & Hi)).
  - apply values_NoDup.
  - intros m. apply values_In.
  - split; [rewrite repeat_length; lia|].
    intros t Ht. exists (-1). split.
    + unfold rd. replace (t <? 0) with false by (symmetry; apply Z.ltb_ge; lia).
      apply nth_error_repeat. lia.
    + left. split; [reflexivity|]. intros v Hv _. apply values_In. exact Hv.
  - assert (Hc : forall t, 0 <= t < 2 * n ->
               exists c, rd s t = Some c /\ 1 <= c <= n /\ occupies p c t).
    { intros t Ht. destruct (Hi t Ht) as (c & Hc & [(-> & Hv)|(Hcr & _ & Oc)]).
      - exfalso. destruct Hl as (_ & _ & Hsl).
        destruct (Hsl t Ht) as (u & Hu & Ou & _). apply (Hv u Hu Ou).
      - exists c. auto. }
    exists s. unfold print. rewrite Hs.
    replace (forallb (fun m => (0 <=? m) && (m <=? n)) s) with true.
    + split; [reflexivity|]. split; [exact Ls|].
      intros t v Ht Hv. destruct (Hc t Ht) as (c & Hrc & Hcr & Oc).
      rewrite Hrc. split.
      * intros E. inversion E. subst c. exact Oc.
      * intros Ov. f_equal. apply (langford_unique t c v); assumption.
    + symmetry. apply forallb_forall. intros m Hm.
      apply In_nth_error in Hm. destruct Hm as (i & Hm).
      assert (Hi' : (i < length s)%nat)
        by (apply nth_error_Some; congruence).
      destruct (Hc (Z.of_nat i) ltac:(lia)) as (c & Hrc & Hcr & _).
      unfold rd in Hrc.
      replace (Z.of_nat i <? 0) with false in Hrc
        by (symmetry; apply Z.ltb_ge; lia).
      rewrite Nat2Z.id, Hm in Hrc. inversion Hrc. subst c.
      apply andb_true_iff. split; [apply Z.leb_le|apply Z.leb_le]; lia.
Qed.

End Print.

(** ** Every complete path is recorded *)

Section Recorded.

Variables (W n thread_id : Z).
Hypothesis Hn : 1 <= n <= 31.

Lemma descends_snoc nd fs nd' f :
  descends W n thread_id nd fs nd' -> offers W n thread_id nd' f ->
  descends W n thread_id nd (fs ++ [f]) (step_node n f nd').
Proof.
  induction 1 as [nd|nd g fs nd' O D IH]; intros Hf; cbn [app].
  - apply descends_cons; [exact Hf|apply descends_nil].
  - apply descends_cons; [exact O|apply IH; exact Hf].
Qed.

Lemma on_path_descends path nd :
  on_path W n thread_id path nd ->
  descends W n thread_id (root_node n) path nd.
Proof.
  induction 1 as [|path nd f Hp IH O]; [apply descends_nil|].
  apply descends_snoc; assumption.
Qed.

Lemma path_pos_snoc fs f p :
  path_pos (fs ++ [f]) p = place_pos (fk f) (fm f) (path_pos fs p).
Proof. unfold path_pos. rewrite fold_left_app. reflexivity. Qed.

Lemma length_path_pos fs p : length (path_pos fs p) = length p.
Proof.
  revert p. induction fs as [|f fs IH]; intros p; [reflexivity|].
  cbn [path_pos fold_left]. fold (path_pos fs (place_pos (fk f) (fm f) p)).
  rewrite IH. apply length_place_pos.
Qed.

(** The entry of a path that descends to a leaf is among the leaves of the
    subtree of its first decision. *)
Lemma leaves_descends depth :
  forall f fs nd v ndl p,
    view_inv n nd v -> offers W n thread_id nd f ->
    descends W n thread_id (step_node n f nd) fs ndl ->
    nk ndl = 2 * n -> 2 * n - fk f <= Z.of_nat depth ->
    In (path_pos (f :: fs) p) (leaves W n thread_id depth f nd p).
Proof.
  induction depth as [|depth IH]; intros f fs nd v ndl p I O D Hl Hd.
  - destruct (offers_facts W n thread_id Hn nd v f I O) as (_ & Hk & _). lia.
  - destruct (offers_facts W n thread_id Hn nd v f I O) as (Ek & Hk & _ & E1).
    pose proof (view_inv_step W n thread_id Hn nd v f I O) as I1.
    cbn [leaves path_pos fold_left].
    fold (path_pos fs (place_pos (fk f) (fm f) p)).
    inversion D as [nd0 E0 E1' E2|nd0 g gs nd0' Og Dg E0 E1' E2].
    + rewrite E2, Hl. unfold two_n. rewrite Z.eqb_refl. left. reflexivity.
    + assert (Hg : nk (step_node n f nd) <> two_n n /\
                   abandoned W n thread_id (step_node n f nd) = false /\
                   In g (children n (step_node n f nd))).
      { unfold offers in Og.
        destruct (Z.eqb_spec (nk (step_node n f nd)) 0) as [E|_]; [lia|].
        exact Og. }
      destruct Hg as (Hne & Hab & Hin).
      destruct (Z.eqb_spec (nk (step_node n f nd)) (two_n n)) as [E|_];
        [contradiction|].
      rewrite Hab. apply in_flat_map. exists g. split; [exact Hin|].
      apply (IH g gs (step_node n f nd) (step_view f v) ndl _ I1 Og Dg Hl).
      pose proof (children_fk n _ _ Hin). lia.
Qed.

Lemma records_path_pos path nd p0 :
  on_path W n thread_id path nd -> Z.of_nat (length p0) = n ->
  records (view_of path) (path_pos path p0).
Proof.
  induction 1 as [|path nd f Hp IH O]; intros L0.
  - intros a [].
  - rewrite (view_of_snoc path f), path_pos_snoc.
    apply (records_step W n thread_id Hn nd); auto.
    + apply (on_path_view W n thread_id Hn). exact Hp.
    + rewrite length_path_pos. exact L0.
Qed.

(** At a leaf the closed pairs determine the entry. *)
Lemma records_unique path nd p q :
  on_path W n thread_id path nd -> nk nd = 2 * n ->
  Z.of_nat (length p) = n -> Z.of_nat (length q) = n ->
  records (view_of path) p -> records (view_of path) q -> p = q.
Proof.
  intros Hp Hk Lp Lq Rp Rq.
  pose proof (on_path_view W n thread_id Hn _ _ Hp) as I.
  destruct (leaf_node n Hn _ _ I Hk) as (Ea & _).
  apply rd_ext; [lia|]. intros i Hi.
  assert (Hin : In i (map am (arcs (view_of path)))).
  { destruct (in_dec Z.eq_dec i (map am (arcs (view_of path)))) as [H|H];
      [exact H|].
    apply (vi_avail _ _ _ I) in H; [|lia].
    rewrite Ea, Z.bits_0 in H. discriminate. }
  apply in_map_iff in Hin. destruct Hin as (a & <- & Ha).
  rewrite (Rp a Ha), (Rq a Ha). reflexivity.
Qed.

(** The entry of every complete path is recorded by the worker. *)
Lemma complete_found p :
  complete W n thread_id p -> In p (found W n thread_id).
Proof.
  intros (path & nd & Hp & Hk & Lp & Hrec).
  pose proof (on_path_descends _ _ Hp) as D.
  assert (L0 : Z.of_nat (length (repeat 0 (Z.to_nat n))) = n)
    by (rewrite repeat_length; lia).
  assert (E : p = path_pos path (repeat 0 (Z.to_nat n))).
  { apply (records_unique path nd); auto.
    - rewrite length_path_pos. exact L0.
    - apply (records_path_pos path nd); assumption. }
  rewrite E. unfold found.
  inversion D as [nd0 E0 E1 E2|nd0 f fs nd0' O Df E0 E1 E2].
  - rewrite <- E2 in Hk. cbn [nk root_node] in Hk. lia.
  - assert (Ef : f = first_frame).
    { unfold offers in O. cbn [nk root_node Z.eqb] in O. exact O. }
    rewrite Ef in *.
    apply (leaves_descends _ first_frame fs (root_node n) empty_view nd).
    + apply view_inv_root. exact Hn.
    + exact O.
    + exact Df.
    + exact Hk.
    + cbn [fk first_frame]. lia.
Qed.

(** On a path the value [1] closes at a slot [k <= n]. *)
Lemma on_path_reversal path nd a :
  on_path W n thread_id path nd -> In a (arcs (view_of path)) ->
  am a = 0 -> aclose a <= n.
Proof.
  induction 1 as [|path nd f Hp IH O]; intros Ha Em; [destruct Ha|].
  pose proof (on_path_view W n thread_id Hn _ _ Hp) as I.
  rewrite view_of_snoc in Ha.
  destruct (offers_cases W n thread_id Hn nd _ f I O)
    as (Ek & _ & _ & Hd & [(Hm & _)|(t & l & Hpe & Hm & Hr & _ & Hrev & _)]).
  - rewrite (step_view_open _ f Hm) in Ha.
    destruct (fd f =? 0); cbn [arcs] in Ha; auto.
  - rewrite (step_view_close _ f t l Hpe ltac:(lia)) in Ha.
    destruct (fd f =? 0); cbn [arcs In] in Ha;
      (destruct Ha as [<-|Ha]; [cbn [am aclose] in *; lia|auto]).
Qed.

End Recorded.

(** ** The decisions of a complete path *)

Section LeafPaths.

Variables (W n thread_id : Z).
Hypothesis Hn : 1 <= n <= 31.

(** Every pair of the view is closed by the close decision of its closing
    slot and was opened by the open decision of its opening slot; both are
    decisions of the path, for the side of the pair. *)
Lemma arcs_frames path nd a :
  on_path W n thread_id path nd -> In a (arcs (view_of path)) ->
  exists f g,
    nth_error path (Z.to_nat (aclose a)) = Some f /\
    fk f = aclose a /\ fm f = am a /\ fd f = aside a /\
    nth_error path (Z.to_nat (aopen a)) = Some g /\
    fk g = aopen a /\ fm g = -1 /\ fd g = aside a.
Proof.
  induction 1 as [|path nd f Hp IH O]; intros Ha; [destruct Ha|].
  pose proof (on_path_view W n thread_id Hn _ _ Hp) as I.
  pose proof (on_path_length W n thread_id Hn _ _ Hp) as Hlen.
  assert (Hold : In a (arcs (view_of path)) ->
            exists f0 g,
              nth_error (path ++ [f]) (Z.to_nat (aclose a)) = Some f0 /\
              fk f0 = aclose a /\ fm f0 = am a /\ fd f0 = aside a /\
              nth_error (path ++ [f]) (Z.to_nat (aopen a)) = Some g /\
              fk g = aopen a /\ fm g = -1 /\ fd g = aside a).
  { intros H. destruct (IH H) as (f0 & g & A1 & A2 & A3 & A4 & B1 & B2).
    pose proof (vi_arcs _ _ _ I _ H) as (C1 & C2 & C3 & C4 & _).
    exists f0, g.
    rewrite !nth_error_app1 by lia. auto 10. }
  rewrite view_of_snoc in Ha.
  destruct (offers_cases W n thread_id Hn nd _ f I O)
    as (Hk & Hno & Hlt & Hfd &
        [(Hm & Ho & _)|(t & l & Hpd & Hm & Hmr & Hb & _ & Hpos)]).
  - rewrite step_view_open in Ha by assumption.
    apply Hold. destruct (fd f =? 0); exact Ha.
  - rewrite (step_view_close _ f t l) in Ha by (assumption || lia).
    assert (Hin : In t (pending (fd f) (view_of path)))
      by (rewrite Hpd; left; reflexivity).
    destruct (pending_opened W n thread_id Hn path nd (fd f) t Hp Hfd Hin)
      as (g & G1 & G2 & G3 & G4).
    assert (Ht : 0 <= t < nk nd).
    { unfold pending in Hin.
      destruct (fd f =? 0);
        [apply (desc_below_In _ _ _ (vi_desc0 _ _ _ I) Hin)
        |apply (desc_below_In _ _ _ (vi_desc1 _ _ _ I) Hin)]. }
    assert (Hnew : forall d, fd f = d ->
              a = mkArc d t (fk f) (fm f) ->
              exists f0 g0,
                nth_error (path ++ [f]) (Z.to_nat (aclose a)) = Some f0 /\
                fk f0 = aclose a /\ fm f0 = am a /\ fd f0 = aside a /\
                nth_error (path ++ [f]) (Z.to_nat (aopen a)) = Some g0 /\
                fk g0 = aopen a /\ fm g0 = -1 /\ fd g0 = aside a).
    { intros d Ed ->. cbn [aclose aopen am aside]. exists f, g.
      split.
      - rewrite nth_error_app2 by lia.
        replace (Z.to_nat (fk f) - length path)%nat with 0%nat by lia.
        reflexivity.
      - split; [reflexivity|]. split; [reflexivity|]. split; [exact Ed|].
        split; [rewrite nth_error_app1 by lia; exact G1|].
        split; [exact G2|]. split; [exact G3|]. congruence. }
    destruct (Z.eqb_spec (fd f) 0) as [E0|N0]; cbn [arcs In] in Ha;
      destruct Ha as [Ha|Ha]; auto.
    + apply (Hnew 0); auto.
    + apply (Hnew 1); [lia|auto].
Qed.

(** The sides a complete path has chosen: the entry it records is among
    the entries of the worker; every value is closed by a decision of the
    path at its closing slot and was opened by a decision of the same side
    at its opening slot; two pairs closed on the same side do not cross;
    the pair of slot [0] is closed on side [0], and the path begins with the
    frame pushed before the loop. *)
Lemma leaf_path_sides path nd p :
  on_path W n thread_id path nd -> nk nd = 2 * n ->
  p = path_pos path (repeat 0 (Z.to_nat n)) ->
  In p (found W n thread_id) /\
  (forall v, 1 <= v <= n ->
     exists f g,
       nth_error path (Z.to_nat (closing p v)) = Some f /\
       fk f = closing p v /\ fm f = v - 1 /\ (fd f = 0 \/ fd f = 1) /\
       nth_error path (Z.to_nat (opening p v)) = Some g /\
       fk g = opening p v /\ fm g = -1 /\ fd g = fd f) /\
  (forall v w f f', 1 <= v <= n -> 1 <= w <= n ->
     nth_error path (Z.to_nat (closing p v)) = Some f ->
     nth_error path (Z.to_nat (closing p w)) = Some f' ->
     fd f = fd f' ->
     ~ crossing (opening p v) (closing p v) (opening p w) (closing p w)) /\
  (forall v f, 1 <= v <= n -> opening p v = 0 ->
     nth_error path (Z.to_nat (closing p v)) = Some f -> fd f = 0) /\
  nth_error path 0 = Some first_frame.
Proof.
  intros Hp Hk Ep.
  assert (L0 : Z.of_nat (length (repeat 0 (Z.to_nat n))) = n)
    by (rewrite repeat_length; lia).
  assert (Lp : Z.of_nat (length p) = n)
    by (rewrite Ep, length_path_pos; exact L0).
  assert (Hrec : records (view_of path) p)
    by (rewrite Ep; apply (records_path_pos W n thread_id Hn path nd _ Hp L0)).
  destruct (complete_arcs W n thread_id Hn p path nd Hp Hk Lp Hrec)
    as (Hv & _ & _ & I).
  set (l := arcs (view_of path)) in *.
  assert (Hfr : forall v, 1 <= v <= n ->
     exists f g,
       nth_error path (Z.to_nat (closing p v)) = Some f /\
       fk f = closing p v /\ fm f = v - 1 /\
       fd f = aside (arc_of l (v - 1)) /\
       nth_error path (Z.to_nat (opening p v)) = Some g /\
       fk g = opening p v /\ fm g = -1 /\ fd g = fd f).
  { intros v Hvr. destruct (Hv v Hvr) as (Ha & Em & Ec & Eo).
    destruct (arcs_frames path nd _ Hp Ha)
      as (f & g & A1 & A2 & A3 & A4 & B1 & B2 & B3 & B4).
    exists f, g. rewrite Ec, Eo. repeat split; auto; congruence. }
  split; [|split; [|split; [|split]]].
  - apply (complete_found W n thread_id Hn).
    exists path, nd. auto.
  - intros v Hvr. destruct (Hfr v Hvr) as (f & g & A1 & A2 & A3 & A4 & B).
    exists f, g. split; [exact A1|]. split; [exact A2|]. split; [exact A3|].
    split; [|exact B].
    destruct (Hv v Hvr) as (Ha & _).
    pose proof (vi_arcs _ _ _ I _ Ha) as (_ & _ & _ & _ & Hs).
    rewrite A4. exact Hs.
  - intros v w f f' Hvr Hwr Ef Ef' Ed.
    destruct (Hfr v Hvr) as (f1 & _ & A1 & _ & _ & A4 & _).
    destruct (Hfr w Hwr) as (f2 & _ & B1 & _ & _ & B4 & _).
    rewrite Ef in A1. inversion A1; subst f1.
    rewrite Ef' in B1. inversion B1; subst f2.
    destruct (Hv v Hvr) as (Ha & _ & Ec & Eo).
    destruct (Hv w Hwr) as (Hb & _ & Ec' & Eo').
    rewrite Ec, Eo, Ec', Eo'. apply (vi_cross _ _ _ I); auto. congruence.
  - intros v f Hvr E0 Ef.
    destruct (Hfr v Hvr) as (f1 & _ & A1 & _ & _ & A4 & _).
    rewrite Ef in A1. inversion A1; subst f1. rewrite A4.
    destruct (Hv v Hvr) as (Ha & _ & _ & Eo).
    apply (proj2 (vi_first _ _ _ I) _ Ha). congruence.
  - pose proof (on_path_length W n thread_id Hn _ _ Hp) as Hlen.
    assert (Hne : path <> []) by (intros ->; cbn in Hlen; lia).
    pose proof (on_path_first W n thread_id path nd Hp Hne) as Hh.
    destruct path; [contradiction|exact Hh].
Qed.

(** Every entry of the worker is the [pos] array of a complete path. *)
Lemma found_path p :
  In p (found W n thread_id) ->
  exists path nd,
    on_path W n thread_id path nd /\ nk nd = 2 * n /\
    path_pos path (repeat 0 (Z.to_nat n)) = p.
Proof.
  intros Hin.
  destruct (found_complete W n thread_id Hn p Hin)
    as (path & nd & Hp & Hk & Lp & Hrec).
  exists path, nd. split; [exact Hp|]. split; [exact Hk|].
  assert (L0 : Z.of_nat (length (repeat 0 (Z.to_nat n))) = n)
    by (rewrite repeat_length; lia).
  symmetry. apply (records_unique W n thread_id Hn path nd); auto.
  - rewrite length_path_pos. exact L0.
  - apply (records_path_pos W n thread_id Hn path nd _ Hp L0).
Qed.

(** The first turn of the loop pops the frame pushed before the loop and
    opens a pair at slot [0] on side [0]: it sets the bit of slot [0] in
    [openings[0]], leaves [openings[1]] empty and the availability word
    full, records nothing, and the frames it pushes are open decisions for
    slot [1] with one pair open. *)
Lemma first_turn ledger :
  exists st1,
    dfs_step W n thread_id (init n ledger) = Some st1 /\
    rd (open st1) 2 = Some (2 ^ (2 * n - 1)) /\
    rd (open st1) 3 = Some 0 /\
    rd (availability st1) 1 = Some (2 ^ n - 1) /\
    pos st1 = pos (init n ledger) /\
    results st1 = ledger /\
    forall f, In f (stack st1) ->
      fk f = 1 /\ fm f = -1 /\ fnum_open f = 1 /\ (fd f = 0 \/ fd f = 1).
Proof.
  destruct (loop_inv_init W n thread_id Hn ledger) as (La & Lo & Lp & _).
  pose proof (at_level_init n Hn ledger) as Hat.
  pose proof (view_inv_root n Hn) as I0.
  assert (Off : offers W n thread_id (root_node n) first_frame)
    by (unfold offers; reflexivity).
  pose proof (view_inv_step W n thread_id Hn _ _ _ I0 Off) as I1.
  assert (Enode : step_node n first_frame (root_node n)
                  = mkNode 1 (2 ^ n - 1) (2 ^ (2 * n - 1)) 0 1).
  { rewrite (step_node_open n Hn (root_node n) empty_view first_frame I0
               eq_refl eq_refl);
      [|cbn [nk root_node]; lia|reflexivity|cbn [nnum_open root_node]; lia].
    cbn [nk root_node fd first_frame Z.eqb pend0 pend1 empty_view enc
         nnum_open Z.add].
    rewrite (root_avail_exact n Hn).
    replace (2 * n - 1 - 0) with (2 * n - 1) by lia.
    rewrite Z.add_0_r. reflexivity. }
  exists (step_state W n thread_id (init n ledger) first_frame []
            (root_node n)).
  split.
  { unfold dfs_step.
    change (stack (init n ledger)) with [first_frame].
    apply (dfs_body_spec W n thread_id Hn); auto.
    - cbn [fk first_frame]. lia.
    - cbn [fm first_frame]. lia.
    - intros _. cbn [length]. lia. }
  pose proof (at_level_step W n thread_id Hn (init n ledger) first_frame []
                (root_node n) La Lo ltac:(cbn [fk first_frame]; lia)) as (A & B & C).
  rewrite Enode in A, B, C. cbn [nk navail nopen0 nopen1] in A, B, C.
  split; [exact B|]. split; [exact C|]. split; [exact A|].
  unfold step_state. rewrite Enode. cbn [pos results stack nk].
  split; [reflexivity|].
  replace (1 =? two_n n) with false
    by (symmetry; apply Z.eqb_neq; unfold two_n; lia).
  split; [reflexivity|].
  intros f Hf.
  assert (Hc : In f (children n (mkNode 1 (2 ^ n - 1) (2 ^ (2 * n - 1)) 0 1)) /\
               abandoned W n thread_id
                 (mkNode 1 (2 ^ n - 1) (2 ^ (2 * n - 1)) 0 1) = false).
  { destruct (abandoned W n thread_id _); [destruct Hf|].
    rewrite app_nil_r in Hf. auto. }
  destruct Hc as (Hc & Hab).
  rewrite <- Enode in Hc, Hab.
  assert (Of : offers W n thread_id (step_node n first_frame (root_node n)) f).
  { unfold offers.
    destruct (Z.eqb_spec (nk (step_node n first_frame (root_node n))) 0)
      as [E|_]; [rewrite Enode in E; discriminate E|].
    split; [rewrite Enode; cbn [nk]; unfold two_n; lia|]. auto. }
  destruct (offers_cases W n thread_id Hn _ _ f I1 Of)
    as (Hk & Hno & _ & Hfd &
        [(Hm & _)|(t & l & Hpd & Hm & Hmr & _)]).
  - rewrite Enode in Hk, Hno. cbn [nk nnum_open] in Hk, Hno. auto.
  - exfalso. rewrite Enode in Hm. cbn [nk] in Hm.
    unfold pending, step_view in Hpd.
    cbn [fm fd fk first_frame side Z.leb Z.compare Z.eqb empty_view
         pend0 pend1] in Hpd.
    destruct (fd f =? 0); inversion Hpd; subst; lia.
Qed.

End LeafPaths.

(** * The claims *)

(** ** Fixture values (C1)

    The values below are obtained by evaluating the model.  For [n = 11] the
    count is evaluated on the tree of a single worker, which
    [solve_with_distinct] shows to be the count of [solve]. *)

Lemma fixture_3 : solve 3 = Some 1.
Proof. vm_cast_no_check (eq_refl (Some 1)). Qed.

Lemma fixture_4 : solve 4 = Some 0.
Proof. vm_cast_no_check (eq_refl (Some 0)). Qed.

Lemma fixture_7 : solve 7 = Some 0.
Proof. vm_cast_no_check (eq_refl (Some 0)). Qed.

Lemma fixture_8 : solve 8 = Some 4.
Proof. vm_cast_no_check (eq_refl (Some 4)). Qed.

Lemma kMaxThreads_range : 1 <= kMaxThreads < 2 ^ 31.
Proof. unfold kMaxThreads. change (2 ^ 31) with 2147483648. lia. Qed.

Lemma distinct_runs l : distinct l = runs (sort l).
Proof.
  rewrite (runs_distinct _ (sort_sorted l)).
  apply distinct_perm. apply sort_perm.
Qed.

Lemma fixture_11 : solve 11 = Some 16.
Proof.
  unfold solve.
  rewrite solve_with_distinct by (apply kMaxThreads_range || reflexivity).
  rewrite distinct_runs.
  vm_cast_no_check (eq_refl (Some 16)).
Qed.

(** ** C2 *)

(** C2: every entry a worker records is a Langford arrangement (each value
    [v] of [1 .. n] has two slots with [v] slots between them, each of the
    [2 n] slots holds exactly one value), its pairs can be drawn on two
    sides so that no two pairs of a side cross, and [print] writes it
    without a failed assertion as a sequence of length [2 n] in which every
    value stands in exactly its two slots.  The worker terminates and the
    entries are those it appends to the ledger.

    The sides are those the search has chosen.  Every entry is the [pos]
    array of a complete path of the search, and on every complete path,
    whose entry the worker records, the value [v] is closed by the decision
    of the path at its closing slot, a close decision for the index [v - 1]
    on a side [d], and was opened by the open decision of the path at its
    opening slot, on the same side [d]; two pairs whose close decisions
    have the same [d] do not cross. *)
Theorem recorded_solutions_valid W n thread_id ledger :
  1 <= n <= 31 ->
  exists fnd,
    dfs W n thread_id ledger = Some (ledger ++ fnd) /\
    (forall p, In p fnd ->
       langford n p /\ planar n p /\
       (exists s, print n p = Some s /\
          Z.of_nat (length s) = 2 * n /\
          forall t v, 0 <= t < 2 * n -> 1 <= v <= n ->
            (rd s t = Some v <-> occupies p v t)) /\
       exists path nd,
         on_path W n thread_id path nd /\ nk nd = 2 * n /\
         path_pos path (repeat 0 (Z.to_nat n)) = p) /\
    (forall path nd p,
       on_path W n thread_id path nd -> nk nd = 2 * n ->
       p = path_pos path (repeat 0 (Z.to_nat n)) ->
       In p fnd /\
       (forall v, 1 <= v <= n ->
          exists f g,
            nth_error path (Z.to_nat (closing p v)) = Some f /\
            fk f = closing p v /\ fm f = v - 1 /\ (fd f = 0 \/ fd f = 1) /\
            nth_error path (Z.to_nat (opening p v)) = Some g /\
            fk g = opening p v /\ fm g = -1 /\ fd g = fd f) /\
       (forall v w f f', 1 <= v <= n -> 1 <= w <= n ->
          nth_error path (Z.to_nat (closing p v)) = Some f ->
          nth_error path (Z.to_nat (closing p w)) = Some f' ->
          fd f = fd f' ->
          ~ crossing (opening p v) (closing p v)
                     (opening p w) (closing p w))).
Proof.
  intros Hn.
  exists (found W n thread_id). split; [apply dfs_found; exact Hn|]. split.
  - intros p Hp.
    destruct (complete_valid W n thread_id Hn p
                (found_complete W n thread_id Hn p Hp)) as (Hl & sd & Hs & _).
    split; [exact Hl|]. split; [exists sd; exact Hs|].
    split; [apply print_langford; [exact Hl|lia]|].
    apply (found_path W n thread_id Hn p Hp).
  - intros path nd p Hp Hk Ep.
    destruct (leaf_path_sides W n thread_id Hn path nd p Hp Hk Ep)
      as (Hin & Hfr & Hcr & _).
    split; [exact Hin|]. split; [exact Hfr|exact Hcr].
Qed.

Lemma recorded_solutions_valid_witness :
  exists fnd,
    dfs 511 3 0 [] = Some ([] ++ fnd) /\
    (forall p, In p fnd ->
       langford 3 p /\ planar 3 p /\
       (exists s, print 3 p = Some s /\
          Z.of_nat (length s) = 2 * 3 /\
          forall t v, 0 <= t < 2 * 3 -> 1 <= v <= 3 ->
            (rd s t = Some v <-> occupies p v t)) /\
       exists path nd,
         on_path 511 3 0 path nd /\ nk nd = 2 * 3 /\
         path_pos path (repeat 0 (Z.to_nat 3)) = p) /\
    (forall path nd p,
       on_path 511 3 0 path nd -> nk nd = 2 * 3 ->
       p = path_pos path (repeat 0 (Z.to_nat 3)) ->
       In p fnd /\
       (forall v, 1 <= v <= 3 ->
          exists f g,
            nth_error path (Z.to_nat (closing p v)) = Some f /\
            fk f = closing p v /\ fm f = v - 1 /\ (fd f = 0 \/ fd f = 1) /\
            nth_error path (Z.to_nat (opening p v)) = Some g /\
            fk g = opening p v /\ fm g = -1 /\ fd g = fd f) /\
       (forall v w f f', 1 <= v <= 3 -> 1 <= w <= 3 ->
          nth_error path (Z.to_nat (closing p v)) = Some f ->
          nth_error path (Z.to_nat (closing p w)) = Some f' ->
          fd f = fd f' ->
          ~ crossing (opening p v) (closing p v)
                     (opening p w) (closing p w))).
Proof. apply (recorded_solutions_valid 511 3 0 []). lia. Defined.

(** The one solution for [n = 3] and its sequence. *)
Lemma solution_3 :
  dfs 511 3 0 [] = Some [[3; 5; 4]] /\
  print 3 [3; 5; 4] = Some [3; 1; 2; 1; 3; 2].
Proof. split; vm_compute; reflexivity. Qed.

(** ** C3 *)



(** ** C4 *)

(** C4 as stated fails on the ledger of [solve<3>]: each of the 511
    workers appends the one solution [3; 5; 4], which lists the closing
    slots of the values 1, 2, 3 (the sequence is 3 1 2 1 3 2), and the
    finalisation leaves the 511 equal entries in place. *)
Lemma ledger_keeps_duplicates :
  run_workers kMaxThreads 3 (worker_ids kMaxThreads) []
    = Some (repeat [3; 5; 4] 511) /\
  map (closing [3; 5; 4]) [1; 2; 3] = [3; 5; 4] /\
  fst (unique_count (repeat [3; 5; 4] 511)) = repeat [3; 5; 4] 511 /\
  ~ merged (repeat [3; 5; 4] 511).
Proof.
  split; [vm_compute; reflexivity|]. split; [reflexivity|].
  assert (E : fst (unique_count (repeat [3; 5; 4] 511)) = repeat [3; 5; 4] 511)
    by (vm_compute; reflexivity).
  split; [exact E|].
  unfold merged. rewrite E. intros H.
  change (repeat [3; 5; 4] 511)
    with ([3; 5; 4] :: [3; 5; 4] :: repeat [3; 5; 4] 509) in H.
  inversion H as [|? ? Hnot _]. apply Hnot. left. reflexivity.
Qed.

(** C4, amended: the finalisation sorts the ledger by the entries
    themselves (the closing slot of each value, compared lexicographically),
    keeps every entry, and [solve] returns the number of maximal runs of
    equal entries of the sorted ledger, which is the number of distinct
    entries. *)
Theorem finalization_counts W n ledger :
  degenerate n = false ->
  run_workers W n (worker_ids W) [] = Some ledger ->
  Z.of_nat (length ledger) < 2 ^ 31 ->
  Permutation ledger (fst (unique_count ledger)) /\
  StronglySorted pos_le (fst (unique_count ledger)) /\
  solve_with W n = Some (runs (fst (unique_count ledger))) /\
  runs (fst (unique_count ledger)) = distinct ledger.
Proof.
  intros Hd Hr Hl.
  assert (Hl' : Z.of_nat (length ledger) < 2 ^ 63).
  { change (2 ^ 31) with 2147483648 in Hl.
    change (2 ^ 63) with 9223372036854775808. lia. }
  destruct (unique_count_spec ledger Hl') as (Hp & Hs & E1 & E2).
  split; [exact Hp|]. split; [exact Hs|]. split; [|congruence].
  unfold solve_with, solve_run. rewrite Hd, Hr, E1. f_equal.
  rewrite <- E1, E2. pose proof (distinct_range ledger).
  change (2 ^ 31) with 2147483648 in Hl. apply int32_id. lia.
Qed.

Lemma finalization_counts_witness :
  Permutation (repeat [3; 5; 4] 511)
    (fst (unique_count (repeat [3; 5; 4] 511))) /\
  StronglySorted pos_le (fst (unique_count (repeat [3; 5; 4] 511))) /\
  solve_with 511 3 = Some (runs (fst (unique_count (repeat [3; 5; 4] 511)))) /\
  runs (fst (unique_count (repeat [3; 5; 4] 511)))
    = distinct (repeat [3; 5; 4] 511).
Proof.
  apply (finalization_counts 511 3 (repeat [3; 5; 4] 511)).
  - reflexivity.
  - vm_compute. reflexivity.
  - vm_compute. reflexivity.
Defined.

(** ** C5 *)

(** C5: for [n <= 0], [n] above [kMaxN] and [n] congruent to 1 or 2 modulo
    4, [solve] returns 0 and starts no worker. *)
Theorem degenerate_returns_zero n :
  n <= 0 \/ kMaxN < n \/ n mod 4 = 1 \/ n mod 4 = 2 ->
  solve_run kMaxThreads n = Some (0, []) /\ solve n = Some 0.
Proof.
  intros H.
  assert (Hd : degenerate n = true).
  { unfold degenerate. destruct (Z.leb_spec n 0) as [|Hpos]; [reflexivity|].
    cbn [orb]. destruct (Z.ltb_spec kMaxN n); [reflexivity|]. cbn [orb].
    rewrite Z.rem_mod_nonneg by lia.
    destruct H as [H|[H|[H|H]]]; try lia; rewrite H; reflexivity. }
  unfold solve, solve_with, solve_run. rewrite Hd. split; reflexivity.
Qed.

Lemma degenerate_returns_zero_witness :
  (5 <= 0 \/ kMaxN < 5 \/ 5 mod 4 = 1 \/ 5 mod 4 = 2) /\
  solve_run kMaxThreads 5 = Some (0, []) /\ solve 5 = Some 0.
Proof.
  split; [right; right; left; reflexivity|].
  apply (degenerate_returns_zero 5). right. right. left. reflexivity.
Defined.

(** ** C6 *)

(** C6: a close frame [f] on the stack, after any number of turns, closes
    at its slot [fk f] the most recent pending opening [k'] of its side on
    its path: [k'] is the slot of an open decision of that side, younger
    than the other pending openings, the index [fm f] is the one the bit
    arithmetic [offset + ffsll] computes, and the value [fm f + 1] is
    [fk f - k' - 1]. *)
Theorem close_value_exact W n thread_id ledger j st f :
  1 <= n <= 31 ->
  turns W n thread_id j (init n ledger) = Some st ->
  In f (stack st) -> 0 <= fm f ->
  exists path nd k' older g,
    on_path W n thread_id path nd /\ at_level st nd /\ nk nd = fk f /\
    pending (fd f) (view_of path) = k' :: older /\
    (forall t, In t older -> t < k') /\
    nth_error path (Z.to_nat k') = Some g /\
    fk g = k' /\ fm g = -1 /\ fd g = fd f /\
    fm f = int8 (int8 (fk f - two_n n - 2)
                 + ffsll (if fd f =? 0 then nopen0 nd else nopen1 nd)) /\
    fm f + 1 = fk f - k' - 1 /\
    k' = fk f - (fm f + 1) - 1.
Proof.
  intros Hn Ht Hin Hm.
  destruct (stack_frames W n thread_id Hn ledger j st f Ht Hin)
    as (path & nd & Hp & Hat & Ho & I).
  destruct (offers_cases W n thread_id Hn nd _ f I Ho)
    as (Hk & Hno & Hlt & Hd & [(Hm' & _)|(t & l & Hpd & Em & Hmr & Hb & _ & Hk0)]);
    [lia|].
  assert (Hdesc : desc_below (nk nd) (t :: l)).
  { unfold pending in Hpd. rewrite <- Hpd.
    destruct (fd f =? 0); [apply (vi_desc0 _ _ _ I)|apply (vi_desc1 _ _ _ I)]. }
  destruct (pending_opened W n thread_id Hn path nd (fd f) t Hp Hd)
    as (g & Hg & G1 & G2 & G3).
  { rewrite Hpd. left. reflexivity. }
  exists path, nd, t, l, g.
  split; [exact Hp|]. split; [exact Hat|]. split; [auto|].
  split; [exact Hpd|]. split.
  { intros s Hs. eapply desc_below_older; eassumption. }
  split; [exact Hg|]. split; [exact G1|]. split; [exact G2|].
  split; [exact G3|]. split.
  { rewrite Hk, (close_formula n Hn nd _ (fd f) t l I Hd Hpd) by lia.
    exact Em. }
  lia.
Qed.

Lemma close_value_exact_witness :
  exists st,
    turns 511 3 0 4 (init 3 []) = Some st /\
    In (mkFrame 3 0 0 3) (stack st) /\
    exists path nd k' older g,
      on_path 511 3 0 path nd /\ at_level st nd /\ nk nd = 3 /\
      pending 0 (view_of path) = k' :: older /\
      (forall t, In t older -> t < k') /\
      nth_error path (Z.to_nat k') = Some g /\
      fk g = k' /\ fm g = -1 /\ fd g = 0 /\
      0 = int8 (int8 (3 - two_n 3 - 2)
                + ffsll (if 0 =? 0 then nopen0 nd else nopen1 nd)) /\
      0 + 1 = 3 - k' - 1 /\
      k' = 3 - (0 + 1) - 1.
Proof.
  eexists. split; [vm_compute; reflexivity|].
  split; [left; reflexivity|].
  apply (close_value_exact 511 3 0 [] 4 _ (mkFrame 3 0 0 3)).
  - lia.
  - vm_compute. reflexivity.
  - left. reflexivity.
  - cbn. lia.
Defined.

(** ** C7 *)

(** C7: the stack starts with the one frame [(0, -1, 0, 0)], and the first
    turn of the loop, which pops and processes it, opens a pair at slot 0 on
    side 0: it sets the bit of slot 0 (bit [2 n - 1]) in [openings[0]],
    leaves [openings[1]] empty and the availability word full, writes no
    closing slot, records nothing, and pushes only open decisions for slot
    1 that count one open pair.  Every path of the search begins with this
    frame.  Every entry a worker records is the [pos] array of a complete
    path of the search, and on every complete path, whose entry the worker
    records, the first decision is this frame and the decision that closes
    the pair of slot 0 is a close decision on side 0.  A frame that closes
    the value 1 (index 0) is pushed only at a slot [k <= n], and so is every
    such frame found on the stack. *)
Theorem mirror_pruning W n thread_id ledger :
  1 <= n <= 31 ->
  stack (init n ledger) = [mkFrame 0 (-1) 0 0] /\
  (exists st1,
     dfs_step W n thread_id (init n ledger) = Some st1 /\
     rd (open st1) 2 = Some (2 ^ (2 * n - 1)) /\
     rd (open st1) 3 = Some 0 /\
     rd (availability st1) 1 = Some (2 ^ n - 1) /\
     pos st1 = pos (init n ledger) /\
     results st1 = ledger /\
     forall f, In f (stack st1) ->
       fk f = 1 /\ fm f = -1 /\ fnum_open f = 1 /\ (fd f = 0 \/ fd f = 1)) /\
  (forall path nd, on_path W n thread_id path nd -> path <> [] ->
     hd_error path = Some (mkFrame 0 (-1) 0 0)) /\
  (exists fnd,
     dfs W n thread_id ledger = Some (ledger ++ fnd) /\
     (forall p, In p fnd ->
        exists path nd,
          on_path W n thread_id path nd /\ nk nd = 2 * n /\
          path_pos path (repeat 0 (Z.to_nat n)) = p) /\
     (forall path nd p,
        on_path W n thread_id path nd -> nk nd = 2 * n ->
        p = path_pos path (repeat 0 (Z.to_nat n)) ->
        In p fnd /\
        nth_error path 0 = Some (mkFrame 0 (-1) 0 0) /\
        forall v, 1 <= v <= n -> opening p v = 0 ->
          exists f,
            nth_error path (Z.to_nat (closing p v)) = Some f /\
            fk f = closing p v /\ fm f = v - 1 /\ fd f = 0)) /\
  (forall k avail o0 o1 num_open stk stk',
     push_children n k avail o0 o1 num_open stk = Some stk' ->
     exists cs, stk' = cs ++ stk /\
                forall c, In c cs -> fm c = 0 -> fk c = k /\ k <= n) /\
  (forall j st f,
     turns W n thread_id j (init n ledger) = Some st ->
     In f (stack st) -> fm f = 0 -> fk f <= n).
Proof.
  intros Hn. split; [reflexivity|].
  split; [apply (first_turn W n thread_id Hn ledger)|].
  split; [|split; [|split]].
  - intros path nd Hp Hne. apply (on_path_first W n thread_id path nd Hp Hne).
  - exists (found W n thread_id). split; [apply dfs_found; exact Hn|]. split.
    + intros p Hp. apply (found_path W n thread_id Hn p Hp).
    + intros path nd p Hp Hk Ep.
      destruct (leaf_path_sides W n thread_id Hn path nd p Hp Hk Ep)
        as (Hin & Hfr & _ & H0 & Hfirst).
      split; [exact Hin|]. split; [exact Hfirst|].
      intros v Hv Eo.
      destruct (Hfr v Hv) as (f & _ & A1 & A2 & A3 & _).
      exists f. split; [exact A1|]. split; [exact A2|]. split; [exact A3|].
      apply (H0 v f Hv Eo A1).
  - intros k avail o0 o1 num_open stk stk' H.
    apply push_children_some in H.
    exists (children n (mkNode k avail o0 o1 num_open)).
    split; [exact H|]. intros c Hc Hm.
    apply (children_reversal n _ c Hc Hm).
  - intros j st f Ht Hin Hm.
    destruct (stack_frames W n thread_id Hn ledger j st f Ht Hin)
      as (path & nd & Hp & Hat & Ho & I).
    unfold offers in Ho. destruct (nk nd =? 0).
    + subst f. discriminate.
    + destruct Ho as (_ & _ & Hc).
      destruct (children_reversal n _ f Hc Hm). lia.
Qed.

Lemma mirror_pruning_witness :
  stack (init 3 []) = [mkFrame 0 (-1) 0 0] /\
  (exists st1,
     dfs_step 511 3 0 (init 3 []) = Some st1 /\
     rd (open st1) 2 = Some (2 ^ (2 * 3 - 1)) /\
     rd (open st1) 3 = Some 0 /\
     rd (availability st1) 1 = Some (2 ^ 3 - 1) /\
     pos st1 = pos (init 3 []) /\
     results st1 = [] /\
     forall f, In f (stack st1) ->
       fk f = 1 /\ fm f = -1 /\ fnum_open f = 1 /\ (fd f = 0 \/ fd f = 1)) /\
  (forall path nd, on_path 511 3 0 path nd -> path <> [] ->
     hd_error path = Some (mkFrame 0 (-1) 0 0)) /\
  (exists fnd,
     dfs 511 3 0 [] = Some ([] ++ fnd) /\
     (forall p, In p fnd ->
        exists path nd,
          on_path 511 3 0 path nd /\ nk nd = 2 * 3 /\
          path_pos path (repeat 0 (Z.to_nat 3)) = p) /\
     (forall path nd p,
        on_path 511 3 0 path nd -> nk nd = 2 * 3 ->
        p = path_pos path (repeat 0 (Z.to_nat 3)) ->
        In p fnd /\
        nth_error path 0 = Some (mkFrame 0 (-1) 0 0) /\
        forall v, 1 <= v <= 3 -> opening p v = 0 ->
          exists f,
            nth_error path (Z.to_nat (closing p v)) = Some f /\
            fk f = closing p v /\ fm f = v - 1 /\ fd f = 0)) /\
  (forall k avail o0 o1 num_open stk stk',
     push_children 3 k avail o0 o1 num_open stk = Some stk' ->
     exists cs, stk' = cs ++ stk /\
                forall c, In c cs -> fm c = 0 -> fk c = k /\ k <= 3) /\
  (forall j st f,
     turns 511 3 0 j (init 3 []) = Some st ->
     In f (stack st) -> fm f = 0 -> fk f <= 3).
Proof. apply (mirror_pruning 511 3 0 []). lia. Defined.

(** ** C8 *)

(** C8: the frame [f] about to be popped, after any number of turns, is a
    decision offered at the node [nd] of a path of the search whose cells
    hold the node; there the availability word has [n] minus the number of
    close decisions of the path bits set, [num_open] counts the open
    decisions and does not exceed [n] (before and after the decision), the
    values closed on the path are pairwise distinct, a close decision takes
    a value whose bit is set and which the path has not closed, and when
    the decision completes the path ([k = 2 n]) the path has [2 n]
    decisions of which [n] close, no value is left and no opening is
    pending. *)
Theorem search_invariants W n thread_id ledger j st f rest :
  1 <= n <= 31 ->
  turns W n thread_id j (init n ledger) = Some st ->
  stack st = f :: rest ->
  exists path nd,
    on_path W n thread_id path nd /\ at_level st nd /\
    offers W n thread_id nd f /\
    nk nd = fk f /\ Z.of_nat (length path) = fk f /\
    nnum_open nd = fnum_open f /\
    fnum_open f = Z.of_nat (length (opens path)) /\
    popcount (navail nd) = n - Z.of_nat (length (closes path)) /\
    fnum_open f <= n /\ nnum_open (step_node n f nd) <= n /\
    NoDup (map fm (closes path)) /\
    (0 <= fm f ->
       0 <= fm f < n /\ Z.testbit (navail nd) (fm f) = true /\
       ~ In (fm f) (map fm (closes path))) /\
    (nk (step_node n f nd) = 2 * n ->
       Z.of_nat (length (path ++ [f])) = 2 * n /\
       Z.of_nat (length (closes (path ++ [f]))) = n /\
       navail (step_node n f nd) = 0 /\
       nopen0 (step_node n f nd) = 0 /\ nopen1 (step_node n f nd) = 0 /\
       pend0 (view_of (path ++ [f])) = [] /\
       pend1 (view_of (path ++ [f])) = []).
Proof.
  intros Hn Ht Hstk.
  destruct (stack_frames W n thread_id Hn ledger j st f Ht)
    as (path & nd & Hp & Hat & Ho & I).
  { rewrite Hstk. left. reflexivity. }
  exists path, nd.
  destruct (path_counts W n thread_id Hn path nd Hp) as (C1 & C2 & C3).
  pose proof (on_path_length W n thread_id Hn path nd Hp) as Hlen.
  assert (Hp1 : on_path W n thread_id (path ++ [f]) (step_node n f nd))
    by (constructor; assumption).
  pose proof (on_path_view W n thread_id Hn _ _ Hp1) as I1.
  destruct (offers_cases W n thread_id Hn nd _ f I Ho)
    as (Hk & Hno & Hlt & Hd & Hc).
  assert (Hla : length (arcs (view_of path)) = length (closes path)).
  { rewrite <- (length_map am), C1, length_rev, length_map. reflexivity. }
  assert (Hnd : NoDup (map fm (closes path))).
  { pose proof (NoDup_rev (vi_nodup _ _ _ I)) as H.
    rewrite C1, rev_involutive in H. exact H. }
  split; [exact Hp|]. split; [exact Hat|]. split; [exact Ho|].
  split; [auto|]. split; [lia|]. split; [auto|]. split; [lia|].
  split; [rewrite (vi_popcount _ _ _ I), Hla; reflexivity|].
  split; [rewrite Hno; apply (vi_num_le _ _ _ I)|].
  split; [apply (vi_num_le _ _ _ I1)|].
  split; [exact Hnd|]. split.
  - intros Hm.
    destruct Hc as [(Hm' & _)|(t & l & _ & _ & Hmr & Hb & _)]; [lia|].
    split; [exact Hmr|]. split; [exact Hb|].
    intros Hin. apply (proj1 (vi_avail _ _ _ I (fm f) Hmr) Hb).
    rewrite C1. apply -> in_rev. exact Hin.
  - intros Hleaf.
    destruct (leaf_node n Hn _ _ I1 Hleaf) as (L1 & L2 & L3 & L4 & L5 & L6 & _).
    destruct (path_counts W n thread_id Hn _ _ Hp1) as (D1 & _ & _).
    pose proof (on_path_length W n thread_id Hn _ _ Hp1) as Hlen1.
    split; [lia|]. split.
    { rewrite <- L6, <- (length_map am), D1, length_rev, length_map.
      reflexivity. }
    auto 10.
Qed.

Lemma search_invariants_witness :
  exists st,
    turns 511 3 0 4 (init 3 []) = Some st /\
    stack st = mkFrame 3 0 0 3 :: [mkFrame 1 (-1) 1 1] /\
    exists path nd,
      on_path 511 3 0 path nd /\ at_level st nd /\
      offers 511 3 0 nd (mkFrame 3 0 0 3) /\
      nk nd = 3 /\ Z.of_nat (length path) = 3 /\
      nnum_open nd = 3 /\
      3 = Z.of_nat (length (opens path)) /\
      popcount (navail nd) = 3 - Z.of_nat (length (closes path)) /\
      3 <= 3 /\ nnum_open (step_node 3 (mkFrame 3 0 0 3) nd) <= 3 /\
      NoDup (map fm (closes path)) /\
      (0 <= 0 ->
         0 <= 0 < 3 /\ Z.testbit (navail nd) 0 = true /\
         ~ In 0 (map fm (closes path))) /\
      (nk (step_node 3 (mkFrame 3 0 0 3) nd) = 2 * 3 ->
         Z.of_nat (length (path ++ [mkFrame 3 0 0 3])) = 2 * 3 /\
         Z.of_nat (length (closes (path ++ [mkFrame 3 0 0 3]))) = 3 /\
         navail (step_node 3 (mkFrame 3 0 0 3) nd) = 0 /\
         nopen0 (step_node 3 (mkFrame 3 0 0 3) nd) = 0 /\
         nopen1 (step_node 3 (mkFrame 3 0 0 3) nd) = 0 /\
         pend0 (view_of (path ++ [mkFrame 3 0 0 3])) = [] /\
         pend1 (view_of (path ++ [mkFrame 3 0 0 3])) = []).
Proof.
  eexists. split; [vm_compute; reflexivity|].
  split; [reflexivity|].
  apply (search_invariants 511 3 0 [] 4 _ (mkFrame 3 0 0 3)
           [mkFrame 1 (-1) 1 1]).
  - lia.
  - vm_compute. reflexivity.
  - reflexivity.
Defined.

(** ** C9 *)

(** C9: for [1 <= n <= kMaxN] the loop runs any number of turns without an
    access out of bounds; at every moment the stack holds at most [6 n]
    frames, that is [24 n] bytes, the arrays keep their declared sizes, and
    the indices [k], [k + 1] into [availability], [2 k .. 2 k + 3] into
    [open] and [m] into [pos] of every frame on the stack are inside
    them. *)
Theorem memory_safe W n thread_id ledger j :
  1 <= n <= 31 ->
  exists st,
    turns W n thread_id j (init n ledger) = Some st /\
    Z.of_nat (length (stack st)) <= 6 * n /\
    4 * Z.of_nat (length (stack st)) <= 24 * n /\
    Z.of_nat (length (availability st)) = 2 * n + 1 /\
    Z.of_nat (length (open st)) = 4 * n + 2 /\
    Z.of_nat (length (pos st)) = n /\
    forall f, In f (stack st) ->
      0 <= fk f /\ fk f + 1 < 2 * n + 1 /\ 2 * fk f + 3 < 4 * n + 2 /\
      fm f < n.
Proof.
  intros Hn.
  destruct (turns_inv W n thread_id Hn ledger j (init n ledger)
              (loop_inv_init W n thread_id Hn ledger)) as (st & Ht & Hinv).
  exists st. split; [exact Ht|].
  assert (Hf : forall f, In f (stack st) ->
             0 <= fk f /\ fk f + 1 < 2 * n + 1 /\ 2 * fk f + 3 < 4 * n + 2 /\
             fm f < n).
  { intros f Hin.
    destruct (stack_frames W n thread_id Hn ledger j st f Ht Hin)
      as (path & nd & Hp & Hat & Ho & I).
    destruct (offers_facts W n thread_id Hn nd _ f I Ho) as (_ & Hk & Hm & _).
    lia. }
  destruct Hinv as (La & Lo & Lp & Hsh & _).
  assert (Hlen : Z.of_nat (length (stack st)) <= 6 * n).
  { destruct (stack st) as [|f r] eqn:E; [cbn [length]; lia|].
    cbn [shape] in Hsh. destruct Hsh as (Hr & _).
    specialize (Hf f (or_introl eq_refl)). cbn [length]. lia. }
  repeat split; try assumption; try lia; apply Hf; assumption.
Qed.

Lemma memory_safe_witness :
  exists st,
    turns 511 3 0 4 (init 3 []) = Some st /\
    Z.of_nat (length (stack st)) <= 6 * 3 /\
    4 * Z.of_nat (length (stack st)) <= 24 * 3 /\
    Z.of_nat (length (availability st)) = 2 * 3 + 1 /\
    Z.of_nat (length (open st)) = 4 * 3 + 2 /\
    Z.of_nat (length (pos st)) = 3 /\
    forall f, In f (stack st) ->
      0 <= fk f /\ fk f + 1 < 2 * 3 + 1 /\ 2 * fk f + 3 < 4 * 3 + 2 /\
      fm f < 3.
Proof. apply (memory_safe 511 3 0 [] 4). lia. Defined.

(** ** C10 *)

(** The quantities C10 lists stay in their types for [1 <= n <= kMaxN]: the
    shift amounts, the four fields of every frame on the stack, the offset
    [k - 2 n - 2], and the words of the node of the frame. *)
Lemma listed_quantities_in_range W n thread_id ledger j st f :
  1 <= n <= 31 ->
  turns W n thread_id j (init n ledger) = Some st -> In f (stack st) ->
  0 <= n - 1 < 32 /\ 0 <= 2 * n - 1 < 63 /\
  in_int8 (fk f) /\ in_int8 (fk f + 1) /\ in_int8 (fm f) /\
  in_int8 (fd f) /\ in_int8 (fnum_open f) /\ in_int8 (fnum_open f + 1) /\
  in_int8 (fk f + 1 - 2 * n - 2) /\
  exists nd, at_level st nd /\ nk nd = fk f /\
    0 <= navail nd < 2 ^ 31 /\
    0 <= nopen0 nd < 2 ^ 62 /\ 0 <= nopen1 nd < 2 ^ 62.
Proof.
  intros Hn Ht Hin.
  destruct (stack_frames W n thread_id Hn ledger j st f Ht Hin)
    as (path & nd & Hp & Hat & Ho & I).
  destruct (offers_cases W n thread_id Hn nd _ f I Ho)
    as (Hk & Hno & Hlt & Hd & Hc).
  pose proof (vi_k _ _ _ I). pose proof (vi_num _ _ _ I).
  pose proof (vi_num_le _ _ _ I).
  assert (-1 <= fm f < n) by (destruct Hc as [?|(t & l & ?)]; lia).
  unfold in_int8. repeat (split; [lia|]).
  exists nd. split; [exact Hat|]. split; [auto|].
  pose proof (vi_avail_range _ _ _ I).
  pose proof (pow2_n_le n Hn). pose proof (pow2_2n_le n Hn).
  change (2 ^ 31) with 2147483648. rewrite pow2_62.
  rewrite (vi_open0 _ _ _ I), (vi_open1 _ _ _ I).
  pose proof (enc_range n (nk nd) _ (vi_desc0 _ _ _ I) ltac:(lia)).
  pose proof (enc_range n (nk nd) _ (vi_desc1 _ _ _ I) ltac:(lia)).
  lia.
Qed.

(** C10: the product [131071 * (openings[1] - openings[0])] of the hash
    leaves the range of [int64_t] for [n = 24].  After fifteen turns worker
    0 pops the frame that opens slot 15; this sixteenth turn reaches the
    partition depth [k_limit = 16] with the openings words [2^48 - 2^32]
    and [0], evaluates the hash on them (the branch turns out to belong to
    another worker), and the product is below [-2^63]. *)
Theorem hash_product_overflows :
  k_limit 24 = 16 /\
  exists st15 st16 rest,
    turns kMaxThreads 24 0 15 (init 24 []) = Some st15 /\
    stack st15 = mkFrame 15 (-1) 0 15 :: rest /\
    dfs_step kMaxThreads 24 0 st15 = Some st16 /\
    rd (availability st16) 16 = Some 16777215 /\
    rd (open st16) 32 = Some 281470681743360 /\
    rd (open st16) 33 = Some 0 /\
    not_mine kMaxThreads 24 0 16 16777215 281470681743360 0 = true /\
    stack st16 = rest /\
    hash_product 281470681743360 0 = -36892643726783938560 /\
    ~ in_int64 (hash_product 281470681743360 0).
Proof.
  split; [reflexivity|].
  eexists. eexists. eexists.
  split; [vm_compute; reflexivity|].
  split; [reflexivity|].
  split; [vm_compute; reflexivity|].
  split; [reflexivity|]. split; [reflexivity|]. split; [reflexivity|].
  split; [vm_compute; reflexivity|].
  split; [reflexivity|]. split; [reflexivity|].
  unfold in_int64. change (hash_product 281470681743360 0)
    with (-36892643726783938560).
  change (2 ^ 63) with 9223372036854775808. lia.
Qed.

(** * Further properties *)

(** ** Every planar Langford arrangement is a path of the search *)

Lemma filter_none {A} (P : A -> bool) l :
  (forall x, In x l -> P x = false) -> filter P l = [].
Proof.
  induction l as [|x l IH]; intros H; [reflexivity|].
  cbn [filter]. rewrite (H x (or_introl eq_refl)).
  apply IH. intros y Hy. apply H. right. exact Hy.
Qed.

Lemma filter_length_le {A} (P : A -> bool) l :
  (length (filter P l) <= length l)%nat.
Proof.
  induction l as [|x l IH]; [apply le_n|].
  cbn [filter]. destruct (P x); cbn [length]; lia.
Qed.

Lemma filter_length_excl {A} (P : A -> bool) l x :
  In x l -> P x = false -> (length (filter P l) < length l)%nat.
Proof.
  induction l as [|y l IH]; intros Hin HP; [destruct Hin|].
  cbn [filter length]. destruct Hin as [->|Hin].
  - rewrite HP. pose proof (filter_length_le P l). lia.
  - specialize (IH Hin HP). destruct (P y); cbn [length]; lia.
Qed.

Lemma filter_below_same (g : Z -> Z) k l :
  (forall y, In y l -> g y <> k) ->
  filter (fun v => g v <? k + 1) l = filter (fun v => g v <? k) l.
Proof.
  intros H. apply filter_ext_in. intros y Hy. specialize (H y Hy).
  destruct (Z.ltb_spec (g y) (k + 1)), (Z.ltb_spec (g y) k); lia || reflexivity.
Qed.

Lemma filter_below_step (g : Z -> Z) k l x :
  NoDup l -> In x l -> g x = k -> (forall y, In y l -> g y = k -> y = x) ->
  length (filter (fun v => g v <? k + 1) l)
  = S (length (filter (fun v => g v <? k) l)).
Proof.
  induction l as [|y l IH]; intros Hnd Hin Hx Hu; [destruct Hin|].
  inversion Hnd as [|? ? Hy Hnd']; subst.
  cbn [filter]. destruct Hin as [->|Hin].
  - replace (g x <? g x + 1) with true by (symmetry; apply Z.ltb_lt; lia).
    rewrite Z.ltb_irrefl. cbn [length]. f_equal. f_equal.
    apply filter_below_same. intros z Hz E.
    apply Hy. rewrite <- (Hu z (or_intror Hz) E). exact Hz.
  - assert (g y <> g x).
    { intros E. apply Hy. rewrite (Hu y (or_introl eq_refl) E). exact Hin. }
    assert (IH' : length (filter (fun v => g v <? g x + 1) l)
                  = S (length (filter (fun v => g v <? g x) l))).
    { apply IH; auto. intros z Hz. apply Hu. right. exact Hz. }
    destruct (Z.ltb_spec (g y) (g x + 1)), (Z.ltb_spec (g y) (g x));
      cbn [length]; lia.
Qed.

Lemma length_values n : 0 <= n -> Z.of_nat (length (values n)) = n.
Proof. intros H. unfold values. rewrite length_map, length_seq. lia. Qed.

(** The pending openings and the pairs after an open and after a close
    decision. *)
Lemma pending_open v f d :
  fm f = -1 -> fd f = 0 \/ fd f = 1 -> d = 0 \/ d = 1 ->
  pending d (step_view f v)
  = (if d =? fd f then fk f :: pending d v else pending d v) /\
  arcs (step_view f v) = arcs v.
Proof.
  intros Hm Hf Hd. rewrite (step_view_open v f Hm). unfold pending.
  destruct Hf as [-> | ->], Hd as [-> | ->]; cbn; auto.
Qed.

Lemma pending_close v f d t l :
  pending (fd f) v = t :: l -> 0 <= fm f ->
  fd f = 0 \/ fd f = 1 -> d = 0 \/ d = 1 ->
  pending d (step_view f v) = (if d =? fd f then l else pending d v) /\
  arcs (step_view f v) = mkArc (fd f) t (fk f) (fm f) :: arcs v.
Proof.
  intros Hp Hm Hf Hd. rewrite (step_view_close v f t l Hp Hm). unfold pending.
  destruct Hf as [-> | ->], Hd as [-> | ->]; cbn; auto.
Qed.

Section Construct.

Variables (n : Z) (p : Positions) (sd : Z -> Z).
Hypothesis Hn : 1 <= n <= 31.
Hypothesis Hl : langford n p.
Hypothesis Hs : noncrossing n p sd.
Hypothesis H0 : forall v, 1 <= v <= n -> opening p v = 0 -> sd v = 0.
Hypothesis H1 : closing p 1 <= n.

Lemma langford_slots v :
  1 <= v <= n ->
  0 <= opening p v /\ opening p v < closing p v /\ closing p v < 2 * n /\
  closing p v = opening p v + v + 1.
Proof.
  destruct Hl as (_ & Ha & _). intros Hv. destruct (Ha v Hv) as (A & B & C).
  unfold opening in *. lia.
Qed.

Lemma langford_occupant t :
  0 <= t < 2 * n -> exists v, 1 <= v <= n /\ occupies p v t.
Proof.
  destruct Hl as (_ & _ & Ho). intros Ht.
  destruct (Ho t Ht) as (v & Hv & Hov & _). eauto.
Qed.

Lemma same_opening v w :
  1 <= v <= n -> 1 <= w <= n -> opening p v = opening p w -> v = w.
Proof.
  intros Hv Hw E. pose proof (langford_slots v Hv).
  apply (langford_unique n p Hl (opening p v)); auto; [lia|left; auto|].
  left. exact E.
Qed.

Lemma same_closing v w :
  1 <= v <= n -> 1 <= w <= n -> closing p v = closing p w -> v = w.
Proof.
  intros Hv Hw E. pose proof (langford_slots v Hv).
  apply (langford_unique n p Hl (closing p v)); auto; [lia|right; auto|].
  right. exact E.
Qed.

Lemma open_close_distinct v w :
  1 <= v <= n -> 1 <= w <= n -> opening p v <> closing p w.
Proof.
  intros Hv Hw E. pose proof (langford_slots v Hv).
  pose proof (langford_slots w Hw).
  assert (v = w).
  { apply (langford_unique n p Hl (opening p v)); auto; [lia|left; auto|].
    right. exact E. }
  subst w. lia.
Qed.

Lemma opened_zero : opened n p 0 = [].
Proof.
  unfold opened. apply filter_none. intros v Hv. apply values_In in Hv.
  pose proof (langford_slots v Hv). apply Z.ltb_ge. lia.
Qed.

Lemma opened_lt k v :
  1 <= v <= n -> k <= opening p v -> Z.of_nat (length (opened n p k)) < n.
Proof.
  intros Hv Hk.
  assert (H : (length (opened n p k) < length (values n))%nat).
  { unfold opened. apply (filter_length_excl _ _ v).
    - apply values_In. exact Hv.
    - apply Z.ltb_ge. exact Hk. }
  pose proof (length_values n ltac:(lia)). lia.
Qed.

Lemma opened_open k v :
  1 <= v <= n -> opening p v = k ->
  Z.of_nat (length (opened n p (k + 1)))
  = Z.of_nat (length (opened n p k)) + 1.
Proof.
  intros Hv E. unfold opened.
  rewrite (filter_below_step (opening p) k (values n) v).
  - lia.
  - apply values_NoDup.
  - apply values_In. exact Hv.
  - exact E.
  - intros y Hy Ey. apply values_In in Hy. apply same_opening; auto. lia.
Qed.

Lemma opened_close k v :
  1 <= v <= n -> closing p v = k -> opened n p (k + 1) = opened n p k.
Proof.
  intros Hv E. unfold opened. apply filter_below_same.
  intros y Hy Ey. apply values_In in Hy.
  apply (open_close_distinct y v Hy Hv). lia.
Qed.

Lemma side_cases v : 1 <= v <= n -> sd v = 0 \/ sd v = 1.
Proof. apply (proj1 Hs). Qed.

(** The path of the first [k] slots can be extended by the decision of
    slot [k]. *)
Lemma path_extend path nd k :
  on_path 1 n 0 path nd -> nk nd = k -> 0 <= k < 2 * n ->
  matches n p sd k (view_of path) ->
  nnum_open nd = Z.of_nat (length (opened n p k)) ->
  exists f,
    offers 1 n 0 nd f /\
    nk (step_node n f nd) = k + 1 /\
    matches n p sd (k + 1) (view_of (path ++ [f])) /\
    nnum_open (step_node n f nd) = Z.of_nat (length (opened n p (k + 1))).
Proof.
  intros Hp Ek Hk (Mp & Ma) Eno.
  pose proof (on_path_view 1 n 0 Hn _ _ Hp) as I.
  set (v := view_of path) in *.
  destruct (langford_occupant k Hk) as (val & Hv & Hocc).
  pose proof (langford_slots val Hv) as Sv.
  pose proof (side_cases val Hv) as Hsd.
  destruct Hocc as [Eo|Ec].
  - (* slot [k] opens the value [val] *)
    set (f := mkFrame k (-1) (sd val) (nnum_open nd)).
    assert (Hlt : nnum_open nd < n).
    { rewrite Eno. apply (opened_lt k val Hv). lia. }
    assert (Hoff : offers 1 n 0 nd f).
    { unfold offers. destruct (Z.eqb_spec (nk nd) 0) as [E0|N0].
      - unfold f, first_frame. rewrite Eno.
        replace k with 0 by lia. rewrite opened_zero.
        rewrite (H0 val Hv) by lia. reflexivity.
      - split; [unfold two_n; lia|]. split; [apply abandoned_single|].
        unfold children, open_children.
        rewrite (proj2 (Z.ltb_lt _ _) Hlt). apply in_or_app. left.
        rewrite Ek. unfold f.
        destruct Hsd as [-> | ->]; cbn [In]; auto. }
    exists f. split; [exact Hoff|].
    destruct (offers_facts 1 n 0 Hn nd v f I Hoff) as (_ & _ & _ & E1).
    split; [lia|]. split.
    + rewrite view_of_snoc. fold v. split.
      * intros d t Hd.
        destruct (pending_open v f d eq_refl Hsd Hd) as (-> & _).
        cbn [fd fk f].
        destruct (Z.eqb_spec d (sd val)) as [Ed|Nd].
        -- cbn [In]. rewrite (Mp d t Hd). split.
           ++ intros [<-|(w & Hw & Ew & Eow & Hlt' & Hge)].
              ** exists val. repeat split; auto; lia.
              ** exists w. pose proof (open_close_distinct val w Hv Hw).
                 repeat split; auto; lia.
           ++ intros (w & Hw & Ew & Eow & Hlt' & Hge).
              destruct (Z.eq_dec k t) as [E|N]; [left; exact E|].
              right. exists w. repeat split; auto; lia.
        -- rewrite (Mp d t Hd). split.
           ++ intros (w & Hw & Ew & Eow & Hlt' & Hge).
              exists w. pose proof (open_close_distinct val w Hv Hw).
              repeat split; auto; lia.
           ++ intros (w & Hw & Ew & Eow & Hlt' & Hge).
              exists w. repeat split; auto; try lia.
              destruct (Z.eq_dec t k) as [E|N]; [|lia].
              exfalso. apply Nd. rewrite <- Ew. f_equal.
              apply same_opening; auto. lia.
      * intros a Ha.
        destruct (pending_open v f 0 eq_refl Hsd (or_introl eq_refl))
          as (_ & Ea).
        rewrite Ea in Ha. destruct (Ma a Ha) as (w & Hw & Hc & Eq).
        exists w. repeat split; auto; lia.
    + unfold step_node, place_num_open. cbn [nnum_open fm fnum_open f].
      cbn [Z.leb Z.compare]. rewrite int8_id by lia.
      rewrite (opened_open k val Hv) by lia. lia.
  - (* slot [k] closes the value [val] *)
    set (d := sd val). set (t0 := opening p val).
    assert (Ht0 : In t0 (pending d v)).
    { apply (Mp d t0 Hsd). exists val. repeat split; auto; lia. }
    destruct (pending d v) as [|t l] eqn:Epe; [destruct Ht0|].
    assert (Hdesc : desc_below k (t :: l)).
    { rewrite <- Epe, <- Ek. unfold pending.
      destruct (d =? 0); [apply (vi_desc0 _ _ _ I)|apply (vi_desc1 _ _ _ I)]. }
    assert (Et : t = t0).
    { assert (Hin : In t (pending d v)) by (rewrite Epe; left; reflexivity).
      apply (Mp d t Hsd) in Hin.
      destruct Hin as (w & Hw & Ew & Eow & Hlt' & Hge).
      destruct (Z.eq_dec w val) as [->|Nw]; [exact (eq_sym Eow)|].
      exfalso.
      assert (closing p w <> k).
      { intros E. apply Nw. apply same_closing; auto. lia. }
      destruct Ht0 as [E|Hin]; [apply Nw; apply same_opening; auto; fold t0; lia|].
      pose proof (desc_below_older k t l t0 Hdesc Hin).
      apply (proj2 Hs val w Hv Hw); [fold d; auto|].
      unfold crossing. fold t0. lia. }
    subst t.
    set (f := mkFrame k (val - 1) d (nnum_open nd)).
    assert (Hbit : Z.testbit (navail nd) (val - 1) = true).
    { apply (vi_avail _ _ _ I); [lia|]. intros Hin.
      apply in_map_iff in Hin. destruct Hin as (a & Ea & Ha).
      destruct (Ma a Ha) as (w & Hw & Hc & Eq). subst a. cbn [am] in Ea.
      assert (w = val) by lia. subst w. lia. }
    assert (Eod : (if d =? 0 then nopen0 nd else nopen1 nd) = enc n (t0 :: l)).
    { rewrite <- Epe. unfold pending.
      destruct (d =? 0); [apply (vi_open0 _ _ _ I)|apply (vi_open1 _ _ _ I)]. }
    assert (Hcc : close_child n k (navail nd) (nnum_open nd) d
                    (if d =? 0 then nopen0 nd else nopen1 nd) = [f]).
    { unfold close_child.
      pose proof (close_formula n Hn nd v d t0 l I Hsd Epe ltac:(lia)) as Ef.
      rewrite Ek in Ef. rewrite Ef.
      pose proof (enc_cons_pos n k t0 l Hdesc ltac:(lia)) as Hpos.
      rewrite <- Eod in Hpos.
      destruct (Z.eqb_spec (if d =? 0 then nopen0 nd else nopen1 nd) 0);
        [lia|].
      replace (k - t0 - 2) with (val - 1) by (unfold t0; lia).
      rewrite uint32_id by lia.
      rewrite (proj2 (Z.ltb_lt _ _)) by lia.
      rewrite land_shiftr_1 by lia. rewrite Hbit. cbn [Z.b2z Z.eqb negb andb].
      destruct (Z.eqb_spec (val - 1) 0) as [E|N]; cbn [negb orb]; [|reflexivity].
      assert (val = 1) by lia. subst val.
      rewrite (proj2 (Z.leb_le _ _)) by lia. reflexivity. }
    assert (Hoff : offers 1 n 0 nd f).
    { unfold offers. destruct (Z.eqb_spec (nk nd) 0) as [E0|N0]; [lia|].
      split; [unfold two_n; lia|]. split; [apply abandoned_single|].
      unfold children. rewrite Ek. apply in_or_app. right.
      apply in_or_app. fold d in Hsd.
      destruct Hsd as [E|E]; rewrite E in Hcc; cbn [Z.eqb] in Hcc.
      - right. rewrite Hcc. left. reflexivity.
      - left. rewrite Hcc. left. reflexivity. }
    exists f. split; [exact Hoff|].
    destruct (offers_facts 1 n 0 Hn nd v f I Hoff) as (_ & _ & _ & E1).
    split; [lia|]. split.
    + rewrite view_of_snoc. fold v. split.
      * intros d' t Hd.
        destruct (pending_close v f d' t0 l Epe ltac:(cbn; lia) Hsd Hd)
          as (-> & _).
        cbn [fd f].
        destruct (Z.eqb_spec d' d) as [Ed|Nd].
        -- subst d'. split.
           ++ intros Hin.
              pose proof (desc_below_older k t0 l t Hdesc Hin) as Hlt.
              assert (Hin' : In t (pending d v))
                by (rewrite Epe; right; exact Hin).
              apply (Mp d t Hd) in Hin'.
              destruct Hin' as (w & Hw & Ew & Eow & Hlt' & Hge).
              exists w. repeat split; auto; try lia.
              assert (closing p w <> k); [|lia].
              intros E. assert (w = val) by (apply same_closing; auto; lia).
              subst w. fold t0 in Eow. lia.
           ++ intros (w & Hw & Ew & Eow & Hlt' & Hge).
              assert (Hin : In t (pending d v)).
              { apply (Mp d t Hd). exists w.
                pose proof (open_close_distinct w val Hw Hv).
                repeat split; auto; lia. }
              rewrite Epe in Hin. destruct Hin as [E|Hin]; [|exact Hin].
              exfalso. assert (w = val) by (apply same_opening; auto; fold t0; lia).
              subst w. lia.
        -- rewrite (Mp d' t Hd). split.
           ++ intros (w & Hw & Ew & Eow & Hlt' & Hge).
              exists w. repeat split; auto; try lia.
              assert (closing p w <> k); [|lia].
              intros E. assert (w = val) by (apply same_closing; auto; lia).
              subst w. fold d in Ew. auto.
           ++ intros (w & Hw & Ew & Eow & Hlt' & Hge).
              exists w. pose proof (open_close_distinct w val Hw Hv).
              repeat split; auto; lia.
      * intros a Ha.
        destruct (pending_close v f 0 t0 l Epe ltac:(cbn; lia) Hsd
                    (or_introl eq_refl)) as (_ & Ea).
        rewrite Ea in Ha. cbn [fd fk fm f] in Ha.
        destruct Ha as [<-|Ha].
        -- exists val. split; [exact Hv|]. split; [lia|].
           unfold d, t0. rewrite Ec. reflexivity.
        -- destruct (Ma a Ha) as (w & Hw & Hc & Eq).
           exists w. repeat split; auto; lia.
    + unfold step_node, place_num_open. cbn [nnum_open fm fnum_open f].
      rewrite (proj2 (Z.leb_le 0 (val - 1))) by lia.
      rewrite (opened_close k val Hv) by lia. exact Eno.
Qed.

Lemma path_build (j : nat) :
  Z.of_nat j <= 2 * n ->
  exists path nd,
    on_path 1 n 0 path nd /\ nk nd = Z.of_nat j /\
    matches n p sd (Z.of_nat j) (view_of path) /\
    nnum_open nd = Z.of_nat (length (opened n p (Z.of_nat j))).
Proof.
  induction j as [|j IH]; intros Hj.
  - change (Z.of_nat 0) with 0.
    exists [], (root_node n). split; [constructor|]. split; [reflexivity|].
    split; [|rewrite opened_zero; reflexivity].
    split.
    + intros d t Hd. unfold pending, view_of. cbn [fold_left empty_view pend0 pend1].
      split; [destruct (d =? 0); intros []|].
      intros (w & Hw & _ & Eo & Hlt & _).
      pose proof (langford_slots w Hw). cbn in Hlt. lia.
    + intros a [].
  - destruct (IH ltac:(lia)) as (path & nd & Hp & Ek & M & Eno).
    destruct (path_extend path nd (Z.of_nat j) Hp Ek ltac:(lia) M Eno)
      as (f & Hoff & Ek1 & M1 & Eno1).
    exists (path ++ [f]), (step_node n f nd).
    replace (Z.of_nat (S j)) with (Z.of_nat j + 1) by lia.
    split; [constructor; assumption|]. auto.
Qed.

(** The arrangement is the entry of a complete path of the search. *)
Lemma langford_complete : complete 1 n 0 p.
Proof.
  destruct (path_build (Z.to_nat (2 * n)) ltac:(lia))
    as (path & nd & Hp & Ek & (_ & Ma) & _).
  exists path, nd. split; [exact Hp|]. split; [lia|].
  split; [apply (proj1 Hl)|].
  intros a Ha. destruct (Ma a Ha) as (w & Hw & _ & ->). cbn [am aclose].
  apply (langford_closing n p Hl). exact Hw.
Qed.

End Construct.

(** ** The entries of the search, characterised *)

Section Characterised.

Variable n : Z.
Hypothesis Hn : 1 <= n <= 31.

(** The sides can be chosen with the pair of slot [0] on side [0]. *)
Lemma planar_first_side p :
  langford n p -> planar n p ->
  exists sd, noncrossing n p sd /\
             forall v, 1 <= v <= n -> opening p v = 0 -> sd v = 0.
Proof.
  intros Hl (sd & Hs & Hc).
  destruct (langford_occupant n p Hl 0 ltac:(lia)) as (v0 & Hv0 & Ho).
  destruct (Hs v0 Hv0) as [E|E].
  - exists sd. split; [split; assumption|].
    intros v Hv Eo. rewrite <- E. f_equal.
    pose proof (langford_slots n p Hl v Hv).
    apply (langford_unique n p Hl 0); auto; [lia|left; auto].
  - exists (fun v => 1 - sd v). split; [split|].
    + intros v Hv. destruct (Hs v Hv); lia.
    + intros v w Hv Hw Esd. apply Hc; auto. lia.
    + intros v Hv Eo.
      assert (v = v0).
      { pose proof (langford_slots n p Hl v Hv).
        apply (langford_unique n p Hl 0); auto; [lia|left; auto]. }
      subst v. lia.
Qed.

(** Completeness: a planar Langford arrangement whose value [1] closes at
    a slot [k <= n] is recorded by the worker of the unpartitioned tree. *)
Lemma planar_found p :
  langford n p -> planar n p -> closing p 1 <= n -> In p (found 1 n 0).
Proof.
  intros Hl Hp H1.
  destruct (planar_first_side p Hl Hp) as (sd & Hs & H0).
  apply (complete_found 1 n 0 Hn).
  apply (langford_complete n p sd Hn Hl Hs H0 H1).
Qed.

(** In a recorded entry the value [1] closes at a slot [k <= n]. *)
Lemma found_reversal W thread_id p :
  In p (found W n thread_id) -> closing p 1 <= n.
Proof.
  intros Hin.
  destruct (found_complete W n thread_id Hn p Hin)
    as (path & nd & Hp & Hk & Lp & Hrec).
  destruct (complete_arcs W n thread_id Hn p path nd Hp Hk Lp Hrec)
    as (Hv & _).
  destruct (Hv 1 ltac:(lia)) as (Ha & Em & Ec & _).
  rewrite Ec. apply (on_path_reversal W n thread_id Hn path nd); auto.
Qed.

Lemma found_valid W thread_id p :
  In p (found W n thread_id) -> langford n p /\ planar n p.
Proof.
  intros Hin.
  destruct (complete_valid W n thread_id Hn p
              (found_complete W n thread_id Hn p Hin)) as (Hl & sd & Hs & _).
  split; [exact Hl|exists sd; exact Hs].
Qed.

Lemma found_characterised p :
  In p (found 1 n 0) <->
  langford n p /\ planar n p /\ closing p 1 <= n.
Proof.
  split.
  - intros Hin. destruct (found_valid 1 0 p Hin) as (Hl & Hp).
    split; [exact Hl|]. split; [exact Hp|].
    apply (found_reversal 1 0). exact Hin.
  - intros (Hl & Hp & H1). apply planar_found; assumption.
Qed.

End Characterised.

(** [distinct] of a ledger without repetitions is its length. *)
Lemma distinct_NoDup l : NoDup l -> distinct l = Z.of_nat (length l).
Proof.
  intros H. unfold distinct. rewrite (nodup_fixed_point pos_eq_dec H).
  reflexivity.
Qed.

(** ** No arrangement for [n] congruent to 1 or 2 modulo 4 *)

Lemma zsum_app a b : zsum (a ++ b) = zsum a + zsum b.
Proof.
  induction a as [|x a IH]; cbn [app zsum fold_right]; [reflexivity|].
  fold (zsum (a ++ b)). fold (zsum a). lia.
Qed.

Lemma zsum_perm a b : Permutation a b -> zsum a = zsum b.
Proof.
  unfold zsum.
  induction 1 as [|x a b _ IH|x y a|a b c _ IH1 _ IH2];
    cbn [fold_right] in *; lia.
Qed.

Lemma zsum_slots k : 2 * zsum (slots k) = Z.of_nat k * (Z.of_nat k - 1).
Proof.
  unfold slots. induction k as [|k IH]; [reflexivity|].
  rewrite seq_S, map_app, zsum_app. cbn [map zsum fold_right plus]. lia.
Qed.

Lemma zsum_shift (g : Z -> Z) l :
  zsum (map (fun v => g v - v - 1) l)
  = zsum (map g l) - zsum l - Z.of_nat (length l).
Proof.
  induction l as [|x l IH]; [reflexivity|].
  cbn [map zsum fold_right length] in *.
  fold (zsum (map (fun v => g v - v - 1) l)) in *.
  fold (zsum (map g l)) in *. fold (zsum l) in *. lia.
Qed.

Lemma zsum_values k :
  2 * zsum (map (fun i => Z.of_nat i + 1) (seq 0 k))
  = Z.of_nat k * (Z.of_nat k + 1).
Proof.
  induction k as [|k IH]; [reflexivity|].
  rewrite seq_S, map_app, zsum_app. cbn [map zsum fold_right plus]. lia.
Qed.

(** The slots of a Langford arrangement are the slots [0 .. 2 n - 1], each
    once. *)
Lemma langford_slots_perm n p :
  langford n p ->
  Permutation (slots (Z.to_nat (2 * n)))
    (map (opening p) (values n) ++ map (closing p) (values n)).
Proof.
  intros Hl. pose proof Hl as (Lp & Ha & Ho).
  assert (H0 : 0 <= n) by lia.
  apply NoDup_Permutation_bis.
  - apply slots_NoDup.
  - rewrite length_app, !length_map. unfold slots.
    rewrite length_map, length_seq.
    pose proof (length_values n H0). lia.
  - intros t Ht. apply slots_In in Ht.
    destruct (Ho t ltac:(lia)) as (v & Hv & [E|E] & _); apply in_or_app.
    + left. rewrite E. apply in_map. apply values_In. exact Hv.
    + right. rewrite E. apply in_map. apply values_In. exact Hv.
Qed.

(** The closing slots of a Langford arrangement add up to
    [n (5 n + 1) / 4]. *)
Lemma langford_sum n p :
  langford n p -> 4 * zsum (map (closing p) (values n)) = n * (5 * n + 1).
Proof.
  intros Hl. pose proof Hl as (Lp & _).
  assert (H0 : 0 <= n) by lia.
  pose proof (zsum_perm _ _ (langford_slots_perm n p Hl)) as E.
  rewrite zsum_app in E.
  pose proof (zsum_slots (Z.to_nat (2 * n))) as Es.
  pose proof (zsum_shift (closing p) (values n)) as Eo.
  change (fun v => closing p v - v - 1) with (opening p) in Eo.
  pose proof (zsum_values (Z.to_nat n)) as Ev. fold (values n) in Ev.
  pose proof (length_values n H0) as Lv.
  rewrite !Z2Nat.id in * by lia. nia.
Qed.

Lemma langford_residue n p :
  langford n p -> n mod 4 = 0 \/ n mod 4 = 3.
Proof.
  intros Hl. pose proof (langford_sum n p Hl) as E.
  pose proof (Z.div_mod n 4 ltac:(lia)) as D.
  pose proof (Z.mod_pos_bound n 4 ltac:(lia)) as B.
  set (q := n / 4) in *. set (r := n mod 4) in *.
  set (c := zsum (map (closing p) (values n))) in *.
  assert (Hr : r = 0 \/ r = 1 \/ r = 2 \/ r = 3) by lia.
  destruct Hr as [Hr|[Hr|[Hr|Hr]]]; auto; exfalso; rewrite Hr in D;
    rewrite D in E; ring_simplify in E; lia.
Qed.

(** For [n] congruent to 1 or 2 modulo 4 a worker would record nothing. *)
Lemma found_degenerate W n thread_id :
  1 <= n <= 31 -> n mod 4 = 1 \/ n mod 4 = 2 -> found W n thread_id = [].
Proof.
  intros Hn Hr. destruct (found W n thread_id) as [|p l] eqn:E; [reflexivity|].
  exfalso.
  assert (Hin : In p (found W n thread_id)) by (rewrite E; left; reflexivity).
  destruct (found_valid n Hn W thread_id p Hin) as (Hl & _).
  pose proof (langford_residue n p Hl). lia.
Qed.

(** ** The assertions of [print] *)

Lemma wr_inv a i v b :
  wr a i v = Some b ->
  0 <= i < Z.of_nat (length a) /\ b = upd (Z.to_nat i) v a.
Proof.
  unfold wr. destruct (Z.leb_spec 0 i), (Z.ltb_spec i (Z.of_nat (length a)));
    cbn [andb]; intros E; inversion E. split; [lia|reflexivity].
Qed.

Lemma rd_repeat c k t :
  0 <= t < Z.of_nat k -> rd (repeat c k) t = Some c.
Proof.
  intros Ht. destruct (rd_Some (repeat c k) t) as (x & Hx).
  - rewrite repeat_length. exact Ht.
  - rewrite Hx. f_equal. unfold rd in Hx.
    destruct (t <? 0); [discriminate|].
    apply nth_error_In in Hx. apply repeat_spec in Hx. exact Hx.
Qed.

Lemma rd_In a i v : rd a i = Some v -> In v a.
Proof.
  unfold rd. destruct (i <? 0); [discriminate|]. apply nth_error_In.
Qed.

Section PrintChecks.

Variables (n : Z) (p : Positions).
Hypothesis Lp : Z.of_nat (length p) = n.

Lemma closing_rd m : 1 <= m <= n -> rd p (m - 1) = Some (closing p m).
Proof.
  intros Hm. destruct (rd_Some p (m - 1) ltac:(lia)) as (c & Hc).
  rewrite Hc. f_equal. symmetry. unfold closing. apply rd_nth. exact Hc.
Qed.

(** What a successful run of the loop of [print] over the values [ms] has
    checked and written. *)
Lemma place_values_inv ms :
  forall s s',
    place_values n p ms s = Some s' ->
    (forall m, In m ms -> 1 <= m <= n) ->
    Z.of_nat (length s) = 2 * n ->
    Z.of_nat (length s') = 2 * n /\
    (forall m, In m ms -> 0 <= opening p m /\ closing p m < 2 * n) /\
    (forall t c, rd s t = Some c -> c <> -1 -> rd s' t = Some c) /\
    (forall m t, In m ms -> occupies p m t ->
       rd s t = Some (-1) /\ rd s' t = Some m) /\
    (forall t, rd s t = Some (-1) ->
       rd s' t = Some (-1) \/
       exists m, In m ms /\ occupies p m t /\ rd s' t = Some m).
Proof.
  induction ms as [|m ms IH]; intros s s' E Hr Ls.
  - cbn [place_values] in E. inversion E; subst s'.
    split; [exact Ls|]. split; [intros m []|]. split; [auto|].
    split; [intros m t []|]. auto.
  - pose proof (Hr m (or_introl eq_refl)) as Hm.
    cbn [place_values] in E. rewrite (closing_rd m Hm) in E.
    fold (opening p m) in E.
    set (k1 := opening p m) in *. set (k2 := closing p m) in *.
    destruct (Z.leb_spec 0 k1) as [H1|]; [|discriminate].
    destruct (Z.ltb_spec k2 (2 * n)) as [H2|]; [|discriminate].
    cbn [andb] in E.
    destruct (rd s k1) as [c1|] eqn:R1; [|discriminate].
    destruct (rd s k2) as [c2|] eqn:R2; [|discriminate].
    destruct (Z.eqb_spec c1 (-1)) as [->|]; [|discriminate].
    destruct (Z.eqb_spec c2 (-1)) as [->|]; [|discriminate].
    cbn [andb] in E.
    destruct (wr s k2 m) as [s1|] eqn:W1; [|discriminate].
    destruct (wr s1 k1 m) as [s2|] eqn:W2; [|discriminate].
    apply wr_inv in W1. destruct W1 as (B1 & ->).
    apply wr_inv in W2. destruct W2 as (B2 & ->).
    rewrite length_upd in B2.
    set (s2 := upd (Z.to_nat k1) m (upd (Z.to_nat k2) m s)) in *.
    assert (Rin : forall t, t = k1 \/ t = k2 -> rd s2 t = Some m).
    { intros t [-> | ->]; unfold s2.
      - apply rd_upd_same. rewrite length_upd. lia.
      - destruct (Z.eq_dec k1 k2) as [Ek|Nk].
        + rewrite Ek. apply rd_upd_same. rewrite length_upd. lia.
        + rewrite rd_upd_other by lia. apply rd_upd_same. lia. }
    assert (Rout : forall t, t <> k1 -> t <> k2 -> rd s2 t = rd s t).
    { intros t N1 N2. unfold s2. rewrite !rd_upd_other by lia. reflexivity. }
    assert (Ls2 : Z.of_nat (length s2) = 2 * n)
      by (unfold s2; rewrite !length_upd; exact Ls).
    destruct (IH s2 s' E (fun x Hx => Hr x (or_intror Hx)) Ls2)
      as (Ls' & Hb & Hkeep & Hocc & Hfree).
    assert (Hmine : forall t, t = k1 \/ t = k2 -> rd s' t = Some m).
    { intros t Ht. apply Hkeep; [apply Rin; exact Ht|lia]. }
    split; [exact Ls'|]. split; [|split; [|split]].
    + intros x [<-|Hx]; [split; assumption|apply Hb; exact Hx].
    + intros t c Hc Nc. apply Hkeep; [|exact Nc].
      rewrite Rout; [exact Hc| |]; intros ->; congruence.
    + intros x t [<-|Hx] Ho.
      * split; [|apply Hmine; exact Ho].
        destruct Ho as [-> | ->]; assumption.
      * destruct (Hocc x t Hx Ho) as (A & B). split; [|exact B].
        rewrite <- Rout; [exact A| |]; intros ->.
        -- rewrite (Rin k1 (or_introl eq_refl)) in A. inversion A. lia.
        -- rewrite (Rin k2 (or_intror eq_refl)) in A. inversion A. lia.
    + intros t Ht.
      destruct (Z.eq_dec t k1) as [E1|N1];
        [right; exists m; split; [left; reflexivity|];
         split; [left; exact E1|apply Hmine; auto]|].
      destruct (Z.eq_dec t k2) as [E2|N2];
        [right; exists m; split; [left; reflexivity|];
         split; [right; exact E2|apply Hmine; auto]|].
      rewrite <- (Rout t N1 N2) in Ht.
      destruct (Hfree t Ht) as [A|(x & Hx & Ho & A)]; [left; exact A|].
      right. exists x. split; [right; exact Hx|]. auto.
Qed.

(** [print] passes its assertions only on a Langford arrangement. *)
Lemma print_checks s : print n p = Some s -> langford n p.
Proof.
  unfold print. intros E.
  destruct (place_values n p (values n) (repeat (-1) (Z.to_nat (2 * n))))
    as [s'|] eqn:Ep; [|discriminate].
  destruct (forallb (fun m => (0 <=? m) && (m <=? n)) s') eqn:Ef;
    [|discriminate].
  assert (H0 : 0 <= n) by lia.
  destruct (place_values_inv _ _ _ Ep) as (Ls & Hb & _ & Hocc & Hfree).
  { intros m Hm. apply values_In. exact Hm. }
  { rewrite repeat_length. lia. }
  split; [exact Lp|]. split.
  - intros v Hv. destruct (Hb v (proj2 (values_In n v) Hv)) as (A & B).
    split; [exact A|]. split; [exact B|]. unfold opening. lia.
  - intros t Ht.
    assert (R0 : rd (repeat (-1) (Z.to_nat (2 * n))) t = Some (-1))
      by (apply rd_repeat; lia).
    destruct (Hfree t R0) as [A|(m & Hm & Ho & A)].
    + exfalso. apply rd_In in A.
      rewrite forallb_forall in Ef. specialize (Ef _ A).
      apply andb_true_iff in Ef. destruct Ef as (Ef & _).
      apply Z.leb_le in Ef. lia.
    + exists m. split; [apply values_In; exact Hm|]. split; [exact Ho|].
      intros w Hw Hwo.
      destruct (Hocc w t (proj2 (values_In n w) Hw) Hwo) as (_ & B).
      congruence.
Qed.

End PrintChecks.

(** ** The sorted ledger *)

(** A ledger has one sorted arrangement. *)
Lemma sorted_perm_eq a :
  forall b, StronglySorted pos_le a -> StronglySorted pos_le b ->
            Permutation a b -> a = b.
Proof.
  induction a as [|x a IH]; intros b Sa Sb P.
  - apply Permutation_nil in P. auto.
  - destruct b as [|y b].
    { apply Permutation_sym, Permutation_nil in P. discriminate. }
    inversion Sa as [|? ? Sa' Fa]; subst.
    inversion Sb as [|? ? Sb' Fb]; subst.
    rewrite Forall_forall in Fa, Fb.
    assert (x = y).
    { assert (Hx : In x (y :: b))
        by (apply (Permutation_in _ P); left; reflexivity).
      assert (Hy : In y (x :: a))
        by (apply (Permutation_in _ (Permutation_sym P)); left; reflexivity).
      destruct Hx as [E|Hx]; [auto|]. destruct Hy as [E|Hy]; [auto|].
      apply pos_le_antisym; auto. }
    subst y. f_equal. apply IH; auto.
    apply (Permutation_cons_inv P).
Qed.

Lemma sort_perm_eq l1 l2 : Permutation l1 l2 -> sort l1 = sort l2.
Proof.
  intros P. apply sorted_perm_eq; try apply sort_sorted.
  apply Permutation_trans with l1; [apply Permutation_sym, sort_perm|].
  apply Permutation_trans with l2; [exact P|apply sort_perm].
Qed.

Lemma sort_idempotent l : sort (sort l) = sort l.
Proof. apply sort_perm_eq. apply Permutation_sym, sort_perm. Qed.

(** ** What [unique_count] prints *)

Lemma pos_le_neq_lt a b : pos_le a b -> a <> b -> pos_lt a b.
Proof.
  unfold pos_le, pos_lt. intros H N.
  destruct (pos_ltb a b) eqn:E; [reflexivity|].
  exfalso. apply N. apply pos_ltb_total; assumption.
Qed.

Lemma pos_lt_NoDup l : StronglySorted pos_lt l -> NoDup l.
Proof.
  induction 1 as [|x l S IH F]; constructor; [|exact IH].
  intros Hin. rewrite Forall_forall in F. specialize (F x Hin).
  unfold pos_lt in F. rewrite pos_ltb_irrefl in F. discriminate.
Qed.

Lemma printed_after_spec t :
  forall a, StronglySorted pos_le (a :: t) ->
    (forall q, In q (a :: printed_after a t) <-> In q (a :: t)) /\
    StronglySorted pos_lt (a :: printed_after a t) /\
    Z.of_nat (length (a :: printed_after a t)) = runs (a :: t).
Proof.
  induction t as [|b t IH]; intros a Sa.
  - cbn [printed_after runs length]. split; [tauto|].
    split; [repeat constructor|reflexivity].
  - inversion Sa as [|? ? S' F]; subst.
    destruct (IH b S') as (Hin & Hs & Hl).
    assert (Hab : pos_le a b).
    { rewrite Forall_forall in F. apply F. left. reflexivity. }
    cbn [printed_after].
    change (runs (a :: b :: t))
      with ((if pos_eqb b a then 0 else 1) + runs (b :: t)).
    destruct (pos_eqb b a) eqn:E.
    + apply pos_eqb_eq in E. subst b. split; [|split].
      * intros q. rewrite (Hin q). cbn [In]. tauto.
      * exact Hs.
      * rewrite Hl. lia.
    + assert (Hlt : pos_lt a b).
      { apply pos_le_neq_lt; [exact Hab|]. intros ->.
        rewrite pos_eqb_refl in E. discriminate. }
      split; [|split].
      * intros q. specialize (Hin q). cbn [In] in *. tauto.
      * constructor; [exact Hs|]. apply Forall_forall. intros q Hq.
        destruct Hq as [<-|Hq]; [exact Hlt|].
        inversion Hs as [|? ? _ Fb]; subst. rewrite Forall_forall in Fb.
        unfold pos_lt in *. apply (pos_ltb_trans a b q); auto.
      * change (length (a :: b :: printed_after b t))
          with (S (length (b :: printed_after b t))).
        rewrite Nat2Z.inj_succ, Hl. lia.
Qed.

Lemma printed_spec l :
  (forall q, In q (printed true l) <-> In q l) /\
  StronglySorted pos_lt (printed true l) /\
  Z.of_nat (length (printed true l)) = runs (sort l).
Proof.
  unfold printed. pose proof (sort_sorted l) as S.
  pose proof (sort_perm l) as P.
  destruct (sort l) as [|a t] eqn:E.
  - apply Permutation_sym, Permutation_nil in P. subst l.
    split; [tauto|]. split; [constructor|reflexivity].
  - destruct (printed_after_spec t a S) as (Hin & Hs & Hl).
    split; [|split; assumption].
    intros q. rewrite (Hin q). split; intros H.
    + apply (Permutation_in _ (Permutation_sym P)). exact H.
    + apply (Permutation_in _ P). exact H.
Qed.

(** The count is zero on the empty ledger only. *)
Lemma distinct_zero l : distinct l = 0 <-> l = [].
Proof.
  unfold distinct. split; [|intros ->; reflexivity].
  intros H. destruct l as [|x l]; [reflexivity|].
  assert (Hin : In x (nodup pos_eq_dec (x :: l)))
    by (apply nodup_In; left; reflexivity).
  destruct (nodup pos_eq_dec (x :: l)); [destruct Hin|discriminate].
Qed.

(** ** The workers share the paths *)

Lemma flat_map_nil {A B} (l : list A) :
  flat_map (fun _ => @nil B) l = [].
Proof. induction l as [|x l IH]; [reflexivity|exact IH]. Qed.

Lemma flat_map_app_perm {A B} (F H : A -> list B) l :
  Permutation (flat_map (fun b => F b ++ H b) l)
              (flat_map F l ++ flat_map H l).
Proof.
  induction l as [|x l IH]; [constructor|].
  cbn [flat_map]. rewrite <- !app_assoc. apply Permutation_app_head.
  apply Permutation_trans with (H x ++ flat_map F l ++ flat_map H l).
  - apply Permutation_app_head. exact IH.
  - rewrite !app_assoc. apply Permutation_app_tail. apply Permutation_app_comm.
Qed.

Lemma flat_map_swap {A B C} (G : A -> B -> list C) la lb :
  Permutation (flat_map (fun a => flat_map (fun b => G a b) lb) la)
              (flat_map (fun b => flat_map (fun a => G a b) la) lb).
Proof.
  induction la as [|a la IH].
  - cbn [flat_map]. rewrite flat_map_nil. constructor.
  - cbn [flat_map].
    apply Permutation_trans
      with (flat_map (fun b => G a b) lb
            ++ flat_map (fun b => flat_map (fun a => G a b) la) lb).
    + apply Permutation_app_head. exact IH.
    + apply Permutation_sym.
      apply (flat_map_app_perm (fun b => G a b)
               (fun b => flat_map (fun a => G a b) la)).
Qed.

Lemma flat_map_perm_ext {A B} (F G : A -> list B) l :
  (forall c, In c l -> Permutation (F c) (G c)) ->
  Permutation (flat_map F l) (flat_map G l).
Proof.
  induction l as [|x l IH]; intros H; [constructor|].
  cbn [flat_map]. apply Permutation_app.
  - apply H. left. reflexivity.
  - apply IH. intros c Hc. apply H. right. exact Hc.
Qed.

(** When one index of a list without repetitions contributes [L] and the
    others nothing, the whole is [L]. *)
Lemma flat_map_single {B} (F : Z -> list B) (L : list B) ids h :
  NoDup ids -> In h ids ->
  (forall t, In t ids -> F t = if t =? h then L else []) ->
  flat_map F ids = L.
Proof.
  induction ids as [|t ids IH]; intros Hnd Hin HF; [destruct Hin|].
  inversion Hnd as [|? ? Ht Hnd']; subst.
  cbn [flat_map]. rewrite (HF t (or_introl eq_refl)).
  destruct (Z.eqb_spec t h) as [->|N].
  - rewrite (flat_map_ext_in F (fun _ => [])).
    + rewrite flat_map_nil. apply app_nil_r.
    + intros c Hc. rewrite (HF c (or_intror Hc)).
      destruct (Z.eqb_spec c h) as [->|]; [contradiction|reflexivity].
  - destruct Hin as [E|Hin]; [contradiction|].
    cbn [app]. apply IH; auto. intros c Hc. apply HF. right. exact Hc.
Qed.

Lemma worker_ids_NoDup W : NoDup (worker_ids W).
Proof.
  unfold worker_ids. apply NoDup_map_NoDup_ForallPairs; [|apply seq_NoDup].
  intros a b _ _. apply Nat2Z.inj.
Qed.

Lemma k_limit_cases n :
  1 <= n <= 31 ->
  k_limit n < 2 * n /\ (n <= 5 -> k_limit n <= 0) /\ (6 <= n -> 1 <= k_limit n).
Proof.
  intros Hn. unfold k_limit.
  destruct (Z.ltb_spec 19 n).
  - rewrite Z.quot_div_nonneg by lia.
    pose proof (Z.div_le_upper_bound n 3 11 ltac:(lia) ltac:(lia)).
    pose proof (Z.div_pos n 3 ltac:(lia) ltac:(lia)).
    rewrite int8_id by lia. lia.
  - rewrite int8_id by lia. lia.
Qed.

Section Shared.

Variables (W n : Z).
Hypothesis Hn : 1 <= n <= 31.
Hypothesis HW1 : 1 <= W < 2 ^ 31.
Hypothesis HW : 1 < W.

(** Above the partition depth every path of the subtree belongs to
    exactly one worker. *)
Lemma leaves_shared depth :
  forall f nd p,
    0 <= fk f < 2 * n -> fk f + 1 <= k_limit n ->
    Permutation
      (flat_map (fun tid => leaves W n tid depth f nd p) (worker_ids W))
      (leaves 1 n 0 depth f nd p).
Proof.
  induction depth as [|d IH]; intros f nd p Hk Hl.
  - cbn [leaves]. rewrite flat_map_nil. constructor.
  - pose proof (k_limit_cases n Hn) as (Hlim & _).
    assert (Ek : nk (step_node n f nd) = fk f + 1)
      by (unfold step_node; cbn [nk]; apply int8_id; lia).
    set (nd1 := step_node n f nd) in *.
    set (p1 := place_pos (fk f) (fm f) p).
    assert (Ne : (nk nd1 =? two_n n) = false)
      by (apply Z.eqb_neq; unfold two_n; lia).
    assert (E1 : leaves 1 n 0 (S d) f nd p
                 = flat_map (fun c => leaves 1 n 0 d c nd1 p1) (children n nd1)).
    { cbn [leaves]. fold nd1. fold p1. rewrite Ne, abandoned_single.
      reflexivity. }
    assert (EW : forall tid, leaves W n tid (S d) f nd p
                 = if abandoned W n tid nd1 then []
                   else flat_map (fun c => leaves W n tid d c nd1 p1)
                          (children n nd1)).
    { intros tid. cbn [leaves]. fold nd1. fold p1. rewrite Ne. reflexivity. }
    rewrite E1.
    destruct (Z.eq_dec (nk nd1) (k_limit n)) as [El|El].
    + (* the partition depth *)
      set (h := partition_hash W (nopen0 nd1) (nopen1 nd1) (navail nd1)).
      pose proof (partition_hash_range W HW1 (nopen0 nd1) (nopen1 nd1)
                    (navail nd1)) as Hh. fold h in Hh.
      rewrite (flat_map_single _
                 (flat_map (fun c => leaves 1 n 0 d c nd1 p1) (children n nd1))
                 (worker_ids W) h).
      * apply Permutation_refl.
      * apply worker_ids_NoDup.
      * apply worker_ids_In. exact Hh.
      * intros t Ht. apply worker_ids_In in Ht. rewrite EW.
        pose proof (abandoned_at_limit W n HW1 t nd1 ltac:(lia) Ht El) as Ha.
        fold h in Ha.
        destruct (Z.eqb_spec t h) as [E|N].
        -- rewrite (proj2 Ha E). apply flat_map_ext_in. intros c Hc.
           pose proof (children_fk n _ _ Hc) as Hfk.
           apply (leaves_below W n Hn); lia.
        -- destruct (abandoned W n t nd1); [reflexivity|].
           exfalso. apply N. apply Ha. reflexivity.
    + (* above it *)
      apply Permutation_trans
        with (flat_map (fun tid =>
                flat_map (fun c => leaves W n tid d c nd1 p1) (children n nd1))
                (worker_ids W)).
      * rewrite (flat_map_ext_in _ (fun tid =>
                flat_map (fun c => leaves W n tid d c nd1 p1) (children n nd1)));
          [apply Permutation_refl|].
        intros t _. rewrite EW.
        rewrite (abandoned_off_limit W n t nd1 El). reflexivity.
      * apply Permutation_trans
          with (flat_map (fun c =>
                  flat_map (fun tid => leaves W n tid d c nd1 p1) (worker_ids W))
                  (children n nd1)).
        -- apply (flat_map_swap (fun tid c => leaves W n tid d c nd1 p1)).
        -- apply flat_map_perm_ext. intros c Hc.
           pose proof (children_fk n _ _ Hc) as Hfk.
           apply IH; lia.
Qed.

(** For [n >= 6] the ledger of the [W] workers is a rearrangement of the
    ledger of a single worker on the whole tree. *)
Lemma found_shared :
  6 <= n ->
  Permutation (flat_map (found W n) (worker_ids W)) (found 1 n 0).
Proof.
  intros H6. pose proof (k_limit_cases n Hn) as (_ & _ & Hl).
  unfold found. apply leaves_shared; cbn [fk first_frame]; lia.
Qed.

End Shared.

(** For [n <= 5] the partition depth is never reached and every worker
    records the entries of the whole tree. *)
Lemma found_unshared W n thread_id :
  1 <= n <= 5 -> found W n thread_id = found 1 n 0.
Proof.
  intros Hn. pose proof (k_limit_cases n ltac:(lia)) as (_ & Hl & _).
  unfold found. apply leaves_below; cbn [fk first_frame]; lia.
Qed.

(** ** The driver *)

(** [solve] returns for every [n]. *)
Lemma solve_total n : exists c, solve n = Some c.
Proof.
  destruct (degenerate n) eqn:Hd.
  - exists 0. unfold solve, solve_with, solve_run. rewrite Hd. reflexivity.
  - eexists. unfold solve. apply solve_with_distinct; [|exact Hd].
    unfold kMaxThreads. change (2 ^ 31) with 2147483648. lia.
Qed.

Lemma solve_degenerate n : degenerate n = true -> solve n = Some 0.
Proof.
  intros Hd. unfold solve, solve_with, solve_run. rewrite Hd. reflexivity.
Qed.

Lemma degenerate_cases n :
  degenerate n = true <->
  n <= 0 \/ 31 < n \/ n mod 4 = 1 \/ n mod 4 = 2.
Proof.
  unfold degenerate, kMaxN. rewrite !orb_true_iff, Z.leb_le, Z.ltb_lt, !Z.eqb_eq.
  destruct (Z.le_gt_cases n 0) as [H|H]; [tauto|].
  rewrite Z.rem_mod_nonneg by lia. tauto.
Qed.

(** The table does not depend on what the array held before. *)
Lemma init_known_results_any a :
  length a = 64%nat ->
  init_known_results a = init_known_results (repeat 0 64).
Proof.
  intros H.
  do 64 (destruct a as [|? a]; [discriminate H|]).
  destruct a; [|discriminate H]. reflexivity.
Qed.

Lemma index_cases i :
  0 <= i < 64 -> In i (range 0 64).
Proof.
  intros H. unfold range. apply in_map_iff. exists (Z.to_nat i).
  split; [lia|]. apply in_seq. lia.
Qed.

(** The entries of the table. *)
Lemma known_results_entries t i :
  init_known_results (repeat 0 64) = Some t -> 0 <= i < 64 ->
  (rd t i = Some (-1) <-> 29 <= i /\ (i mod 4 = 3 \/ i mod 4 = 0)) /\
  (i mod 4 = 1 \/ i mod 4 = 2 \/ i = 0 -> rd t i = Some 0) /\
  (forall r, In (i, r) published -> rd t i = Some r) /\
  (exists r, rd t i = Some r /\ -1 <= r).
Proof.
  intros E Hi.
  assert (Hall : forallb (fun i =>
            match rd t i with
            | Some x =>
                Bool.eqb (x =? -1)
                  ((29 <=? i) && ((i mod 4 =? 3) || (i mod 4 =? 0)))
                && (negb ((i mod 4 =? 1) || (i mod 4 =? 2) || (i =? 0))
                    || (x =? 0))
                && forallb (fun jr => negb (fst jr =? i) || (x =? snd jr))
                     published
                && (-1 <=? x)
            | None => false
            end) (range 0 64) = true).
  { vm_compute in E. inversion E as [Et]. vm_compute. reflexivity. }
  rewrite forallb_forall in Hall. specialize (Hall i (index_cases i Hi)).
  destruct (rd t i) as [x|]; [|discriminate].
  rewrite !andb_true_iff in Hall. destruct Hall as (((B1 & B2) & B3) & B4).
  apply Z.leb_le in B4. apply eqb_prop in B1.
  split; [|split; [|split]].
  - split.
    + intros H. inversion H; subst x. cbn in B1. symmetry in B1.
      apply andb_true_iff in B1. destruct B1 as (A & B).
      apply Z.leb_le in A. apply orb_true_iff in B.
      rewrite !Z.eqb_eq in B. auto.
    + intros (A & B). f_equal. apply Z.eqb_eq. rewrite B1.
      apply andb_true_iff. split; [apply Z.leb_le; exact A|].
      apply orb_true_iff. rewrite !Z.eqb_eq. exact B.
  - intros H. f_equal. apply orb_true_iff in B2. destruct B2 as [B2|B2].
    + apply negb_true_iff in B2. rewrite !orb_false_iff in B2.
      rewrite !Z.eqb_neq in B2. lia.
    + apply Z.eqb_eq. exact B2.
  - intros r Hr. rewrite forallb_forall in B3. specialize (B3 _ Hr).
    cbn [fst snd] in B3. rewrite Z.eqb_refl in B3. cbn [negb orb] in B3.
    f_equal. apply Z.eqb_eq. exact B3.
  - exists x. auto.
Qed.

(** [run] on any [n]. *)
Lemma run_cases n t c :
  solve n = Some c ->
  run n t =
    if (n <? 0) || (64 <=? n) then Some (c, New)
    else match rd t n with
         | Some known =>
             if known =? -1 then Some (c, New)
             else if known =? c then Some (c, Matches)
             else Some (c, Mismatches known)
         | None => None
         end.
Proof. intros E. unfold run. rewrite E. reflexivity. Qed.

(** ** The arrangement read from right to left *)

Lemma nth_values (g : Z -> Z) n v :
  1 <= v <= n -> nth (Z.to_nat (v - 1)) (map g (values n)) 0 = g v.
Proof.
  intros Hv. unfold values. rewrite map_map.
  assert (Hlt : (Z.to_nat (v - 1) < length (seq 0 (Z.to_nat n)))%nat)
    by (rewrite length_seq; lia).
  rewrite (nth_indep _ 0 ((fun i => g (Z.of_nat i + 1)) 0%nat))
    by (rewrite length_map; exact Hlt).
  rewrite (map_nth (fun i => g (Z.of_nat i + 1))).
  rewrite seq_nth by (rewrite length_seq in Hlt; exact Hlt).
  f_equal. lia.
Qed.

Lemma positions_values n p :
  Z.of_nat (length p) = n -> p = map (closing p) (values n).
Proof.
  intros Lp. apply (nth_ext _ _ 0 0).
  - unfold values. rewrite !length_map, length_seq. lia.
  - intros i Hi.
    replace i with (Z.to_nat (Z.of_nat i + 1 - 1)) at 2 by lia.
    rewrite nth_values by lia. unfold closing. f_equal. lia.
Qed.

Section Reversal.

Variables (n : Z) (p : Positions).
Hypothesis Hl : langford n p.

Lemma length_reversal : Z.of_nat (length (reversal n p)) = n.
Proof.
  unfold reversal. rewrite length_map. apply length_values.
  destruct Hl as (Lp & _). lia.
Qed.

Lemma closing_reversal v :
  1 <= v <= n -> closing (reversal n p) v = 2 * n - 1 - opening p v.
Proof.
  intros Hv. unfold closing at 1, reversal.
  apply (nth_values (fun v => 2 * n - 1 - opening p v)). exact Hv.
Qed.

Lemma opening_reversal v :
  1 <= v <= n -> opening (reversal n p) v = 2 * n - 1 - closing p v.
Proof.
  intros Hv. unfold opening at 1. rewrite closing_reversal by exact Hv.
  unfold opening. lia.
Qed.

Lemma occupies_reversal v t :
  1 <= v <= n ->
  (occupies (reversal n p) v t <-> occupies p v (2 * n - 1 - t)).
Proof.
  intros Hv. unfold occupies.
  rewrite closing_reversal, opening_reversal by exact Hv. lia.
Qed.

Lemma langford_reversal : langford n (reversal n p).
Proof.
  split; [apply length_reversal|]. split.
  - intros v Hv. pose proof (langford_slots n p Hl v Hv).
    rewrite closing_reversal, opening_reversal by exact Hv. lia.
  - intros t Ht. destruct Hl as (_ & _ & Ho).
    destruct (Ho (2 * n - 1 - t) ltac:(lia)) as (v & Hv & Hov & Hu).
    exists v. split; [exact Hv|]. split.
    + apply occupies_reversal; assumption.
    + intros w Hw Hw'. apply Hu; [exact Hw|].
      apply occupies_reversal; assumption.
Qed.

Lemma planar_reversal : planar n p -> planar n (reversal n p).
Proof.
  intros (sd & Hs & Hc). exists sd. split; [exact Hs|].
  intros v w Hv Hw E. unfold crossing.
  rewrite !closing_reversal, !opening_reversal by assumption.
  specialize (Hc w v Hw Hv (eq_sym E)). unfold crossing in Hc. lia.
Qed.

(** Of an arrangement and its reversal exactly one closes the value [1]
    in the first [n + 1] slots. *)
Lemma reversal_side :
  1 <= n -> (closing (reversal n p) 1 <= n <-> ~ closing p 1 <= n).
Proof.
  intros Hn. rewrite closing_reversal by lia. unfold opening. lia.
Qed.

End Reversal.

Lemma reversal_involutive n p :
  langford n p -> reversal n (reversal n p) = p.
Proof.
  intros Hl. pose proof Hl as (Lp & _).
  rewrite (positions_values n p Lp) at 2.
  unfold reversal at 1. apply map_ext_in. intros v Hv.
  apply values_In in Hv.
  rewrite (opening_reversal n p v Hv). lia.
Qed.

(** ** What [solve] counts *)

(** The powers of two that bound the machine integers. *)
Lemma pow2_31 : 2 ^ 31 = 2147483648.
Proof. reflexivity. Qed.

Lemma pow2_63 : 2 ^ 63 = 9223372036854775808.
Proof. reflexivity. Qed.

Lemma pow2_32 : 2 ^ 32 = 4294967296.
Proof. reflexivity. Qed.

Lemma dfs_found_empty W n thread_id :
  1 <= n <= 31 -> dfs W n thread_id [] = Some (found W n thread_id).
Proof. intros Hn. apply (dfs_found W n thread_id Hn []). Qed.

(** The count of [solve] on a list of the arrangements it looks for. *)
Lemma solve_count_list n l :
  degenerate n = false -> NoDup l ->
  (forall p, In p l <-> langford n p /\ planar n p /\ closing p 1 <= n) ->
  Z.of_nat (length l) < 2 ^ 31 ->
  solve n = Some (Z.of_nat (length l)).
Proof.
  intros Hd Hnd Hl Hlen. pose proof (degenerate_false n Hd) as Hn.
  unfold solve.
  rewrite solve_with_distinct;
    [|unfold kMaxThreads; rewrite pow2_31; lia|exact Hd].
  f_equal.
  assert (E : distinct (found 1 n 0) = Z.of_nat (length l)).
  { rewrite <- (distinct_NoDup l Hnd). apply distinct_same. intros p.
    rewrite (found_characterised n Hn p), (Hl p). tauto. }
  rewrite E. rewrite pow2_31 in Hlen.
  rewrite int64_id by lia. apply int32_id. lia.
Qed.

(** The arrangements that close the value [1] late are the reversals of
    those that close it early. *)
Lemma reversal_halves n all :
  1 <= n -> NoDup all ->
  (forall p, In p all <-> langford n p /\ planar n p) ->
  Permutation
    (map (reversal n) (filter (fun p => closing p 1 <=? n) all))
    (filter (fun p => negb (closing p 1 <=? n)) all).
Proof.
  intros Hn Hnd Hall.
  apply NoDup_Permutation.
  - apply NoDup_map_NoDup_ForallPairs; [|apply NoDup_filter; exact Hnd].
    intros a b Ha Hb E.
    apply filter_In in Ha. apply filter_In in Hb.
    destruct Ha as (Ha & _), Hb as (Hb & _).
    apply Hall in Ha. apply Hall in Hb.
    rewrite <- (reversal_involutive n a (proj1 Ha)).
    rewrite <- (reversal_involutive n b (proj1 Hb)). rewrite E. reflexivity.
  - apply NoDup_filter. exact Hnd.
  - intros q. rewrite in_map_iff, filter_In. split.
    + intros (p & <- & Hp). apply filter_In in Hp. destruct Hp as (Hp & Hc).
      apply Hall in Hp. destruct Hp as (Hl & Hpl). split.
      * apply Hall. split; [apply langford_reversal|apply planar_reversal];
          assumption.
      * apply negb_true_iff. apply Z.leb_gt. apply Z.leb_le in Hc.
        pose proof (proj1 (reversal_side n p Hn)). lia.
    + intros (Hq & Hc). apply Hall in Hq. destruct Hq as (Hl & Hpl).
      exists (reversal n q). split; [apply reversal_involutive; exact Hl|].
      apply filter_In. split.
      * apply Hall. split; [apply langford_reversal|apply planar_reversal];
          assumption.
      * apply negb_true_iff in Hc. apply Z.leb_gt in Hc. apply Z.leb_le.
        apply (reversal_side n q Hn). lia.
Qed.

(** ** Workers that do not share *)

Lemma flat_map_const_length {A B} (L : list B) (ids : list A) :
  length (flat_map (fun _ => L) ids) = (length ids * length L)%nat.
Proof.
  induction ids as [|t ids IH]; [reflexivity|].
  cbn [flat_map length]. rewrite length_app, IH. lia.
Qed.

Lemma length_worker_ids W : 0 <= W -> Z.of_nat (length (worker_ids W)) = W.
Proof.
  intros H. unfold worker_ids. rewrite length_map, length_seq. lia.
Qed.

(** ** The verdict of [run] *)

Lemma run_published n r t c :
  init_known_results (repeat 0 64) = Some t -> In (n, r) published ->
  solve n = Some c ->
  run n t = Some (c, if r =? c then Matches else Mismatches r).
Proof.
  intros Et Hin Es.
  assert (Hr : 0 <= n < 64 /\ 0 <= r).
  { assert (F : forallb (fun jr => (0 <=? fst jr) && (fst jr <? 64)
                                   && (0 <=? snd jr)) published = true)
      by reflexivity.
    rewrite forallb_forall in F. specialize (F _ Hin). cbn [fst snd] in F.
    rewrite !andb_true_iff, !Z.leb_le, Z.ltb_lt in F. lia. }
  destruct Hr as (Hn & H0).
  destruct (known_results_entries t n Et Hn) as (_ & _ & Hp & _).
  rewrite (run_cases n t c Es), (Hp r Hin).
  replace (n <? 0) with false by (symmetry; apply Z.ltb_ge; lia).
  replace (64 <=? n) with false by (symmetry; apply Z.leb_gt; lia).
  cbn [orb].
  replace (r =? -1) with false by (symmetry; apply Z.eqb_neq; lia).
  destruct (r =? c); reflexivity.
Qed.

(** ** The entries of the finished ledger *)

Lemma run_workers_valid W n ledger p :
  1 <= n <= 31 ->
  run_workers W n (worker_ids W) [] = Some ledger -> In p ledger ->
  langford n p /\ planar n p.
Proof.
  intros Hn Hr Hin. rewrite (run_workers_found W n Hn) in Hr.
  inversion Hr; subst ledger. cbn [app] in Hin.
  apply in_flat_map in Hin. destruct Hin as (t & _ & Hin).
  apply (found_valid n Hn W t p Hin).
Qed.

(** ** The printed sequence *)

Lemma map_nth_seq (s : list Z) :
  map (fun i => nth i s 0) (seq 0 (length s)) = s.
Proof.
  induction s as [|a s IH]; [reflexivity|].
  cbn [length seq map nth]. f_equal.
  rewrite <- seq_shift, map_map. exact IH.
Qed.

Lemma list_slots (s : list Z) :
  s = map (fun t => nth (Z.to_nat t) s 0) (slots (length s)).
Proof.
  unfold slots. rewrite map_map.
  rewrite (map_ext _ (fun i => nth i s 0)); [symmetry; apply map_nth_seq|].
  intros i. rewrite Nat2Z.id. reflexivity.
Qed.

Section Sequence.

Variables (n : Z) (p : Positions) (s : list Z).
Hypothesis Hl : langford n p.
Hypothesis Ls : Z.of_nat (length s) = 2 * n.
Hypothesis Hs : forall t v, 0 <= t < 2 * n -> 1 <= v <= n ->
  (rd s t = Some v <-> occupies p v t).

Lemma sequence_at v t :
  1 <= v <= n -> occupies p v t -> nth (Z.to_nat t) s 0 = v.
Proof.
  intros Hv Ho. apply rd_nth. apply Hs; auto.
  pose proof (langford_slots n p Hl v Hv). destruct Ho; lia.
Qed.

(** The sequence is an arrangement of [1, 1, 2, 2, ..., n, n]. *)
Lemma sequence_perm : Permutation s (values n ++ values n).
Proof.
  rewrite (list_slots s) at 1.
  replace (length s) with (Z.to_nat (2 * n)) by lia.
  apply Permutation_trans
    with (map (fun t => nth (Z.to_nat t) s 0)
              (map (opening p) (values n) ++ map (closing p) (values n))).
  - apply Permutation_map. apply langford_slots_perm. exact Hl.
  - rewrite map_app, !map_map.
    rewrite (map_ext_in _ (fun v => v)), map_id.
    + rewrite (map_ext_in _ (fun v => v)), map_id; [apply Permutation_refl|].
      intros v Hv. apply values_In in Hv.
      apply sequence_at; [exact Hv|right; reflexivity].
    + intros v Hv. apply values_In in Hv.
      apply sequence_at; [exact Hv|left; reflexivity].
Qed.

(** The two occurrences of [v] have [v] numbers between them. *)
Lemma sequence_distance v :
  1 <= v <= n ->
  exists t, 0 <= t /\ t + v + 1 < 2 * n /\
    rd s t = Some v /\ rd s (t + v + 1) = Some v /\
    forall u, 0 <= u < 2 * n -> rd s u = Some v -> u = t \/ u = t + v + 1.
Proof.
  intros Hv. pose proof (langford_slots n p Hl v Hv) as Sv.
  exists (opening p v). split; [lia|]. split; [lia|].
  split; [apply Hs; [lia|exact Hv|left; reflexivity]|].
  split; [apply Hs; [lia|exact Hv|right; lia]|].
  intros u Hu Ru. apply Hs in Ru; [|exact Hu|exact Hv].
  destruct Ru as [E|E]; lia.
Qed.

End Sequence.

(** ** The workers as threads *)

(** A turn reads nothing of the ledger and only appends to it. *)
Lemma dfs_step_with_results W n tid st st1 r :
  dfs_step W n tid st = Some st1 ->
  exists new,
    results st1 = results st ++ new /\
    dfs_step W n tid (with_results st r) = Some (with_results st1 (r ++ new)).
Proof.
  unfold dfs_step, with_results. cbn [stack].
  destruct (stack st) as [|f rest] eqn:Hs.
  - intros E. inversion E; subst st1. exists []. rewrite !app_nil_r.
    split; [reflexivity|]. rewrite Hs. reflexivity.
  - unfold dfs_body. cbn [availability pos open results stack].
    intros H.
    repeat (match type of H with
    | match ?x with Some _ => _ | None => None end = Some _ =>
        destruct x eqn:?; [|discriminate H]
    | (if ?b then _ else _) = Some _ => destruct b eqn:?
    end;
    try match goal with
    | q : (Positions * Z * Z * Z)%type |- _ => destruct q as [[[? ?] ?] ?]
    end);
    inversion H; subst st1; cbn [availability pos open results stack];
    eexists;
    (split; [first [reflexivity|symmetry; apply app_nil_r]|]);
    rewrite ?app_nil_r; reflexivity.
Qed.

Lemma length_set_nth {A} i (x : A) l : length (set_nth i x l) = length l.
Proof.
  revert i. induction l as [|y l IH]; intros [|i]; cbn [set_nth length]; auto.
Qed.

Lemma nth_error_set_nth_same {A} i (x : A) l :
  (i < length l)%nat -> nth_error (set_nth i x l) i = Some x.
Proof.
  revert i. induction l as [|y l IH]; intros [|i] H; cbn [length] in H;
    try lia; cbn [set_nth nth_error]; [reflexivity|]. apply IH. lia.
Qed.

Lemma nth_error_set_nth_other {A} i j (x : A) l :
  i <> j -> nth_error (set_nth i x l) j = nth_error l j.
Proof.
  revert i j. induction l as [|y l IH]; intros [|i] [|j] H;
    cbn [set_nth nth_error]; auto; try congruence.
Qed.

Lemma flat_map_update {B} (f : nat -> list B) i new l :
  NoDup l -> In i l ->
  Permutation (flat_map (fun k => if Nat.eqb k i then f k ++ new else f k) l)
              (flat_map f l ++ new).
Proof.
  induction l as [|a l IH]; intros Hnd Hin; [destruct Hin|].
  inversion Hnd as [|? ? Ha Hnd']; subst. cbn [flat_map].
  destruct (Nat.eqb_spec a i) as [->|N].
  - rewrite (flat_map_ext_in (fun k => if Nat.eqb k i then f k ++ new else f k) f).
    + rewrite <- !app_assoc. apply Permutation_app_head.
      apply Permutation_app_comm.
    + intros c Hc. destruct (Nat.eqb_spec c i) as [->|]; [contradiction|].
      reflexivity.
  - destruct Hin as [E|Hin]; [contradiction|].
    rewrite <- app_assoc. apply Permutation_app_head. apply IH; assumption.
Qed.

Lemma list_sum_head x l : list_sum (x :: l) = (x + list_sum l)%nat.
Proof. reflexivity. Qed.

Lemma list_sum_update (c : nat -> nat) i l :
  NoDup l -> In i l ->
  list_sum (map (fun k => if Nat.eqb k i then S (c k) else c k) l)
  = S (list_sum (map c l)).
Proof.
  induction l as [|a l IH]; intros Hnd Hin; [destruct Hin|].
  inversion Hnd as [|? ? Ha Hnd']; subst. cbn [map].
  rewrite !list_sum_head.
  destruct (Nat.eqb_spec a i) as [->|N].
  - rewrite (map_ext_in (fun k => if Nat.eqb k i then S (c k) else c k) c).
    + reflexivity.
    + intros k Hk. destruct (Nat.eqb_spec k i) as [->|]; [contradiction|].
      reflexivity.
  - destruct Hin as [E|Hin]; [contradiction|]. rewrite IH by assumption. lia.
Qed.

Lemma list_sum_bound (c : nat -> nat) b l :
  (forall i, In i l -> (c i <= b)%nat) ->
  (list_sum (map c l) <= length l * b)%nat.
Proof.
  induction l as [|a l IH]; intros H; [apply le_n|].
  cbn [map length]. rewrite list_sum_head.
  pose proof (H a (or_introl eq_refl)).
  specialize (IH (fun i Hi => H i (or_intror Hi))). lia.
Qed.

Lemma flat_map_map {A B C} (g : A -> B) (f : B -> list C) l :
  flat_map f (map g l) = flat_map (fun x => f (g x)) l.
Proof.
  induction l as [|a l IH]; [reflexivity|].
  cbn [map flat_map]. rewrite IH. reflexivity.
Qed.

Section Threads.

Variables (W n : Z).
Hypothesis Hn : 1 <= n <= 31.

(** The run of a worker on its own. *)
Lemma run_to_end tid :
  exists j st,
    turns W n tid j (init n []) = Some st /\ finished st = true /\
    (j <= nodes_bound (Z.to_nat (2 * n)))%nat /\
    results st = found W n tid.
Proof.
  destruct (subtree_run W n tid Hn (Z.to_nat (2 * n)) []
              (init n []) first_frame [] (root_node n)
              (repeat 0 (Z.to_nat n)))
    as (j & st & Ht & Hj & _ & Hstk & Hres & _).
  - apply loop_inv_init. exact Hn.
  - reflexivity.
  - apply at_level_init; try exact Hn.
  - reflexivity.
  - split; [reflexivity|]. intros; reflexivity.
  - cbn [fk first_frame]. lia.
  - exists j, st. split; [exact Ht|].
    split; [unfold finished; rewrite Hstk; reflexivity|].
    split; [exact Hj|exact Hres].
Qed.

(** A worker that has not left its loop has made fewer turns than its run
    has, and a worker that has left it has appended its entries. *)
Lemma turns_before_end tid j st :
  turns W n tid j (init n []) = Some st ->
  (finished st = false ->
   (S j <= nodes_bound (Z.to_nat (2 * n)))%nat) /\
  (finished st = true -> results st = found W n tid).
Proof.
  intros Ht. destruct (run_to_end tid) as (j0 & st0 & Ht0 & Hf0 & Hj0 & Hr0).
  split.
  - intros Hf. destruct (Nat.le_gt_cases j0 j) as [Hle|Hgt]; [|lia].
    rewrite (turns_more W n tid j0 j _ _ Ht0 Hf0 Hle) in Ht.
    inversion Ht; subst st. congruence.
  - intros Hf. destruct (Nat.le_gt_cases j0 j) as [Hle|Hgt].
    + rewrite (turns_more W n tid j0 j _ _ Ht0 Hf0 Hle) in Ht.
      inversion Ht; subst st. exact Hr0.
    + rewrite (turns_more W n tid j j0 _ _ Ht Hf ltac:(lia)) in Ht0.
      inversion Ht0; subst st. exact Hr0.
Qed.

Lemma start_inv : sys_inv W n (fun _ => []) (fun _ => O) (start W n).
Proof.
  unfold sys_inv, start. cbn [workers shared].
  split; [apply repeat_length|]. split; [rewrite flat_map_nil; constructor|].
  intros i st Hi. apply nth_error_In in Hi. apply repeat_spec in Hi.
  subst st. split; [reflexivity|lia].
Qed.

Lemma thread_step_inv own cnt i sys sys' :
  sys_inv W n own cnt sys -> thread_step W n i sys = Some sys' ->
  exists own' cnt',
    sys_inv W n own' cnt' sys' /\
    list_sum (map cnt' (seq 0 (Z.to_nat W)))
    = S (list_sum (map cnt (seq 0 (Z.to_nat W)))).
Proof.
  intros (Hlen & Hperm & Hw) Hstep. unfold thread_step in Hstep.
  destruct (nth_error (workers sys) i) as [st|] eqn:Ei; [|discriminate].
  destruct (finished st) eqn:Hf; [discriminate|].
  destruct (dfs_step W n (Z.of_nat i) (with_results st (shared sys)))
    as [st1|] eqn:Es; [|discriminate].
  inversion Hstep; subst sys'. clear Hstep.
  destruct (dfs_step_with_results _ _ _ _ _ (own i) Es) as (new & Er & Es').
  cbn [results with_results] in Er.
  change (with_results (with_results st (shared sys)) (own i))
    with (with_results st (own i)) in Es'.
  assert (Hi : (i < Z.to_nat W)%nat).
  { rewrite <- Hlen. apply nth_error_Some. congruence. }
  assert (Hin : In i (seq 0 (Z.to_nat W))) by (apply in_seq; lia).
  destruct (Hw i st Ei) as (Ht & Hc).
  exists (fun k => if Nat.eqb k i then own k ++ new else own k),
         (fun k => if Nat.eqb k i then S (cnt k) else cnt k).
  split; [split; [|split]|].
  - cbn [workers]. rewrite length_set_nth. exact Hlen.
  - cbn [shared]. rewrite Er.
    apply Permutation_trans with (flat_map own (seq 0 (Z.to_nat W)) ++ new).
    + apply Permutation_app_tail. exact Hperm.
    + apply Permutation_sym. apply flat_map_update; [apply seq_NoDup|exact Hin].
  - intros k st' Hk. cbn [workers] in Hk.
    destruct (Nat.eqb_spec k i) as [->|N].
    + rewrite nth_error_set_nth_same in Hk by (rewrite Hlen; exact Hi).
      inversion Hk; subst st'. split.
      * replace (S (cnt i)) with (cnt i + 1)%nat by lia.
        rewrite turns_app, Ht. cbn [turns]. rewrite Es'. reflexivity.
      * apply (proj1 (turns_before_end (Z.of_nat i) (cnt i) _ Ht)).
        exact Hf.
    + rewrite nth_error_set_nth_other in Hk by congruence.
      apply Hw. exact Hk.
  - apply list_sum_update; [apply seq_NoDup|exact Hin].
Qed.

Lemma schedule_inv sched :
  forall own cnt sys sys',
    sys_inv W n own cnt sys -> schedule_run W n sched sys = Some sys' ->
    exists own' cnt',
      sys_inv W n own' cnt' sys' /\
      list_sum (map cnt' (seq 0 (Z.to_nat W)))
      = (list_sum (map cnt (seq 0 (Z.to_nat W))) + length sched)%nat.
Proof.
  induction sched as [|i sched IH]; intros own cnt sys sys' Hinv Hrun;
    cbn [schedule_run] in Hrun.
  - inversion Hrun; subst sys'. exists own, cnt. split; [exact Hinv|].
    cbn [length]. lia.
  - destruct (thread_step W n i sys) as [sys1|] eqn:Es; [|discriminate].
    destruct (thread_step_inv own cnt i sys sys1 Hinv Es)
      as (own1 & cnt1 & Hinv1 & Hc1).
    destruct (IH own1 cnt1 sys1 sys' Hinv1 Hrun) as (own2 & cnt2 & Hinv2 & Hc2).
    exists own2, cnt2. split; [exact Hinv2|]. cbn [length]. lia.
Qed.

(** A thread that has not left its loop can make its next turn. *)
Lemma thread_step_progress own cnt i sys st :
  sys_inv W n own cnt sys ->
  nth_error (workers sys) i = Some st -> finished st = false ->
  exists sys', thread_step W n i sys = Some sys'.
Proof.
  intros (Hlen & Hperm & Hw) Ei Hf.
  destruct (Hw i st Ei) as (Ht & _).
  pose proof (turns_init_inv W n (Z.of_nat i) Hn [] _ _ Ht) as Hinv.
  destruct (turns_inv W n (Z.of_nat i) Hn [] 1 _ Hinv) as (st' & Hs & _).
  cbn [turns] in Hs.
  destruct (dfs_step W n (Z.of_nat i) (with_results st (own i)))
    as [st1|] eqn:Es; [|discriminate].
  destruct (dfs_step_with_results _ _ _ _ _ (shared sys) Es)
    as (new & _ & Es').
  change (with_results (with_results st (own i)) (shared sys))
    with (with_results st (shared sys)) in Es'.
  unfold thread_step. rewrite Ei, Hf, Es'. eauto.
Qed.

(** When all the threads have left their loops the ledger holds the
    entries of every worker. *)
Lemma done_ledger own cnt sys :
  sys_inv W n own cnt sys -> all_done sys = true ->
  Permutation (shared sys) (flat_map (found W n) (worker_ids W)).
Proof.
  intros (Hlen & Hperm & Hw) Hd.
  apply Permutation_trans with (flat_map own (seq 0 (Z.to_nat W)));
    [exact Hperm|].
  unfold worker_ids. rewrite flat_map_map.
  rewrite (flat_map_ext_in own (fun i => found W n (Z.of_nat i)));
    [apply Permutation_refl|].
  intros i Hi. apply in_seq in Hi.
  destruct (nth_error (workers sys) i) as [st|] eqn:Ei.
  - destruct (Hw i st Ei) as (Ht & _).
    unfold all_done in Hd. rewrite forallb_forall in Hd.
    pose proof (Hd st (nth_error_In _ _ Ei)) as Hf.
    apply (proj2 (turns_before_end (Z.of_nat i) (cnt i) _ Ht)). exact Hf.
  - apply nth_error_None in Ei. lia.
Qed.

End Threads.

(** * Further properties of the program *)

(** ** The search *)

Lemma found_3 : found 1 3 0 = [[3; 5; 4]].
Proof. vm_compute. reflexivity. Qed.

Lemma valid_3 :
  langford 3 [3; 5; 4] /\ planar 3 [3; 5; 4] /\ closing [3; 5; 4] 1 <= 3.
Proof.
  apply (proj1 (found_characterised 3 ltac:(lia) [3; 5; 4])).
  rewrite found_3. left. reflexivity.
Qed.

(** X1: the search is complete.  For [1 <= n <= kMaxN] the entries the
    workers record are exactly the planar Langford arrangements in which
    the value 1 closes at a slot [k <= n]: some worker records [p] if and
    only if [p] is such an arrangement. *)
Theorem search_complete W n p :
  1 <= W < 2 ^ 31 -> 1 <= n <= 31 ->
  ((exists tid fnd,
      0 <= tid < W /\ dfs W n tid [] = Some fnd /\ In p fnd) <->
   langford n p /\ planar n p /\ closing p 1 <= n).
Proof.
  intros HW Hn. rewrite <- (found_characterised n Hn p).
  rewrite (found_union W n Hn HW p). split.
  - intros (tid & fnd & Ht & Hd & Hin).
    rewrite (dfs_found_empty W n tid Hn) in Hd. inversion Hd; subst fnd.
    exists tid. auto.
  - intros (tid & Ht & Hin). exists tid, (found W n tid).
    split; [exact Ht|]. split; [apply dfs_found_empty; exact Hn|exact Hin].
Qed.

Lemma search_complete_witness :
  (exists tid fnd,
     0 <= tid < 511 /\ dfs 511 3 tid [] = Some fnd /\ In [3; 5; 4] fnd) <->
  langford 3 [3; 5; 4] /\ planar 3 [3; 5; 4] /\ closing [3; 5; 4] 1 <= 3.
Proof.
  apply (search_complete 511 3 [3; 5; 4]); [rewrite pow2_31; lia|lia].
Defined.

(** X2: for a size [n] that [solve] does not skip, the count it returns is
    the number of planar Langford arrangements in which the value 1 closes
    at a slot [k <= n], provided that number fits the [int] it is returned
    in. *)
Theorem solve_counts n l :
  degenerate n = false -> NoDup l ->
  (forall p, In p l <-> langford n p /\ planar n p /\ closing p 1 <= n) ->
  Z.of_nat (length l) < 2 ^ 31 ->
  solve n = Some (Z.of_nat (length l)).
Proof.
  intros Hd Hnd Hl Hlen.
  apply solve_count_list; [exact Hd|exact Hnd|exact Hl|exact Hlen].
Qed.

Lemma solve_counts_witness : solve 3 = Some (Z.of_nat (length [[3; 5; 4]])).
Proof.
  apply (solve_counts 3 [[3; 5; 4]]).
  - reflexivity.
  - constructor; [intros []|constructor].
  - intros p. rewrite <- (found_characterised 3 ltac:(lia) p), found_3.
    reflexivity.
  - vm_compute. reflexivity.
Defined.

(** X3: of a planar Langford arrangement and its reversal (the sequence
    read from right to left), which is again a planar Langford arrangement,
    the search records exactly one: the test [m || k <= n] removes one
    arrangement of each pair of reversal twins and nothing else. *)
Theorem reversal_dedup n p :
  1 <= n <= 31 -> langford n p -> planar n p ->
  langford n (reversal n p) /\ planar n (reversal n p) /\
  reversal n (reversal n p) = p /\
  exists fnd, dfs 1 n 0 [] = Some fnd /\
    (In p fnd <-> ~ In (reversal n p) fnd).
Proof.
  intros Hn Hl Hp.
  pose proof (langford_reversal n p Hl) as Hl'.
  pose proof (planar_reversal n p Hp) as Hp'.
  split; [exact Hl'|]. split; [exact Hp'|].
  split; [apply reversal_involutive; exact Hl|].
  exists (found 1 n 0). split; [apply dfs_found_empty; exact Hn|].
  rewrite !(found_characterised n Hn).
  pose proof (reversal_side n p ltac:(lia)) as Hs. split.
  - intros (_ & _ & H) (_ & _ & H'). apply Hs in H'. contradiction.
  - intros H. split; [exact Hl|]. split; [exact Hp|].
    destruct (Z.le_gt_cases (closing p 1) n) as [Hc|Hc]; [exact Hc|].
    exfalso. apply H. split; [exact Hl'|]. split; [exact Hp'|].
    apply Hs. lia.
Qed.

Lemma reversal_dedup_witness :
  langford 3 (reversal 3 [3; 5; 4]) /\ planar 3 (reversal 3 [3; 5; 4]) /\
  reversal 3 (reversal 3 [3; 5; 4]) = [3; 5; 4] /\
  exists fnd, dfs 1 3 0 [] = Some fnd /\
    (In [3; 5; 4] fnd <-> ~ In (reversal 3 [3; 5; 4]) fnd).
Proof.
  apply (reversal_dedup 3 [3; 5; 4]); [lia|apply valid_3|apply valid_3].
Defined.

(** X4: the count of [solve] is half the number of all planar Langford
    arrangements of size [n]: the arrangements come in pairs of reversal
    twins and [solve] counts one of each pair. *)
Theorem solve_counts_half n all :
  degenerate n = false -> NoDup all ->
  (forall p, In p all <-> langford n p /\ planar n p) ->
  Z.of_nat (length all) < 2 ^ 31 ->
  exists c, solve n = Some c /\ Z.of_nat (length all) = 2 * c.
Proof.
  intros Hd Hnd Hall Hlen. pose proof (degenerate_false n Hd) as Hn.
  set (early := filter (fun p => closing p 1 <=? n) all).
  pose proof (filter_length (fun p => closing p 1 <=? n) all) as Hsplit.
  fold early in Hsplit.
  pose proof (Permutation_length
                (reversal_halves n all ltac:(lia) Hnd Hall)) as Hrev.
  rewrite length_map in Hrev. fold early in Hrev.
  exists (Z.of_nat (length early)). split; [|lia].
  apply solve_count_list; [exact Hd|apply NoDup_filter; exact Hnd| |lia].
  intros p. unfold early. rewrite filter_In, (Hall p), Z.leb_le. tauto.
Qed.

Lemma solve_counts_half_witness :
  exists c, solve 3 = Some c /\
            Z.of_nat (length [[3; 5; 4]; [4; 3; 5]]) = 2 * c.
Proof.
  apply (solve_counts_half 3 [[3; 5; 4]; [4; 3; 5]]).
  - reflexivity.
  - constructor; [intros [E|[]]; discriminate E|].
    constructor; [intros []|constructor].
  - assert (Er : reversal 3 [3; 5; 4] = [4; 3; 5]) by reflexivity.
    destruct valid_3 as (Hl & Hp & Hc).
    intros p. split.
    + intros [<-|[<-|[]]]; [split; assumption|].
      rewrite <- Er.
      split; [apply langford_reversal|apply planar_reversal]; assumption.
    + intros (Hlp & Hpp).
      destruct (Z.le_gt_cases (closing p 1) 3) as [H|H].
      * left. symmetry.
        assert (Hin : In p (found 1 3 0))
          by (apply (proj2 (found_characterised 3 ltac:(lia) p)); tauto).
        rewrite found_3 in Hin. destruct Hin as [E|[]]. auto.
      * right. left. rewrite <- Er.
        assert (Hin : In (reversal 3 p) (found 1 3 0)).
        { apply (proj2 (found_characterised 3 ltac:(lia) (reversal 3 p))).
          split; [apply langford_reversal; exact Hlp|].
          split; [apply planar_reversal; exact Hpp|].
          apply (proj2 (reversal_side 3 p ltac:(lia))). lia. }
        rewrite found_3 in Hin. destruct Hin as [E|[]].
        rewrite E. apply reversal_involutive. exact Hlp.
  - vm_compute. reflexivity.
Defined.

(** X5: for [n] congruent to 1 or 2 modulo 4 there is no Langford
    arrangement, and a worker started on such an [n] terminates and records
    nothing: the sizes [solve] skips with [return 0] have no solution. *)
Theorem skipped_sizes_empty W n thread_id ledger :
  1 <= n <= 31 -> n mod 4 = 1 \/ n mod 4 = 2 ->
  (forall p, ~ langford n p) /\
  dfs W n thread_id ledger = Some ledger.
Proof.
  intros Hn Hr. split.
  - intros p Hl. pose proof (langford_residue n p Hl). lia.
  - rewrite (dfs_found W n thread_id Hn ledger).
    rewrite (found_degenerate W n thread_id Hn Hr), app_nil_r. reflexivity.
Qed.

Lemma skipped_sizes_empty_witness :
  (forall p, ~ langford 5 p) /\ dfs 511 5 0 [] = Some [].
Proof.
  apply (skipped_sizes_empty 511 5 0 []); [lia|left; reflexivity].
Defined.

(** X6: the cells [dfs] reads before writing them do not influence it:
    whatever the arrays [availability], [pos] and [open] hold beyond the
    three cells the program initialises, the loop terminates with an empty
    stack and has appended the same entries. *)
Theorem uninitialised_cells_irrelevant W n thread_id av ps op ledger :
  1 <= n <= 31 ->
  Z.of_nat (length av) = 2 * n -> Z.of_nat (length ps) = n ->
  Z.of_nat (length op) = 4 * n ->
  exists j st fnd,
    turns W n thread_id j (init_with n av ps op ledger) = Some st /\
    stack st = [] /\ results st = ledger ++ fnd /\
    dfs W n thread_id ledger = Some (ledger ++ fnd).
Proof.
  intros Hn La Lp Lo.
  destruct (dfs_uninitialised W n thread_id av ps op ledger Hn La Lp Lo)
    as (j & st & Ht & Hs & Hr).
  exists j, st, (found W n thread_id).
  split; [exact Ht|]. split; [exact Hs|]. split; [exact Hr|].
  apply dfs_found. exact Hn.
Qed.

Lemma uninitialised_cells_irrelevant_witness :
  exists j st fnd,
    turns 511 3 0 j
      (init_with 3 (repeat 7 6) (repeat 9 3) (repeat 5 12) []) = Some st /\
    stack st = [] /\ results st = [] ++ fnd /\
    dfs 511 3 0 [] = Some ([] ++ fnd).
Proof.
  apply (uninitialised_cells_irrelevant 511 3 0
           (repeat 7 6) (repeat 9 3) (repeat 5 12) []);
    [lia|reflexivity|reflexivity|reflexivity].
Defined.

(** X7: the loop of [dfs] ends after at most [(4 ^ (2 n) - 1) / 3] turns,
    the size of a tree with four decisions at each of the [2 n] slots. *)
Theorem loop_turn_bound W n thread_id ledger :
  1 <= n <= 31 ->
  exists j st,
    turns W n thread_id j (init n ledger) = Some st /\
    stack st = [] /\ 3 * Z.of_nat j + 1 <= 4 ^ (2 * n).
Proof.
  intros Hn.
  destruct (subtree_run W n thread_id Hn (Z.to_nat (2 * n)) ledger
              (init n ledger) first_frame [] (root_node n)
              (repeat 0 (Z.to_nat n)))
    as (j & st & Ht & Hj & _ & Hstk & _).
  - apply loop_inv_init. exact Hn.
  - reflexivity.
  - apply at_level_init; try exact Hn.
  - reflexivity.
  - split; [reflexivity|]. intros; reflexivity.
  - cbn [fk first_frame]. lia.
  - exists j, st. split; [exact Ht|]. split; [exact Hstk|].
    pose proof (nodes_bound_pow (Z.to_nat (2 * n))) as Hb.
    assert (E : 4 ^ (2 * n) = Z.of_nat (2 ^ (2 * Z.to_nat (2 * n)))).
    { rewrite Nat2Z.inj_pow, Nat2Z.inj_mul, Z2Nat.id by lia.
      change (Z.of_nat 2) with 2. change 4 with (2 ^ 2).
      rewrite <- Z.pow_mul_r by lia. reflexivity. }
    rewrite E. lia.
Qed.

Lemma loop_turn_bound_witness :
  exists j st,
    turns 511 3 0 j (init 3 []) = Some st /\
    stack st = [] /\ 3 * Z.of_nat j + 1 <= 4 ^ (2 * 3).
Proof. apply (loop_turn_bound 511 3 0 []). lia. Defined.

(** X8: the openings word is a stack.  When all its set bits stand for
    slots before [k] (it is a multiple of [2 ^ (2 n - k)]), opening a pair
    at slot [k] makes [ffsll] return [2 n - k], from which the slot [k] is
    recovered, and the next close on this word, [x & (x - 1)], gives back
    the word as it was before the opening. *)
Theorem openings_round_trip n k k' m od y :
  1 <= n <= 31 -> 0 <= k < 2 * n -> 0 <= m -> 0 <= y ->
  od = 2 ^ (2 * n - k) * y -> od < 2 ^ (2 * n) ->
  ffsll (place_open n k (-1) od) = 2 * n - k /\
  place_open n k' m (place_open n k (-1) od) = od.
Proof.
  intros Hn Hk Hm Hy Eod Hlt.
  assert (Eo : place_open n k (-1) od = 2 ^ (2 * n - 1 - k) * (2 * y + 1)).
  { unfold place_open. cbn [Z.leb Z.compare].
    rewrite (shiftr_nn1 n Hn k Hk), Eod.
    replace (2 * n - k) with (2 * n - 1 - k + 1) by lia.
    apply lor_low. lia. }
  rewrite Eo. split.
  - rewrite ffsll_low by lia. lia.
  - unfold place_open. rewrite (proj2 (Z.leb_le 0 m) Hm).
    pose proof (pow2_2n_le n Hn) as H62.
    pose proof (pow2_pos (2 * n - 1 - k) ltac:(lia)) as Hpos.
    assert (E2 : 2 ^ (2 * n - k) = 2 * 2 ^ (2 * n - 1 - k)).
    { replace (2 * n - k) with (2 * n - 1 - k + 1) by lia.
      apply pow2_succ. lia. }
    assert (E3 : 2 ^ (2 * n) = 2 ^ k * 2 ^ (2 * n - k)).
    { rewrite <- Z.pow_add_r by lia. f_equal. lia. }
    pose proof (pow2_pos k ltac:(lia)) as Hpk.
    assert (Hy' : y < 2 ^ k).
    { rewrite Eod, E3 in Hlt. rewrite E2 in *.
      generalize dependent (2 ^ (2 * n - 1 - k)).
      generalize dependent (2 ^ k). intros. nia. }
    assert (Hx : 2 ^ (2 * n - 1 - k) * (2 * y + 1) < 2 ^ (2 * n)).
    { rewrite E3, E2.
      generalize dependent (2 ^ (2 * n - 1 - k)).
      generalize dependent (2 ^ k). intros. nia. }
    assert (Hx0 : 0 < 2 ^ (2 * n - 1 - k) * (2 * y + 1))
      by (apply Z.mul_pos_pos; lia).
    rewrite int64_id by lia.
    rewrite land_pred_low by lia. rewrite Eod.
    replace (2 * n - 1 - k + 1) with (2 * n - k) by lia. reflexivity.
Qed.

Lemma openings_round_trip_witness :
  ffsll (place_open 3 2 (-1) 32) = 2 * 3 - 2 /\
  place_open 3 5 1 (place_open 3 2 (-1) 32) = 32.
Proof.
  apply (openings_round_trip 3 2 5 1 32 2);
    [lia|lia|lia|lia|reflexivity|reflexivity].
Defined.

(** ** The work of the workers *)

(** X9: for [6 <= n <= kMaxN] and more than one worker, every path of the
    search is explored by exactly one worker: the workers terminate and
    their ledger is a rearrangement of the ledger a single worker builds on
    the whole tree, entry for entry. *)
Theorem workers_share_paths W n :
  1 < W < 2 ^ 31 -> 6 <= n <= 31 ->
  exists ledger single,
    run_workers W n (worker_ids W) [] = Some ledger /\
    dfs 1 n 0 [] = Some single /\
    Permutation ledger single.
Proof.
  intros HW Hn.
  exists (flat_map (found W n) (worker_ids W)), (found 1 n 0).
  split; [apply (run_workers_found W n ltac:(lia))|].
  split; [apply dfs_found_empty; lia|].
  apply found_shared; lia.
Qed.

Lemma workers_share_paths_witness :
  exists ledger single,
    run_workers 511 8 (worker_ids 511) [] = Some ledger /\
    dfs 1 8 0 [] = Some single /\
    Permutation ledger single.
Proof. apply (workers_share_paths 511 8); [rewrite pow2_31; lia|lia]. Defined.

(** X10: for [n <= 5] the partition depth [k_limit = n - 5] is never
    reached (the test comes after [++k]), so the work is not divided: every
    worker records every entry of the whole tree and the ledger of [W]
    workers is [W] times as long as that of one. *)
Theorem small_sizes_unshared W n :
  1 <= n <= 5 -> 0 <= W ->
  exists single ledger,
    dfs 1 n 0 [] = Some single /\
    (forall tid l, dfs W n tid l = Some (l ++ single)) /\
    run_workers W n (worker_ids W) [] = Some ledger /\
    Z.of_nat (length ledger) = W * Z.of_nat (length single).
Proof.
  intros Hn HW.
  exists (found 1 n 0), (flat_map (found W n) (worker_ids W)).
  split; [apply dfs_found_empty; lia|]. split; [|split].
  - intros tid l. rewrite (dfs_found W n tid ltac:(lia) l).
    rewrite (found_unshared W n tid Hn). reflexivity.
  - apply (run_workers_found W n ltac:(lia)).
  - rewrite (flat_map_ext_in (found W n) (fun _ => found 1 n 0)).
    + rewrite flat_map_const_length, Nat2Z.inj_mul.
      rewrite (length_worker_ids W HW). reflexivity.
    + intros t _. apply found_unshared. exact Hn.
Qed.

Lemma small_sizes_unshared_witness :
  exists single ledger,
    dfs 1 3 0 [] = Some single /\
    (forall tid l, dfs 511 3 tid l = Some (l ++ single)) /\
    run_workers 511 3 (worker_ids 511) [] = Some ledger /\
    Z.of_nat (length ledger) = 511 * Z.of_nat (length single).
Proof. apply (small_sizes_unshared 511 3); lia. Defined.

(** ** The finalisation *)

(** X11: the result of [unique_count], the sorted ledger as well as the
    count, does not depend on the order of the entries, hence not on the
    order in which the workers appended them. *)
Theorem count_order_independent l1 l2 :
  Permutation l1 l2 -> unique_count l1 = unique_count l2.
Proof.
  intros P. unfold unique_count.
  rewrite (sort_perm_eq l1 l2 P), (Permutation_length P). reflexivity.
Qed.

Lemma count_order_independent_witness :
  unique_count [[3; 5; 4]; [4; 3; 5]] = unique_count [[4; 3; 5]; [3; 5; 4]].
Proof.
  apply (count_order_independent [[3; 5; 4]; [4; 3; 5]]
           [[4; 3; 5]; [3; 5; 4]]).
  apply perm_swap.
Defined.

(** X12: on a ledger of fewer than [2 ^ 31] entries, which the [int]
    index of the loop can count, the count of [unique_count] lies between 0
    and the length of the ledger, and it is 0 on the empty ledger only. *)
Theorem count_bounds ledger :
  Z.of_nat (length ledger) < 2 ^ 31 ->
  0 <= snd (unique_count ledger) <= Z.of_nat (length ledger) /\
  (snd (unique_count ledger) = 0 <-> ledger = []).
Proof.
  intros Hl.
  assert (Hl' : Z.of_nat (length ledger) < 2 ^ 63)
    by (rewrite pow2_31 in Hl; rewrite pow2_63; lia).
  destruct (unique_count_spec ledger Hl') as (_ & _ & _ & ->).
  split; [apply distinct_range|apply distinct_zero].
Qed.

Lemma count_bounds_witness :
  0 <= snd (unique_count [[3; 5; 4]; [3; 5; 4]])
    <= Z.of_nat (length [[3; 5; 4]; [3; 5; 4]]) /\
  (snd (unique_count [[3; 5; 4]; [3; 5; 4]]) = 0
   <-> [[3; 5; 4]; [3; 5; 4]] = []).
Proof.
  apply (count_bounds [[3; 5; 4]; [3; 5; 4]]). vm_compute. reflexivity.
Defined.

(** X13: on a ledger of fewer than [2 ^ 31] entries, which the [int]
    index of the loop can count, [unique_count] with [kPrint] set passes to
    [print] every distinct entry of the ledger exactly once, in increasing
    order, and the count it returns is the number of entries printed; with
    [kPrint] unset it prints nothing. *)
Theorem printed_distinct ledger :
  Z.of_nat (length ledger) < 2 ^ 31 ->
  (forall q, In q (printed true ledger) <-> In q ledger) /\
  StronglySorted pos_lt (printed true ledger) /\
  NoDup (printed true ledger) /\
  Z.of_nat (length (printed true ledger)) = snd (unique_count ledger) /\
  printed false ledger = [].
Proof.
  intros Hl.
  assert (Hl' : Z.of_nat (length ledger) < 2 ^ 63)
    by (rewrite pow2_31 in Hl; rewrite pow2_63; lia).
  destruct (printed_spec ledger) as (Hin & Hs & Hlen).
  destruct (unique_count_spec ledger Hl') as (_ & _ & Er & _).
  split; [exact Hin|]. split; [exact Hs|].
  split; [apply pos_lt_NoDup; exact Hs|].
  split; [|reflexivity].
  rewrite Hlen, Er. reflexivity.
Qed.

Lemma printed_distinct_witness :
  (forall q, In q (printed true [[4; 3; 5]; [3; 5; 4]; [4; 3; 5]])
             <-> In q [[4; 3; 5]; [3; 5; 4]; [4; 3; 5]]) /\
  StronglySorted pos_lt (printed true [[4; 3; 5]; [3; 5; 4]; [4; 3; 5]]) /\
  NoDup (printed true [[4; 3; 5]; [3; 5; 4]; [4; 3; 5]]) /\
  Z.of_nat (length (printed true [[4; 3; 5]; [3; 5; 4]; [4; 3; 5]]))
  = snd (unique_count [[4; 3; 5]; [3; 5; 4]; [4; 3; 5]]) /\
  printed false [[4; 3; 5]; [3; 5; 4]; [4; 3; 5]] = [].
Proof.
  apply (printed_distinct [[4; 3; 5]; [3; 5; 4]; [4; 3; 5]]).
  vm_compute. reflexivity.
Defined.

(** ** Printing *)

(** X14: the assertions of [print] pass exactly on the Langford
    arrangements: for an array of [n] closing slots, [print] writes a
    sequence if and only if every value has its two slots among the [2 n]
    slots, with [v] slots between them, and no slot is taken twice. *)
Theorem print_accepts_langford n p :
  Z.of_nat (length p) = n ->
  ((exists s, print n p = Some s) <-> langford n p).
Proof.
  intros Lp. split.
  - intros (s & Hs). apply (print_checks n p Lp s Hs).
  - intros Hl. destruct (print_langford n p Hl ltac:(lia)) as (s & Hs & _).
    exists s. exact Hs.
Qed.

Lemma print_accepts_langford_witness :
  (exists s, print 3 [3; 5; 4] = Some s) <-> langford 3 [3; 5; 4].
Proof. apply (print_accepts_langford 3 [3; 5; 4]). reflexivity. Defined.

(** X15: every call of [print] that [unique_count] makes on the ledger of
    [solve] passes its assertions and writes a sequence in which every
    value [v] stands in exactly two slots, with [v] slots between them. *)
Theorem printed_entries_valid W n ledger q :
  1 <= n <= 31 ->
  run_workers W n (worker_ids W) [] = Some ledger ->
  In q (printed true ledger) ->
  exists s, print n q = Some s /\
    Z.of_nat (length s) = 2 * n /\
    forall t v, 0 <= t < 2 * n -> 1 <= v <= n ->
      (rd s t = Some v <-> t = closing q v - v - 1 \/ t = closing q v).
Proof.
  intros Hn Hr Hq.
  apply (proj1 (printed_spec ledger)) in Hq.
  destruct (run_workers_valid W n ledger q Hn Hr Hq) as (Hl & _).
  apply (print_langford n q Hl). lia.
Qed.

Lemma printed_entries_valid_witness :
  exists s, print 3 [3; 5; 4] = Some s /\
    Z.of_nat (length s) = 2 * 3 /\
    forall t v, 0 <= t < 2 * 3 -> 1 <= v <= 3 ->
      (rd s t = Some v <->
       t = closing [3; 5; 4] v - v - 1 \/ t = closing [3; 5; 4] v).
Proof.
  apply (printed_entries_valid 1 3 [[3; 5; 4]] [3; 5; 4]).
  - lia.
  - vm_compute. reflexivity.
  - vm_compute. left. reflexivity.
Defined.

(** ** The driver *)

(** X16: [init_known_results] fills any array of 64 cells without leaving
    it, whatever the array held before: the entry is [-1] exactly for
    [29 <= i] with [i] congruent to 0 or 3 modulo 4, it is [0] for every
    [i] congruent to 1 or 2 modulo 4 and for [i = 0], and it is the
    published count for the sizes assigned one by one. *)
Theorem known_results_table a :
  length a = 64%nat ->
  exists t,
    init_known_results a = Some t /\ length t = 64%nat /\
    forall i, 0 <= i < 64 ->
      (rd t i = Some (-1) <-> 29 <= i /\ (i mod 4 = 3 \/ i mod 4 = 0)) /\
      (i mod 4 = 1 \/ i mod 4 = 2 \/ i = 0 -> rd t i = Some 0) /\
      (forall r, In (i, r) published -> rd t i = Some r).
Proof.
  intros La. rewrite (init_known_results_any a La).
  destruct (init_known_results (repeat 0 64)) as [t|] eqn:E;
    [|vm_compute in E; discriminate E].
  exists t. split; [reflexivity|]. split.
  - vm_compute in E. inversion E. reflexivity.
  - intros i Hi. destruct (known_results_entries t i E Hi) as (A & B & C & _).
    auto.
Qed.

Lemma known_results_table_witness :
  exists t,
    init_known_results (repeat 7 64) = Some t /\ length t = 64%nat /\
    forall i, 0 <= i < 64 ->
      (rd t i = Some (-1) <-> 29 <= i /\ (i mod 4 = 3 \/ i mod 4 = 0)) /\
      (i mod 4 = 1 \/ i mod 4 = 2 \/ i = 0 -> rd t i = Some 0) /\
      (forall r, In (i, r) published -> rd t i = Some r).
Proof. apply (known_results_table (repeat 7 64)). reflexivity. Defined.

(** X17: [run] reports on every [n] without reading outside the table:
    it prints the count of [solve], with the verdict NEW exactly when [n]
    is outside [0 .. 63] or has no published count ([29 <= n], [n]
    congruent to 0 or 3 modulo 4), with MATCHES only when the table holds
    the count, and with MISMATCHES and the table entry otherwise. *)
Theorem run_reports n a t :
  length a = 64%nat -> init_known_results a = Some t ->
  exists c v,
    run n t = Some (c, v) /\ solve n = Some c /\
    (v = New <->
     n < 0 \/ 64 <= n \/ (29 <= n /\ (n mod 4 = 3 \/ n mod 4 = 0))) /\
    (v = Matches -> rd t n = Some c) /\
    (forall r, v = Mismatches r -> rd t n = Some r /\ r <> c).
Proof.
  intros La Et. rewrite (init_known_results_any a La) in Et.
  destruct (solve_total n) as (c & Es). exists c.
  rewrite (run_cases n t c Es).
  destruct (Z.ltb_spec n 0) as [H0|H0]; cbn [orb].
  { exists New. split; [reflexivity|]. split; [exact Es|].
    split; [split; auto|]. split; [discriminate|discriminate]. }
  destruct (Z.leb_spec 64 n) as [H64|H64].
  { exists New. split; [reflexivity|]. split; [exact Es|].
    split; [split; auto|]. split; [discriminate|discriminate]. }
  destruct (known_results_entries t n Et ltac:(lia))
    as (Hnew & _ & _ & (r & Hr & _)).
  rewrite Hr. destruct (Z.eqb_spec r (-1)) as [E1|N1].
  { exists New. split; [reflexivity|]. split; [exact Es|]. subst r.
    apply Hnew in Hr.
    split; [split; auto|]. split; [discriminate|discriminate]. }
  assert (Hno : ~ (29 <= n /\ (n mod 4 = 3 \/ n mod 4 = 0))).
  { intros H. apply Hnew in H. congruence. }
  destruct (Z.eqb_spec r c) as [E2|N2].
  - exists Matches. split; [reflexivity|]. split; [exact Es|].
    split; [split; [discriminate|intros [H|[H|H]]; [lia|lia|contradiction]]|].
    split; [intros _; congruence|discriminate].
  - exists (Mismatches r). split; [reflexivity|]. split; [exact Es|].
    split; [split; [discriminate|intros [H|[H|H]]; [lia|lia|contradiction]]|].
    split; [discriminate|]. intros r' E. inversion E; subst r'. auto.
Qed.

Lemma run_reports_witness :
  exists c v,
    run 5 [0; 0; 0; 1; 0; 0; 0; 0; 4; 0; 0; 16; 40; 0; 0; 194; 274; 0; 0;
           2384; 4719; 0; 0; 31856; 62124; 0; 0; 426502; 817717; 0; 0; -1;
           -1; 0; 0; -1; -1; 0; 0; -1; -1; 0; 0; -1; -1; 0; 0; -1; -1; 0; 0;
           -1; -1; 0; 0; -1; -1; 0; 0; -1; -1; 0; 0; -1] = Some (c, v) /\
    solve 5 = Some c /\
    (v = New <->
     5 < 0 \/ 64 <= 5 \/ (29 <= 5 /\ (5 mod 4 = 3 \/ 5 mod 4 = 0))) /\
    (v = Matches ->
     rd [0; 0; 0; 1; 0; 0; 0; 0; 4; 0; 0; 16; 40; 0; 0; 194; 274; 0; 0;
         2384; 4719; 0; 0; 31856; 62124; 0; 0; 426502; 817717; 0; 0; -1;
         -1; 0; 0; -1; -1; 0; 0; -1; -1; 0; 0; -1; -1; 0; 0; -1; -1; 0; 0;
         -1; -1; 0; 0; -1; -1; 0; 0; -1; -1; 0; 0; -1] 5 = Some c) /\
    (forall r, v = Mismatches r ->
     rd [0; 0; 0; 1; 0; 0; 0; 0; 4; 0; 0; 16; 40; 0; 0; 194; 274; 0; 0;
         2384; 4719; 0; 0; 31856; 62124; 0; 0; 426502; 817717; 0; 0; -1;
         -1; 0; 0; -1; -1; 0; 0; -1; -1; 0; 0; -1; -1; 0; 0; -1; -1; 0; 0;
         -1; -1; 0; 0; -1; -1; 0; 0; -1; -1; 0; 0; -1] 5 = Some r /\ r <> c).
Proof.
  apply (run_reports 5 (repeat 0 64)); [reflexivity|vm_compute; reflexivity].
Defined.

(** X18: for a size that [solve] skips and that lies in the table
    ([0 <= n < 64], [n] congruent to 1 or 2 modulo 4, or [n = 0]) [run]
    reports the count 0 with the verdict MATCHES; for a size above [kMaxN]
    that is congruent to 0 or 3 modulo 4, which [solve] skips as well, it
    reports the count 0 with the verdict NEW. *)
Theorem run_skipped_sizes n a t :
  length a = 64%nat -> init_known_results a = Some t ->
  (0 <= n < 64 -> n mod 4 = 1 \/ n mod 4 = 2 \/ n = 0 ->
   run n t = Some (0, Matches)) /\
  (32 <= n -> n mod 4 = 3 \/ n mod 4 = 0 -> run n t = Some (0, New)).
Proof.
  intros La Et. rewrite (init_known_results_any a La) in Et. split.
  - intros Hn Hr.
    assert (Es : solve n = Some 0).
    { apply solve_degenerate. apply degenerate_cases. lia. }
    destruct (known_results_entries t n Et Hn) as (_ & H0 & _).
    rewrite (run_cases n t 0 Es), (H0 Hr).
    replace (n <? 0) with false by (symmetry; apply Z.ltb_ge; lia).
    replace (64 <=? n) with false by (symmetry; apply Z.leb_gt; lia).
    reflexivity.
  - intros Hn Hr.
    assert (Es : solve n = Some 0).
    { apply solve_degenerate. apply degenerate_cases. lia. }
    rewrite (run_cases n t 0 Es).
    replace (n <? 0) with false by (symmetry; apply Z.ltb_ge; lia).
    destruct (Z.leb_spec 64 n) as [H64|H64]; cbn [orb]; [reflexivity|].
    destruct (known_results_entries t n Et ltac:(lia)) as (Hnew & _).
    rewrite (proj2 Hnew ltac:(lia)). reflexivity.
Qed.

Lemma run_skipped_sizes_witness :
  exists t,
    init_known_results (repeat 0 64) = Some t /\
    run 5 t = Some (0, Matches) /\ run 32 t = Some (0, New).
Proof.
  destruct (init_known_results (repeat 0 64)) as [t|] eqn:E;
    [|vm_compute in E; discriminate E].
  exists t. split; [reflexivity|].
  destruct (run_skipped_sizes 5 (repeat 0 64) t eq_refl E) as (H5 & _).
  destruct (run_skipped_sizes 32 (repeat 0 64) t eq_refl E) as (_ & H32).
  split.
  - apply H5; [lia|left; reflexivity].
  - apply H32; [lia|right; reflexivity].
Defined.

(** X19: [main] runs to its end whatever its local array held before; it
    prints fourteen lines, none with the verdict NEW, and the first five,
    for [n = 3, 4, 7, 8, 11], carry the published counts 1, 0, 0, 4, 16
    with the verdict MATCHES. *)
Theorem main_lines a :
  length a = 64%nat ->
  exists lines,
    main a = Some lines /\ length lines = 14%nat /\
    (forall c v, In (c, v) lines -> v <> New) /\
    firstn 5 lines
    = [(1, Matches); (0, Matches); (0, Matches); (4, Matches); (16, Matches)].
Proof.
  intros La. unfold main. rewrite (init_known_results_any a La).
  destruct (init_known_results (repeat 0 64)) as [t|] eqn:Et;
    [|vm_compute in Et; discriminate Et].
  assert (Hrun : forall n r, In (n, r) published -> forall c,
            solve n = Some c ->
            run n t = Some (c, if r =? c then Matches else Mismatches r)).
  { intros n r Hin c Es. apply run_published; assumption. }
  destruct (solve_total 12) as (c12 & E12).
  destruct (solve_total 15) as (c15 & E15).
  destruct (solve_total 16) as (c16 & E16).
  destruct (solve_total 19) as (c19 & E19).
  destruct (solve_total 20) as (c20 & E20).
  destruct (solve_total 23) as (c23 & E23).
  destruct (solve_total 24) as (c24 & E24).
  destruct (solve_total 27) as (c27 & E27).
  destruct (solve_total 28) as (c28 & E28).
  assert (P : forall n r, In (n, r) published -> In (n, r) published)
    by auto.
  unfold main_runs. cbn [run_all].
  rewrite (Hrun 3 1 ltac:(cbn; tauto) 1 fixture_3).
  rewrite (Hrun 4 0 ltac:(cbn; tauto) 0 fixture_4).
  rewrite (Hrun 7 0 ltac:(cbn; tauto) 0 fixture_7).
  rewrite (Hrun 8 4 ltac:(cbn; tauto) 4 fixture_8).
  rewrite (Hrun 11 16 ltac:(cbn; tauto) 16 fixture_11).
  rewrite (Hrun 12 40 ltac:(cbn; tauto) c12 E12).
  rewrite (Hrun 15 194 ltac:(cbn; tauto) c15 E15).
  rewrite (Hrun 16 274 ltac:(cbn; tauto) c16 E16).
  rewrite (Hrun 19 2384 ltac:(cbn; tauto) c19 E19).
  rewrite (Hrun 20 4719 ltac:(cbn; tauto) c20 E20).
  rewrite (Hrun 23 31856 ltac:(cbn; tauto) c23 E23).
  rewrite (Hrun 24 62124 ltac:(cbn; tauto) c24 E24).
  rewrite (Hrun 27 426502 ltac:(cbn; tauto) c27 E27).
  rewrite (Hrun 28 817717 ltac:(cbn; tauto) c28 E28).
  eexists. split; [reflexivity|]. split; [reflexivity|]. split.
  - intros c v Hin. cbn [In] in Hin.
    repeat (destruct Hin as [Hin|Hin];
            [inversion Hin; subst;
             match goal with
             | |- (if ?b then _ else _) <> _ => destruct b; discriminate
             | |- _ => discriminate
             end|]).
    destruct Hin.
  - reflexivity.
Qed.

Lemma main_lines_witness :
  exists lines,
    main (repeat 7 64) = Some lines /\ length lines = 14%nat /\
    (forall c v, In (c, v) lines -> v <> New) /\
    firstn 5 lines
    = [(1, Matches); (0, Matches); (0, Matches); (4, Matches); (16, Matches)].
Proof. apply (main_lines (repeat 7 64)). reflexivity. Defined.

(** X20: [print] writes different sequences for different Langford
    arrangements, on which none of its assertions fails: two Langford
    arrangements, such as two entries recorded by the workers, for which
    [print] writes the same sequence are equal, so the closing slots can
    be read back from the sequence. *)
Theorem print_injective n p q :
  langford n p -> langford n q -> print n p = print n q -> p = q.
Proof.
  intros Hlp Hlq E.
  pose proof Hlp as (Lp & _). pose proof Hlq as (Lq & _).
  destruct (print_langford n p Hlp ltac:(lia)) as (s1 & E1 & _ & H1).
  destruct (print_langford n q Hlq ltac:(lia)) as (s2 & E2 & _ & H2).
  assert (s1 = s2) by congruence. subst s2.
  rewrite (positions_values n p Lp), (positions_values n q Lq).
  apply map_ext_in. intros v Hv. apply values_In in Hv.
  pose proof (langford_slots n p Hlp v Hv) as Sp.
  pose proof (langford_slots n q Hlq v Hv) as Sq.
  assert (A : occupies q v (closing p v)).
  { apply H2; [lia|exact Hv|]. apply H1; [lia|exact Hv|]. right. reflexivity. }
  assert (B : occupies p v (closing q v)).
  { apply H1; [lia|exact Hv|]. apply H2; [lia|exact Hv|]. right. reflexivity. }
  destruct A as [A|A], B as [B|B]; lia.
Qed.

Lemma print_injective_witness :
  langford 3 [3; 5; 4] /\ [3; 5; 4] = [3; 5; 4].
Proof.
  split; [apply valid_3|].
  apply (print_injective 3 [3; 5; 4] [3; 5; 4]);
    [apply valid_3|apply valid_3|reflexivity].
Defined.

(** X21: what the program counts.  The sequence [print] writes for an entry
    a worker has recorded is an arrangement of [1, 1, 2, 2, ..., n, n] in
    which the two occurrences of each [v] are separated by exactly [v]
    other numbers. *)
Theorem recorded_sequences W n thread_id fnd p :
  1 <= n <= 31 ->
  dfs W n thread_id [] = Some fnd -> In p fnd ->
  exists s,
    print n p = Some s /\
    Permutation s (values n ++ values n) /\
    forall v, 1 <= v <= n ->
      exists t, 0 <= t /\ t + v + 1 < 2 * n /\
        rd s t = Some v /\ rd s (t + v + 1) = Some v /\
        forall u, 0 <= u < 2 * n -> rd s u = Some v ->
                  u = t \/ u = t + v + 1.
Proof.
  intros Hn Hd Hin.
  rewrite (dfs_found_empty W n thread_id Hn) in Hd. inversion Hd; subst fnd.
  destruct (found_valid n Hn W thread_id p Hin) as (Hl & _).
  destruct (print_langford n p Hl ltac:(lia)) as (s & Hs & Ls & Hocc).
  exists s. split; [exact Hs|]. split.
  - apply (sequence_perm n p s Hl Ls Hocc).
  - intros v Hv. apply (sequence_distance n p s Hl Hocc v Hv).
Qed.

Lemma recorded_sequences_witness :
  exists s,
    print 3 [3; 5; 4] = Some s /\
    Permutation s (values 3 ++ values 3) /\
    forall v, 1 <= v <= 3 ->
      exists t, 0 <= t /\ t + v + 1 < 2 * 3 /\
        rd s t = Some v /\ rd s (t + v + 1) = Some v /\
        forall u, 0 <= u < 2 * 3 -> rd s u = Some v ->
                  u = t \/ u = t + v + 1.
Proof.
  apply (recorded_sequences 511 3 0 [[3; 5; 4]] [3; 5; 4]).
  - lia.
  - vm_compute. reflexivity.
  - left. reflexivity.
Defined.

(** ** The threads *)

(** X22: the result does not depend on the scheduling of the threads.
    However the turns of the [W] workers interleave on the shared ledger,
    once every worker has left its loop the ledger is a rearrangement of
    the ledger the workers build when they run one after the other, and
    the count [solve] returns on it is the same. *)
Theorem schedule_independent W n sched sys :
  1 <= n <= 31 -> 1 <= W < 2 ^ 31 ->
  schedule_run W n sched (start W n) = Some sys -> all_done sys = true ->
  exists ledger,
    run_workers W n (worker_ids W) [] = Some ledger /\
    Permutation (shared sys) ledger /\
    unique_count (shared sys) = unique_count ledger /\
    (degenerate n = false ->
     solve_with W n = Some (int32 (snd (unique_count (shared sys))))).
Proof.
  intros Hn HW Hrun Hd.
  destruct (schedule_inv W n Hn sched _ _ _ _ (start_inv W n) Hrun)
    as (own & cnt & Hinv & _).
  pose proof (done_ledger W n Hn own cnt sys Hinv Hd) as Hp.
  exists (flat_map (found W n) (worker_ids W)).
  split; [apply (run_workers_found W n Hn)|]. split; [exact Hp|].
  assert (E : unique_count (shared sys)
              = unique_count (flat_map (found W n) (worker_ids W))).
  { unfold unique_count.
    rewrite (sort_perm_eq _ _ Hp), (Permutation_length Hp). reflexivity. }
  split; [exact E|].
  intros Hdeg. unfold solve_with, solve_run. rewrite Hdeg.
  rewrite (run_workers_found W n Hn). cbn [app]. rewrite E. reflexivity.
Qed.

Lemma schedule_independent_witness :
  exists sys,
    schedule_run 2 3 (flat_map (fun _ => [0; 1]%nat) (seq 0 16)) (start 2 3)
    = Some sys /\
    all_done sys = true /\
    exists ledger,
      run_workers 2 3 (worker_ids 2) [] = Some ledger /\
      Permutation (shared sys) ledger /\
      unique_count (shared sys) = unique_count ledger /\
      (degenerate 3 = false ->
       solve_with 2 3 = Some (int32 (snd (unique_count (shared sys))))).
Proof.
  destruct (schedule_run 2 3 (flat_map (fun _ => [0; 1]%nat) (seq 0 16))
              (start 2 3)) as [sys|] eqn:E;
    [|vm_compute in E; discriminate E].
  exists sys. split; [reflexivity|].
  assert (Hd : all_done sys = true).
  { vm_compute in E. inversion E. reflexivity. }
  split; [exact Hd|].
  apply (schedule_independent 2 3
           (flat_map (fun _ => [0; 1]%nat) (seq 0 16)) sys);
    [lia|rewrite pow2_31; lia|exact E|exact Hd].
Defined.

(** X23: no interleaving of the threads goes wrong or runs for ever.
    After any sequence of turns of the [W] workers, every worker that has
    not left its loop can make its next turn without an access out of
    bounds, whatever the ledger holds by then, and the number of turns
    made, all workers together, is at most [W (4 ^ (2 n) - 1) / 3]. *)
Theorem threads_progress W n sched sys :
  1 <= n <= 31 -> 0 <= W ->
  schedule_run W n sched (start W n) = Some sys ->
  (forall i st,
     nth_error (workers sys) i = Some st -> finished st = false ->
     exists sys', thread_step W n i sys = Some sys') /\
  3 * Z.of_nat (length sched) <= W * (4 ^ (2 * n) - 1).
Proof.
  intros Hn HW Hrun.
  destruct (schedule_inv W n Hn sched _ _ _ _ (start_inv W n) Hrun)
    as (own & cnt & Hinv & Hsum).
  split.
  - intros i st Ei Hf.
    apply (thread_step_progress W n Hn own cnt i sys st Hinv Ei Hf).
  - assert (Z0 : forall l : list nat, list_sum (map (fun _ => O) l) = O).
    { intros l. induction l as [|a l IH]; [reflexivity|exact IH]. }
    rewrite Z0 in Hsum. cbn [plus] in Hsum.
    destruct Hinv as (Hlen & _ & Hw).
    assert (Hb : (list_sum (map cnt (seq 0 (Z.to_nat W)))
                  <= length (seq 0 (Z.to_nat W))
                     * nodes_bound (Z.to_nat (2 * n)))%nat).
    { apply list_sum_bound. intros i Hi. apply in_seq in Hi.
      destruct (nth_error (workers sys) i) as [st|] eqn:Ei.
      - apply (Hw i st Ei).
      - apply nth_error_None in Ei. lia. }
    rewrite length_seq, Hsum in Hb.
    pose proof (nodes_bound_pow (Z.to_nat (2 * n))) as Hnb.
    assert (E : 4 ^ (2 * n) = Z.of_nat (2 ^ (2 * Z.to_nat (2 * n)))).
    { rewrite Nat2Z.inj_pow, Nat2Z.inj_mul, Z2Nat.id by lia.
      change (Z.of_nat 2) with 2. change 4 with (2 ^ 2).
      rewrite <- Z.pow_mul_r by lia. reflexivity. }
    rewrite E.
    set (b := nodes_bound (Z.to_nat (2 * n))) in *.
    set (p := (2 ^ (2 * Z.to_nat (2 * n)))%nat) in *.
    clearbody b p.
    assert (Hb' : Z.of_nat (length sched) <= W * Z.of_nat b).
    { apply Nat2Z.inj_le in Hb. rewrite Nat2Z.inj_mul, Z2Nat.id in Hb by lia.
      exact Hb. }
    assert (Hp' : 3 * Z.of_nat b <= Z.of_nat p - 1) by lia.
    clear E.
    pose proof (Z.mul_le_mono_nonneg_l _ _ W HW Hp'). lia.
Qed.

Lemma threads_progress_witness :
  exists sys,
    schedule_run 2 3 [0; 1; 1; 0; 1]%nat (start 2 3) = Some sys /\
    (forall i st,
       nth_error (workers sys) i = Some st -> finished st = false ->
       exists sys', thread_step 2 3 i sys = Some sys') /\
    3 * Z.of_nat (length [0; 1; 1; 0; 1]%nat) <= 2 * (4 ^ (2 * 3) - 1).
Proof.
  destruct (schedule_run 2 3 [0; 1; 1; 0; 1]%nat (start 2 3)) as [sys|] eqn:E;
    [|vm_compute in E; discriminate E].
  exists sys. split; [reflexivity|].
  apply (threads_progress 2 3 [0; 1; 1; 0; 1]%nat sys); [lia|lia|exact E].
Defined.

